(** * Multigrid mesh levels and cycles of fas-intro: a shallow embedding

    The Python sources embedded here are
    - [src/py/meshlevel.py]      (module [PyMesh]),
    - [src/py/1D/meshlevel.py]   (module [Mesh1D]),
    - [src/py/subsetdecomp.py]   (module [SubsetDecomp]),
    - [src/fas/py/cycles.py]     (module [Cycles]),
    - [src/py/obs1.py]           (module [Obs1]: obstacle, source term and
                                  exact solution).

    Floating-point numbers are idealised as real numbers: a numpy array of
    float64 is a [list R], and every arithmetic operation is exact.  A
    theorem that equates values the code computes by different operations
    (a closed form, a norm, a sum of weights) is therefore a statement in
    exact arithmetic, and its comment says so: float64 rounds each
    operation, which such a statement does not account for.  Python
    exceptions are values of type [exn], and a computation that may raise
    returns a [result]. *)

From Stdlib Require Import Reals Lra Lia ZArith String DecimalString.
From stdpp Require Import base option list.

Open Scope R_scope.

(* ================================================================= *)
(** ** Python exceptions and the error monad *)

Inductive exn : Type :=
| AssertionError (msg : string)
| NameError (name : string)
| AttributeError (attr : string)
| IndexError
| TypeError
| ValueError.

Inductive result (A : Type) : Type :=
| Ok (a : A)
| Err (e : exn).

Arguments Ok {A} a.
Arguments Err {A} e.

#[global] Instance result_ret : MRet result := fun A a => Ok a.

#[global] Instance result_bind : MBind result := fun A B f r =>
  match r with
  | Ok a => f a
  | Err e => Err e
  end.

(** The message of an [assert] written without one. *)
Definition no_message : string := EmptyString.

(** [assert c, msg]: the message expression is evaluated only when the
    condition is false, and evaluating it may itself raise. *)
Definition py_assert (c : bool) (msg : result string) : result unit :=
  if c then Ok tt else m ← msg; Err (AssertionError m).

(** [for x in l: s = body(x, s)], stopping at the first exception. *)
Fixpoint for_in {A S : Type} (l : list A) (body : A → S → result S) (s : S)
  : result S :=
  match l with
  | [] => Ok s
  | x :: l' => s' ← body x s; for_in l' body s'
  end.

(** [range(a, b)] for non-negative bounds; empty when [b <= a]. *)
Definition range (a b : nat) : list nat := seq a (b - a).

(** ['%d' % n] for a non-negative integer. *)
Definition fmt_d (n : nat) : string := NilZero.string_of_uint (Nat.to_uint n).

(** An attribute that [__init__] may have set to [None]: using [None] in
    integer arithmetic raises [TypeError]. *)
Definition need_int (o : option nat) : result nat :=
  match o with
  | Some n => Ok n
  | None => Err TypeError
  end.

(* ================================================================= *)
(** ** One-dimensional numpy arrays *)

Abbreviation vec := (list R).

Definition np_zeros (n : nat) : vec := replicate n 0.

(** Position addressed by a (possibly negative) Python index. *)
Definition norm_index (n : nat) (i : Z) : result nat :=
  if (0 <=? i)%Z then
    if (i <? Z.of_nat n)%Z then Ok (Z.to_nat i) else Err IndexError
  else
    if (- Z.of_nat n <=? i)%Z then Ok (Z.to_nat (Z.of_nat n + i))
    else Err IndexError.

(** [v[i]] *)
Definition getitem (v : vec) (i : Z) : result R :=
  p ← norm_index (length v) i;
  match v !! p with
  | Some x => Ok x
  | None => Err IndexError
  end.

(** [y[i] = x] *)
Definition setitem (y : vec) (i : Z) (x : R) : result vec :=
  p ← norm_index (length y) i; Ok (<[p:=x]> y).

(** A slice bound is clamped into [0, len]; negative bounds count from the
    end. *)
Definition slice_bound (n : nat) (i : Z) : nat :=
  if (i <? 0)%Z then Z.to_nat (Z.max 0 (Z.of_nat n + i))
  else Z.to_nat (Z.min i (Z.of_nat n)).

(** [v[a:b]] *)
Definition slice (v : vec) (a b : Z) : vec :=
  let lo := slice_bound (length v) a in
  let hi := slice_bound (length v) b in
  take (hi - lo) (drop lo v).

(** [v[a:]] *)
Definition slice_from (v : vec) (a : Z) : vec :=
  drop (slice_bound (length v) a) v.

(** Elementwise binary operation with numpy's broadcasting of a length-one
    operand; other length mismatches raise [ValueError]. *)
Definition np_binop {C : Type} (f : R → R → C) (a b : vec) : result (list C) :=
  if decide (length a = length b) then Ok (zip_with f a b)
  else if decide (length b = 1%nat) then Ok (map (fun x => f x (hd 0 b)) a)
  else if decide (length a = 1%nat) then Ok (map (fun y => f (hd 0 a) y) b)
  else Err ValueError.

Definition np_add : vec → vec → result vec := np_binop Rplus.
Definition np_sub : vec → vec → result vec := np_binop Rminus.
Definition np_mul : vec → vec → result vec := np_binop Rmult.

(** In-place [a op= b]: the result must have the shape of [a]. *)
Definition np_iop (f : R → R → R) (a b : vec) : result vec :=
  if decide (length a = length b) then Ok (zip_with f a b)
  else if decide (length b = 1%nat) then Ok (map (fun x => f x (hd 0 b)) a)
  else Err ValueError.

Definition np_iadd : vec → vec → result vec := np_iop Rplus.

(** Array-with-scalar operations. *)
Definition np_adds (a : vec) (c : R) : vec := map (fun x => x + c) a.
Definition np_muls (a : vec) (c : R) : vec := map (fun x => x * c) a.

(** [np.sum] *)
Definition np_sum (a : vec) : R := foldr Rplus 0 a.

Definition Rltb (x y : R) : bool := if Rlt_dec x y then true else false.

(** [a < b] on arrays gives a boolean mask. *)
Definition np_less : vec → vec → result (list bool) := np_binop Rltb.

(** [np.maximum(a, c)] with a scalar [c] *)
Definition np_maximums (a : vec) (c : R) : vec := map (fun x => Rmax x c) a.

(** The entries of [r] at the positions where the mask is true. *)
Fixpoint mask_select (r : vec) (mask : list bool) : vec :=
  match r, mask with
  | x :: r', b :: mask' =>
      if b then x :: mask_select r' mask' else mask_select r' mask'
  | _, _ => []
  end.

(** [r[mask]] for a boolean mask: the mask must be as long as [r]. *)
Definition mask_get (r : vec) (mask : list bool) : result vec :=
  if decide (length mask = length r) then Ok (mask_select r mask)
  else Err IndexError.

Fixpoint mask_fill (r : vec) (mask : list bool) (vals : vec) : result vec :=
  match r, mask with
  | x :: r', true :: mask' =>
      match vals with
      | y :: vals' => t ← mask_fill r' mask' vals'; Ok (y :: t)
      | [] => Err ValueError
      end
  | x :: r', false :: mask' => t ← mask_fill r' mask' vals; Ok (x :: t)
  | [], [] => match vals with [] => Ok [] | _ => Err ValueError end
  | _, _ => Err IndexError
  end.

(** [r[mask] = vals]: the selected positions receive [vals] in order. *)
Definition mask_set (r : vec) (mask : list bool) (vals : vec) : result vec :=
  if decide (length mask = length r) then mask_fill r mask vals
  else Err IndexError.

(** The builtin [max] of a sequence: keep the first item, replace it by each
    later item that compares greater; an empty sequence raises
    [ValueError]. *)
Definition py_max (l : vec) : result R :=
  match l with
  | [] => Err ValueError
  | x :: l' =>
      Ok (foldl (fun cur item => if Rlt_dec cur item then item else cur) x l')
  end.

(** [np.linspace(a, b, n)]: [n] equally spaced samples, both ends
    included. *)
Definition np_linspace (a b : R) (n : nat) : vec :=
  map (fun i => a + INR i * ((b - a) / INR (n - 1))) (seq 0 n).

(** [c * a] for a scalar [c]. *)
Definition np_smul (c : R) (a : vec) : vec := map (fun x => c * x) a.

(** [y[a:b] = vals]: the values fill the slice; a single value is
    broadcast, any other length mismatch raises [ValueError]. *)
Definition setslice (y : vec) (a b : Z) (vals : vec) : result vec :=
  let lo := slice_bound (length y) a in
  let hi := slice_bound (length y) b in
  let n := (hi - lo)%nat in
  if decide (length vals = n) then
    Ok (take lo y ++ vals ++ drop (lo + n) y)
  else if decide (length vals = 1%nat) then
    Ok (take lo y ++ replicate n (hd 0 vals) ++ drop (lo + n) y)
  else Err ValueError.

(** Names visible in a function body, for the evaluation of a name that
    may be unbound. *)
Inductive pyval : Type :=
| PObj
| PArr (v : vec)
| PFun (f : R → R).

Fixpoint lookup_name (env : list (string * pyval)) (x : string)
  : result pyval :=
  match env with
  | [] => Err (NameError x)
  | (y, a) :: env' => if String.eqb x y then Ok a else lookup_name env' x
  end.

(** [len(a)] *)
Definition py_len (a : pyval) : result nat :=
  match a with
  | PArr v => Ok (length v)
  | _ => Err TypeError
  end.

(* ================================================================= *)
(** ** [src/py/meshlevel.py]: class [MeshLevel1D] with nodes [0..m] *)

Module PyMesh.

Record MeshLevel1D : Type := {
  k : nat;
  m : nat;
  mcoarser : option nat;
  h : R
}.

(** [__init__(self, k)] *)
Definition init (k0 : nat) : MeshLevel1D :=
  let m0 := (2 ^ (k0 + 1))%nat in
  {| k := k0;
     m := m0;
     mcoarser := if (0 <? k0)%nat then Some (2 ^ k0)%nat else None;
     h := 1 / INR m0 |}.

Definition zeros (self : MeshLevel1D) : vec := np_zeros (m self + 1).

Definition msg_coarsest_prolong : string :=
  "cannot prolong from a mesh coarser than the coarsest mesh".

Definition msg_coarsest_restrict : string :=
  "cannot restrict to a mesh coarser than the coarsest mesh".

(** ['input vector v is of length %d (should be %d)' % (got, want)] *)
Definition msg_len_v (got want : nat) : string :=
  ("input vector v is of length " ++ fmt_d got
   ++ " (should be " ++ fmt_d want ++ ")")%string.

(** ['input vector u is of length %d (should be %d)' % (got, want)] *)
Definition msg_len_u (got want : nat) : string :=
  ("input vector u is of length " ++ fmt_d got
   ++ " (should be " ++ fmt_d want ++ ")")%string.

(** [l2norm(self, u)]: no length check is made here. *)
Definition l2norm (self : MeshLevel1D) (u : vec) : result R :=
  a ← getitem u 0;
  sq ← np_mul (slice u 1 (-1)) (slice u 1 (-1));
  b ← getitem u (-1);
  Ok (sqrt (h self * (0.5 * a * a + np_sum sq + 0.5 * b * b))).

(** [prolong(self, v)] *)
Definition prolong (self : MeshLevel1D) (v : vec) : result vec :=
  _ ← py_assert (0 <? k self)%nat (Ok msg_coarsest_prolong);
  mc ← need_int (mcoarser self);
  _ ← py_assert (length v =? mc + 1)%nat (Ok (msg_len_v (length v) (mc + 1)));
  let y := zeros self in
  v1 ← getitem v 1;
  y ← setitem y 1 (0.5 * v1);
  y ← for_in (range 1 (mc - 1)) (fun q y =>
         vq ← getitem v (Z.of_nat q);
         y ← setitem y (Z.of_nat (2 * q)) vq;
         vq ← getitem v (Z.of_nat q);
         vq1 ← getitem v (Z.of_nat (q + 1));
         setitem y (Z.of_nat (2 * q + 1)) (0.5 * (vq + vq1))) y;
  vl ← getitem v (Z.of_nat (mc - 1));
  y ← setitem y (Z.of_nat (m self - 2)) vl;
  vl ← getitem v (Z.of_nat (mc - 1));
  setitem y (Z.of_nat (m self - 1)) (0.5 * vl).

(** [CR(self, v)]: canonical restriction of a linear functional. *)
Definition CR (self : MeshLevel1D) (v : vec) : result vec :=
  _ ← py_assert (0 <? k self)%nat (Ok msg_coarsest_restrict);
  _ ← py_assert (length v =? m self + 1)%nat
        (Ok (msg_len_v (length v) (m self + 1)));
  mc ← need_int (mcoarser self);
  for_in (range 1 mc) (fun q y =>
    a ← getitem v (Z.of_nat (2 * q - 1));
    b ← getitem v (Z.of_nat (2 * q));
    c ← getitem v (Z.of_nat (2 * q + 1));
    setitem y (Z.of_nat q) (0.5 * a + b + 0.5 * c)) (np_zeros (mc + 1)).

(** [VR0(self, v)]: full-weighting restriction of a vector, zero boundary
    values. *)
Definition VR0 (self : MeshLevel1D) (v : vec) : result vec :=
  _ ← py_assert (0 <? k self)%nat (Ok msg_coarsest_restrict);
  _ ← py_assert (length v =? m self + 1)%nat
        (Ok (msg_len_v (length v) (m self + 1)));
  mc ← need_int (mcoarser self);
  let y := np_zeros (mc + 1) in
  for_in (range 1 (length y - 1)) (fun q y =>
    a ← getitem v (Z.of_nat (2 * q - 1));
    c ← getitem v (Z.of_nat (2 * q + 1));
    b ← getitem v (Z.of_nat (2 * q));
    setitem y (Z.of_nat q) (0.25 * (a + c) + 0.5 * b)) y.

(** [MR(self, v)]: monotone restriction, boundary nodes included. *)
Definition MR (self : MeshLevel1D) (v : vec) : result vec :=
  _ ← py_assert (0 <? k self)%nat (Ok msg_coarsest_restrict);
  _ ← py_assert (length v =? m self + 1)%nat
        (Ok (msg_len_v (length v) (m self + 1)));
  mc ← need_int (mcoarser self);
  let y := np_zeros (mc + 1) in
  y0 ← py_max (slice v 0 2);
  y ← setitem y 0 y0;
  y ← for_in (range 1 (length y - 1)) (fun q y =>
         x ← py_max (slice v (Z.of_nat (2 * q - 1)) (Z.of_nat (2 * q + 2)));
         setitem y (Z.of_nat q) x) y;
  yl ← py_max (slice_from v (-2));
  setitem y (-1) yl.

(** [residual(self, u, f)].  The names bound in the body when the assertion
    message is evaluated are [self], [u] and [f]; the module binds [np] and
    [MeshLevel1D] only. *)
Definition residual (self : MeshLevel1D) (u : vec) (f : R → R) : result vec :=
  let env := [("self", PObj); ("u", PArr u); ("f", PFun f)]%string in
  _ ← py_assert (length u =? m self + 1)%nat
        (v ← lookup_name env "v"; n ← py_len v;
         Ok (msg_len_u n (m self + 1)));
  for_in (range 1 (m self)) (fun p r =>
    let xpm := (INR p - 0.5) * h self in
    let xpp := (INR p + 0.5) * h self in
    up ← getitem u (Z.of_nat p);
    um ← getitem u (Z.of_nat (p - 1));
    un ← getitem u (Z.of_nat (p + 1));
    setitem r (Z.of_nat p)
      ((h self / 2) * (f xpm + f xpp)
       - (1 / h self) * (2 * up - um - un))) (zeros self).

Definition osreps : R := 1 / 10 ^ 10.

(** [inactiveresidual(self, u, f, phi)].  The sum [phi + osreps] and the
    comparison are exact here; float64 rounds the sum, so that very close to
    the threshold the mask of the code can differ. *)
Definition inactiveresidual (self : MeshLevel1D) (u : vec) (f : R → R)
    (phi : vec) : result vec :=
  r ← residual self u f;
  mask ← np_less u (np_adds phi osreps);
  sel ← mask_get r mask;
  mask' ← np_less u (np_adds phi osreps);
  mask_set r mask' (np_maximums sel 0).

(** [xx(self)]: the coordinates of the nodes. *)
Definition xx (self : MeshLevel1D) : vec := np_linspace 0 1 (m self + 1).

(** [VR(self, v)]: full-weighting restriction of a vector, boundary values
    included.  The length is checked before the level. *)
Definition VR (self : MeshLevel1D) (v : vec) : result vec :=
  _ ← py_assert (length v =? m self + 1)%nat
        (Ok (msg_len_v (length v) (m self + 1)));
  _ ← py_assert (0 <? k self)%nat (Ok msg_coarsest_restrict);
  mc ← need_int (mcoarser self);
  let y := np_zeros (mc + 1) in
  v0 ← getitem v 0;
  v1 ← getitem v 1;
  y ← setitem y 0 ((2 / 3) * v0 + (1 / 3) * v1);
  y ← for_in (range 1 (length y - 1)) (fun q y =>
         a ← getitem v (Z.of_nat (2 * q - 1));
         c ← getitem v (Z.of_nat (2 * q + 1));
         b ← getitem v (Z.of_nat (2 * q));
         setitem y (Z.of_nat q) (0.25 * (a + c) + 0.5 * b)) y;
  vm2 ← getitem v (-2);
  vm1 ← getitem v (-1);
  setitem y (-1) ((1 / 3) * vm2 + (2 / 3) * vm1).

End PyMesh.

(* ================================================================= *)
(** ** [src/py/1D/meshlevel.py]: class [MeshLevel1D] with nodes [0..m+1] *)

Module Mesh1D.

Record MeshLevel1D : Type := {
  j : nat;
  m : nat;
  mcoarser : option nat;
  h : R
}.

(** [__init__(self, j)]; the work-unit counter [WU] is kept by the
    drivers, not by the operations embedded here. *)
Definition init (j0 : nat) : MeshLevel1D :=
  let m0 := (2 ^ (j0 + 1) - 1)%nat in
  {| j := j0;
     m := m0;
     mcoarser := if (0 <? j0)%nat then Some (2 ^ j0 - 1)%nat else None;
     h := 1 / (INR m0 + 1) |}.

Definition msg_coarsest_prolong : string :=
  "cannot prolong from a mesh coarser than the coarsest mesh".

Definition msg_coarsest_restrict : string :=
  "cannot restrict to a mesh coarser than the coarsest mesh".

(** ['input vector is of length %d (should be %d)' % (got, want)] *)
Definition msg_len (got want : nat) : string :=
  ("input vector is of length " ++ fmt_d got
   ++ " (should be " ++ fmt_d want ++ ")")%string.

(** [checklen(self, v, coarser=False)] *)
Definition checklen (self : MeshLevel1D) (v : vec) (coarser : bool)
  : result unit :=
  goodlen ← (if coarser then mc ← need_int (mcoarser self); Ok (mc + 2)%nat
             else Ok (m self + 2)%nat);
  py_assert (length v =? goodlen)%nat (Ok (msg_len (length v) goodlen)).

Definition zeros (self : MeshLevel1D) : vec := np_zeros (m self + 2).

(** [l2norm(self, u)] *)
Definition l2norm (self : MeshLevel1D) (u : vec) : result R :=
  _ ← checklen self u false;
  a ← getitem u 0;
  sq ← np_mul (slice u 1 (-1)) (slice u 1 (-1));
  b ← getitem u (-1);
  Ok (sqrt (h self * (0.5 * a * a + np_sum sq + 0.5 * b * b))).

(** [cP(self, v)]: canonical prolongation by linear interpolation. *)
Definition cP (self : MeshLevel1D) (v : vec) : result vec :=
  _ ← py_assert (0 <? j self)%nat (Ok msg_coarsest_prolong);
  _ ← checklen self v true;
  let y := zeros self in
  v1 ← getitem v 1;
  y ← setitem y 1 (0.5 * v1);
  y ← for_in (range 1 (length v - 2)) (fun q y =>
         vq ← getitem v (Z.of_nat q);
         y ← setitem y (Z.of_nat (2 * q)) vq;
         vq ← getitem v (Z.of_nat q);
         vq1 ← getitem v (Z.of_nat (q + 1));
         setitem y (Z.of_nat (2 * q + 1)) (0.5 * (vq + vq1))) y;
  vl ← getitem v (-2);
  y ← setitem y (-3) vl;
  vl ← getitem v (-2);
  setitem y (-2) (0.5 * vl).

(** [cR(self, ell)]: canonical restriction of a linear functional. *)
Definition cR (self : MeshLevel1D) (ell : vec) : result vec :=
  _ ← py_assert (0 <? j self)%nat (Ok msg_coarsest_restrict);
  _ ← checklen self ell false;
  mc ← need_int (mcoarser self);
  for_in (range 1 (mc + 1)) (fun q y =>
    a ← getitem ell (Z.of_nat (2 * q - 1));
    b ← getitem ell (Z.of_nat (2 * q));
    c ← getitem ell (Z.of_nat (2 * q + 1));
    setitem y (Z.of_nat q) (0.5 * a + b + 0.5 * c)) (np_zeros (mc + 2)).

(** [mR(self, v)]: monotone restriction; boundary values stay zero. *)
Definition mR (self : MeshLevel1D) (v : vec) : result vec :=
  _ ← py_assert (0 <? j self)%nat (Ok msg_coarsest_restrict);
  _ ← checklen self v false;
  mc ← need_int (mcoarser self);
  for_in (range 1 (mc + 1)) (fun q y =>
    x ← py_max (slice v (Z.of_nat (2 * q - 1)) (Z.of_nat (2 * q + 2)));
    setitem y (Z.of_nat q) x) (np_zeros (mc + 2)).

(** [xx(self)]: the coordinates of the nodes. *)
Definition xx (self : MeshLevel1D) : vec := np_linspace 0 1 (m self + 2).

(** [ellf(self, f)]: the linear functional of the nodal values [f]. *)
Definition ellf (self : MeshLevel1D) (f : vec) : result vec :=
  _ ← checklen self f false;
  let ellf := zeros self in
  setslice ellf 1 (-1) (np_smul (h self) (slice f 1 (-1))).

(** [injectP(self, ell)]: prolongation of a linear functional by
    injection. *)
Definition injectP (self : MeshLevel1D) (ell : vec) : result vec :=
  _ ← py_assert (0 <? j self)%nat (Ok msg_coarsest_prolong);
  _ ← checklen self ell true;
  let y := zeros self in
  mc ← need_int (mcoarser self);
  for_in (range 1 (mc + 1)) (fun q y =>
    e ← getitem ell (Z.of_nat q);
    setitem y (Z.of_nat (2 * q)) e) y.

(** [fwP(self, ell)]: prolongation of a linear functional by
    full weighting. *)
Definition fwP (self : MeshLevel1D) (ell : vec) : result vec :=
  _ ← py_assert (0 <? j self)%nat (Ok msg_coarsest_prolong);
  _ ← checklen self ell true;
  let y := zeros self in
  e1 ← getitem ell 1;
  y ← setitem y 1 (0.25 * e1);
  y ← for_in (range 1 (length ell - 2)) (fun q y =>
         eq ← getitem ell (Z.of_nat q);
         y ← setitem y (Z.of_nat (2 * q)) (0.5 * eq);
         eq ← getitem ell (Z.of_nat q);
         eq1 ← getitem ell (Z.of_nat (q + 1));
         setitem y (Z.of_nat (2 * q + 1)) (0.25 * (eq + eq1))) y;
  el ← getitem ell (-2);
  y ← setitem y (-3) (0.5 * el);
  el ← getitem ell (-2);
  setitem y (-2) (0.25 * el).

End Mesh1D.

(* ================================================================= *)
(** ** Stateful code: a state-and-error monad *)

Definition SE (S A : Type) : Type := S → result (A * S).

#[global] Instance SE_ret {S : Type} : MRet (SE S) := fun A a s => Ok (a, s).

#[global] Instance SE_bind {S : Type} : MBind (SE S) := fun A B f c s =>
  match c s with
  | Ok (a, s') => f a s'
  | Err e => Err e
  end.

Definition lift {S A : Type} (r : result A) : SE S A := fun s =>
  match r with
  | Ok a => Ok (a, s)
  | Err e => Err e
  end.

(** [for x in l: body(x)] on a mutable state. *)
Fixpoint for_each {S A : Type} (l : list A) (body : A → SE S unit)
  : SE S unit :=
  match l with
  | [] => mret tt
  | x :: l' => _ ← body x; for_each l' body
  end.

(* ================================================================= *)
(** ** [src/py/subsetdecomp.py]: the constraint-decomposition V-cycle *)

Module SubsetDecomp.

(** The mesh class this module is written against (attributes [m], [chi] and
    methods [zeros], [mR], [P], [cR]) is the collaborator of [vcycle]: its
    methods are fields of the object. *)
Record MeshLevel : Type := {
  m : nat;
  zeros : vec;
  mR : vec → result vec;
  P : vec → result vec;
  cR : vec → result vec
}.

(** A mesh object of the hierarchy: its class part and the attribute [chi],
    which is absent until somebody assigns it. *)
Record MeshObj : Type := {
  cls : MeshLevel;
  chi : option vec
}.

(** Ghost record of one [pgssweep] call: the hierarchy index of the mesh,
    the obstacle handed over, the direction, and the count the call
    returned. *)
Record call : Type := {
  c_level : nat;
  c_phi : vec;
  c_forward : bool;
  c_count : Z
}.

(** The objects of [hierarchy] (distinct objects, one per index) and the
    ghost list of smoother calls, oldest first. *)
Record state : Type := {
  hierarchy : list MeshObj;
  calls : list call
}.

Definition get_mesh (i : nat) : SE state MeshObj := fun st =>
  match hierarchy st !! i with
  | Some M => Ok (M, st)
  | None => Err IndexError
  end.

(** [hierarchy[i].chi] *)
Definition get_chi (i : nat) : SE state vec := fun st =>
  match hierarchy st !! i with
  | Some M =>
      match chi M with
      | Some c => Ok (c, st)
      | None => Err (AttributeError "chi")
      end
  | None => Err IndexError
  end.

(** [hierarchy[i].chi = c] *)
Definition set_chi (i : nat) (c : vec) : SE state unit := fun st =>
  match hierarchy st !! i with
  | Some M =>
      Ok (tt, {| hierarchy := <[i := {| cls := cls M; chi := Some c |}]>
                                (hierarchy st);
                 calls := calls st |})
  | None => Err IndexError
  end.

Definition record_call (c : call) : SE state unit := fun st =>
  Ok (tt, {| hierarchy := hierarchy st; calls := calls st ++ [c] |}).

Section Collaborators.

(** [pgssweep(mesh, v, F, phi, forward=...)] of module [pgs]: updates [v] in
    place and returns the number of infeasible points. *)
Variable pgssweep : MeshLevel → vec → vec → vec → bool → vec * Z.

(** [residual(mesh, v, F)] of module [poisson]. *)
Variable residual : MeshLevel → vec → vec → vec.

(** One pass of the loop body of [_smoother]. *)
Definition smoother_body (i : nat) (mesh : MeshLevel) (F phi : vec)
    (forward symmetric : bool) (acc : vec * Z) : SE state (vec * Z) :=
  let '(v, infeas) := acc in
  let '(v, n1) := pgssweep mesh v F phi forward in
  _ ← record_call {| c_level := i; c_phi := phi; c_forward := forward;
                     c_count := n1 |};
  if symmetric then
    let '(v, n2) := pgssweep mesh v F phi (negb forward) in
    _ ← record_call {| c_level := i; c_phi := phi;
                       c_forward := negb forward; c_count := n2 |};
    mret (v, (infeas + n1 + n2)%Z)
  else mret (v, (infeas + n1)%Z).

Fixpoint smoother_loop (n : nat) (i : nat) (mesh : MeshLevel) (F phi : vec)
    (forward symmetric : bool) (acc : vec * Z) : SE state (vec * Z) :=
  match n with
  | O => mret acc
  | S n' =>
      acc' ← smoother_body i mesh F phi forward symmetric acc;
      smoother_loop n' i mesh F phi forward symmetric acc'
  end.

(** [_smoother(s, mesh, v, F, phi, forward, symmetric)]; [i] is the
    hierarchy index of [mesh], kept for the ghost record only.  Returns the
    updated [v] and the count. *)
Definition _smoother (i : nat) (s : Z) (mesh : MeshLevel) (v F phi : vec)
    (forward symmetric : bool) : SE state (vec * Z) :=
  smoother_loop (Z.to_nat s) i mesh F phi forward symmetric (v, 0%Z).

(** [vcycle(j, hierarchy, F, down, up, coarse, symmetric=...)] with
    [view=False].  The hierarchy is the one of the state. *)
Fixpoint vcycle (j : nat) (F : vec) (down up coarse : Z) (symmetric : bool)
  : SE state (vec * Z) :=
  _ ← lift (py_assert ((1 <=? down)%Z && (0 <=? up)%Z && (1 <=? coarse)%Z)
              (Ok no_message));
  mesh ← get_mesh j;
  let mesh := cls mesh in
  _ ← lift (py_assert (length F =? m mesh + 2)%nat (Ok no_message));
  let v := zeros mesh in
  match j with
  | O =>
      chi0 ← get_chi j;
      _smoother j coarse mesh v F chi0 true symmetric
  | S j' =>
      chij ← get_chi j;
      c ← lift (mR mesh chij);
      _ ← set_chi j' c;
      chij ← get_chi j;
      cc ← get_chi j';
      pc ← lift (P mesh cc);
      phi ← lift (np_sub chij pc);
      let phi := if (0 <? up)%Z then np_muls phi 0.5 else phi in
      '(v, infeas) ← _smoother j down mesh v F phi true symmetric;
      Fcoarse ← lift (cR mesh (residual mesh v F));
      '(vcoarse, ifc) ← vcycle j' Fcoarse down up coarse symmetric;
      pv ← lift (P mesh vcoarse);
      v ← lift (np_iadd v pv);
      let infeas := (infeas + ifc)%Z in
      if (0 <? up)%Z then
        '(v, n) ← _smoother j up mesh v F phi true symmetric;
        mret (v, (infeas + n)%Z)
      else mret (v, infeas)
  end.

End Collaborators.

(** The class of [src/py/1D/meshlevel.py] as a mesh of this module, its
    prolongation [cP] taken for [P]. *)
Definition of_mesh1d (M : Mesh1D.MeshLevel1D) : MeshLevel :=
  {| m := Mesh1D.m M;
     zeros := Mesh1D.zeros M;
     mR := Mesh1D.mR M;
     P := Mesh1D.cP M;
     cR := Mesh1D.cR M |}.

(** ['%d' % z] for an integer. *)
Definition fmt_z (z : Z) : string := NilZero.string_of_int (Z.to_int z).

Definition newline : string := String (Ascii.ascii_of_nat 10) EmptyString.

(** [_indentprint(n, s)]: what it writes, two spaces [n] times (none for
    [n <= 0]), then [s] and a newline. *)
Definition _indentprint (n : Z) (s : string) : string :=
  (String.concat EmptyString (replicate (Z.to_nat n) "  "%string)
   ++ s ++ newline)%string.

(** The text of [_levelreport(indent, j, m, sweeps)]. *)
Definition _levelreport (indent : Z) (j m : nat) (sweeps : Z) : string :=
  _indentprint (indent - Z.of_nat j)
    ("level " ++ fmt_d j ++ ": " ++ fmt_z sweeps ++ " sweeps over m="
     ++ fmt_d m ++ " nodes")%string.

(** The text of [_coarsereport(indent, m, sweeps)]. *)
Definition _coarsereport (indent : Z) (m : nat) (sweeps : Z) : string :=
  _indentprint indent
    ("coarsest: " ++ fmt_z sweeps ++ " sweeps over m=" ++ fmt_d m
     ++ " nodes")%string.

(** The state of a cycle that prints: the hierarchy with its ghost record,
    and the text written to the console so far.  A call that raises has no
    final state: what it wrote before is not kept. *)
Record vstate : Type := {
  base : state;
  out : string
}.

(** A computation on the hierarchy, run in a state with a console. *)
Definition on_base {A : Type} (c : SE state A) : SE vstate A := fun s =>
  match c (base s) with
  | Ok (a, b) => Ok (a, {| base := b; out := out s |})
  | Err e => Err e
  end.

Definition print (t : string) : SE vstate unit := fun s =>
  Ok (tt, {| base := base s; out := (out s ++ t)%string |}).

(** [levels - 1] for the keyword argument [levels], which is [None] by
    default. *)
Definition levels_minus_one (levels : option Z) : result Z :=
  match levels with
  | Some l => Ok (l - 1)%Z
  | None => Err TypeError
  end.

Section Viewing.

Variable pgssweep : MeshLevel → vec → vec → vec → bool → vec * Z.
Variable residual : MeshLevel → vec → vec → vec.

(** [vcycle(j, hierarchy, F, down, up, coarse, levels=..., view=...,
    symmetric=...)] with its reports. *)
Fixpoint vcycle_view (j : nat) (F : vec) (down up coarse : Z)
    (levels : option Z) (view symmetric : bool) : SE vstate (vec * Z) :=
  _ ← on_base (lift (py_assert
                       ((1 <=? down)%Z && (0 <=? up)%Z && (1 <=? coarse)%Z)
                       (Ok no_message)));
  mesh ← on_base (get_mesh j);
  let mesh := cls mesh in
  _ ← on_base (lift (py_assert (length F =? m mesh + 2)%nat (Ok no_message)));
  let v := zeros mesh in
  match j with
  | O =>
      _ ← (if view then
             indent ← on_base (lift (levels_minus_one levels));
             print (_coarsereport indent (m mesh) coarse)
           else mret tt);
      chi0 ← on_base (get_chi j);
      on_base (_smoother pgssweep j coarse mesh v F chi0 true symmetric)
  | S j' =>
      chij ← on_base (get_chi j);
      c ← on_base (lift (mR mesh chij));
      _ ← on_base (set_chi j' c);
      chij ← on_base (get_chi j);
      cc ← on_base (get_chi j');
      pc ← on_base (lift (P mesh cc));
      phi ← on_base (lift (np_sub chij pc));
      let phi := if (0 <? up)%Z then np_muls phi 0.5 else phi in
      _ ← (if view then
             indent ← on_base (lift (levels_minus_one levels));
             print (_levelreport indent j (m mesh) down)
           else mret tt);
      '(v, infeas) ← on_base (_smoother pgssweep j down mesh v F phi true
                                symmetric);
      Fcoarse ← on_base (lift (cR mesh (residual mesh v F)));
      '(vcoarse, ifc) ← vcycle_view j' Fcoarse down up coarse levels view
                          symmetric;
      pv ← on_base (lift (P mesh vcoarse));
      v ← on_base (lift (np_iadd v pv));
      let infeas := (infeas + ifc)%Z in
      if (0 <? up)%Z then
        _ ← (if view then
               indent ← on_base (lift (levels_minus_one levels));
               print (_levelreport indent j (m mesh) up)
             else mret tt);
        '(v, n) ← on_base (_smoother pgssweep j up mesh v F phi true
                             symmetric);
        mret (v, (infeas + n)%Z)
      else mret (v, infeas)
  end.

End Viewing.

End SubsetDecomp.

(* ================================================================= *)
(** ** [src/fas/py/cycles.py]: class [FAS] *)

Module Cycles.

(** The mesh and problem classes of the FAS scheme are collaborators: a
    mesh level gives [h], [m] and the transfer methods [P], [CR], [Rfw]; a
    problem gives the operator [F(h, u)] and the pointwise relaxation
    [ngspoint(h, w, ell, p, niters)], which updates [w] in place (here: the
    new contents of [w]). *)
Record MeshLevel : Type := {
  h : R;
  m : nat;
  P : vec → result vec;
  CR : vec → result vec;
  Rfw : vec → result vec
}.

Record Problem : Type := {
  F : R → vec → result vec;
  ngspoint : R → vec → vec → nat → Z → vec
}.

(** The attributes of a [FAS] object that never change after [__init__];
    the monitor flags are off. *)
Record FAS : Type := {
  meshes : list MeshLevel;
  prob : Problem;
  kcoarse : nat;
  kfine : nat;
  coarse : Z;
  down : Z;
  up : Z;
  niters : Z
}.

(** Arrays are objects: a [loc] names one, and [store] holds the contents.
    [wu] is the attribute [self.wu]; [sweeps] is the ghost list of the
    [ngssweep] calls made so far (level and direction), oldest first. *)
Abbreviation loc := nat.

Record state : Type := {
  store : list vec;
  wu : vec;
  sweeps : list (nat * bool)
}.

(** State right after [__init__]: [self.wu = np.zeros(self.kfine+1)]. *)
Definition init_state (self : FAS) (arrays : list vec) : state :=
  {| store := arrays; wu := np_zeros (kfine self + 1); sweeps := [] |}.

(** A fresh array object. *)
Definition alloc (v : vec) : SE state loc := fun st =>
  Ok (length (store st),
      {| store := store st ++ [v]; wu := wu st; sweeps := sweeps st |}).

(** Contents of an array object; a location outside the store is not an
    array. *)
Definition load (l : loc) : SE state vec := fun st =>
  match store st !! l with
  | Some v => Ok (v, st)
  | None => Err TypeError
  end.

(** Overwrite the contents of an array object in place. *)
Definition assign (l : loc) (v : vec) : SE state unit := fun st =>
  match store st !! l with
  | Some _ => Ok (tt, {| store := <[l := v]> (store st); wu := wu st;
                         sweeps := sweeps st |})
  | None => Err TypeError
  end.

(** [self.wu[k] += x] *)
Definition wu_add (k : nat) (x : R) : SE state unit := fun st =>
  match (old ← getitem (wu st) (Z.of_nat k);
         setitem (wu st) (Z.of_nat k) (old + x)) with
  | Ok w => Ok (tt, {| store := store st; wu := w; sweeps := sweeps st |})
  | Err e => Err e
  end.

Definition record_sweep (k : nat) (forward : bool) : SE state unit := fun st =>
  Ok (tt, {| store := store st; wu := wu st;
             sweeps := sweeps st ++ [(k, forward)] |}).

Section Methods.

Variable self : FAS.

(** [self.meshes[k]] *)
Definition mesh_at (k : nat) : SE state MeshLevel := fun st =>
  match meshes self !! k with
  | Some M => Ok (M, st)
  | None => Err IndexError
  end.

(** [wutotal(self)] *)
Definition wutotal : SE state R := fun st =>
  match for_in (range 0 (kfine self + 1)) (fun k tot =>
          x ← getitem (wu st) (Z.of_nat (kfine self - k));
          Ok (tot + x / 2 ^ k)) 0 with
  | Ok tot => Ok (tot, st)
  | Err e => Err e
  end.

(** [ngssweep(self, k, w, ell, forward=True)] *)
Definition ngssweep (k : nat) (w ell : loc) (forward : bool) : SE state unit :=
  M ← mesh_at k;
  _ ← record_sweep k forward;
  let indices := if forward then range 1 (m M) else rev (range 1 (m M)) in
  for_each indices (fun p =>
    M ← mesh_at k;
    wc ← load w;
    ec ← load ell;
    assign w (ngspoint (prob self) (h M) wc ec p (niters self))).

(** [coarsesolve(self, u, ell)] *)
Definition coarsesolve (u ell : loc) : SE state unit :=
  _ ← for_each (range 0 (Z.to_nat (coarse self))) (fun q =>
        ngssweep (kcoarse self) u ell true);
  wu_add (kcoarse self) (IZR (coarse self)).

(** [vcycle(self, k, u, ell)]; acts in place on the array [u]. *)
Fixpoint vcycle (k : nat) (u ell : loc) : SE state unit :=
  if decide (k = kcoarse self) then coarsesolve u ell
  else
    _ ← lift (py_assert (kcoarse self <? k)%nat (Ok no_message));
    match k with
    | O => mret tt  (* not reached: the assertion has failed *)
    | S k' =>
        _ ← for_each (range 0 (Z.to_nat (down self))) (fun q =>
              ngssweep k u ell true);
        _ ← wu_add k (IZR (down self));
        (* rfine = ell - self.prob.F(self.meshes[k].h,u) *)
        lc ← load ell;
        M ← mesh_at k;
        uc ← load u;
        Fu ← lift (F (prob self) (h M) uc);
        rfine ← lift (np_sub lc Fu);
        (* Ru = self.meshes[k].Rfw(u) *)
        M ← mesh_at k;
        uc ← load u;
        Ruc ← lift (Rfw M uc);
        Ru ← alloc Ruc;
        (* coarseell = self.meshes[k].CR(rfine)
                       + self.prob.F(self.meshes[k-1].h,Ru) *)
        M ← mesh_at k;
        cr ← lift (CR M rfine);
        M' ← mesh_at k';
        Ruc ← load Ru;
        FRu ← lift (F (prob self) (h M') Ruc);
        cl ← lift (np_add cr FRu);
        coarseell ← alloc cl;
        (* ucoarse = Ru.copy() *)
        Ruc ← load Ru;
        ucoarse ← alloc Ruc;
        _ ← vcycle k' ucoarse coarseell;
        (* du = ucoarse - Ru *)
        ucc ← load ucoarse;
        Ruc ← load Ru;
        du ← lift (np_sub ucc Ruc);
        (* u += self.meshes[k].P(du) *)
        M ← mesh_at k;
        pdu ← lift (P M du);
        uc ← load u;
        unew ← lift (np_iadd uc pdu);
        _ ← assign u unew;
        _ ← for_each (range 0 (Z.to_nat (up self))) (fun q =>
              ngssweep k u ell false);
        wu_add k (IZR (up self))
    end.

End Methods.

(** The class of [src/py/meshlevel.py] as a mesh of the FAS scheme, its
    [prolong] taken for [P] and its [VR0] for [Rfw]. *)
Definition of_pymesh (M : PyMesh.MeshLevel1D) : MeshLevel :=
  {| h := PyMesh.h M;
     m := PyMesh.m M;
     P := PyMesh.prolong M;
     CR := PyMesh.CR M;
     Rfw := PyMesh.VR0 M |}.

(** [__init__(self, meshes, prob, kcoarse, kfine, ...)] with the monitor
    flags off: the two assertions, then the attributes and the work-unit
    counters [np.zeros(self.kfine+1)]. *)
Definition init (meshes : list MeshLevel) (prob : Problem)
    (kcoarse kfine coarse down up niters : Z) : result (FAS * vec) :=
  _ ← py_assert (0 <=? kcoarse)%Z (Ok no_message);
  _ ← py_assert (kcoarse <? kfine)%Z (Ok no_message);
  let self := {| meshes := meshes; prob := prob;
                 kcoarse := Z.to_nat kcoarse; kfine := Z.to_nat kfine;
                 coarse := coarse; down := down; up := up;
                 niters := niters |} in
  Ok (self, np_zeros (Z.to_nat kfine + 1)).

(** [range(a, b, 2)] for non-negative bounds. *)
Definition range2 (a b : nat) : list nat :=
  map (fun i => a + 2 * i)%nat (seq 0 ((b - a + 1) / 2)).

(** [for x in l: acc = body(x, acc)] on a mutable state. *)
Fixpoint for_acc {S A B : Type} (l : list A) (body : A → B → SE S B) (b : B)
  : SE S B :=
  match l with
  | [] => mret b
  | x :: l' => b' ← body x b; for_acc l' body b'
  end.

Section FullCycle.

Variable self : FAS.

(** The attribute [self.mms] and the collaborator methods that only [rhs]
    and [fcycle] use: [meshes[k].zeros()], [meshes[k].xx()] and
    [prob.mms(x)], which returns a pair of arrays. *)
Variable mms : bool.
Variable zeros : MeshLevel → vec.
Variable xx : MeshLevel → vec.
Variable prob_mms : vec → result (vec * vec).

(** [Phat(self, k, w, ell)]: the interpolated vector is a new array, and
    only its odd points are relaxed. *)
Definition Phat (k : nat) (w ell : loc) : SE state loc :=
  M ← mesh_at self k;
  wc ← load w;
  pw ← lift (P M wc);
  w' ← alloc pw;
  M ← mesh_at self k;
  _ ← for_each (range2 1 (m M)) (fun p =>
        M ← mesh_at self k;
        wc ← load w';
        ec ← load ell;
        assign w' (ngspoint (prob self) (h M) wc ec p (niters self)));
  mret w'.

(** [rhs(self, k)] *)
Definition rhs (k : nat) : SE state loc :=
  M ← mesh_at self k;
  ellg ← alloc (zeros M);
  if mms then
    M ← mesh_at self k;
    '(_, g) ← lift (prob_mms (xx M));
    M ← mesh_at self k;
    let g := np_muls g (h M) in
    ec ← load ellg;
    ec ← lift (setslice ec 1 (-1) (slice g 1 (-1)));
    _ ← assign ellg ec;
    mret ellg
  else mret ellg.

(** One pass of the level loop of [fcycle].  The accumulator holds the
    array [u] and the local variable [s], which is unbound until a cycle
    loop has run once; the argument [s+1] of the last call is evaluated
    also when nothing is printed, and reading an unbound local raises
    [UnboundLocalError], a [NameError]. *)
Definition fcycle_level (cycles : Z) (ep : bool) (k : nat)
    (acc : loc * option nat) : SE state (loc * option nat) :=
  let '(u, s) := acc in
  ellg ← rhs k;
  u ← (if ep then
         u' ← Phat k u ellg;
         _ ← wu_add k 0.5;
         mret u'
       else
         M ← mesh_at self k;
         uc ← load u;
         pu ← lift (P M uc);
         alloc pu);
  let Z := if decide (k = kfine self) then cycles else 1%Z in
  _ ← for_each (range 0 (Z.to_nat Z)) (fun s => vcycle self k u ellg);
  let s := if (0 <? Z)%Z then Some (Z.to_nat Z - 1)%nat else s in
  _ ← lift (match s with
            | Some _ => Ok tt
            | None => Err (NameError "s")
            end);
  mret (u, s).

(** [fcycle(self, cycles=1, ep=True)]; returns the array [u]. *)
Definition fcycle (cycles : Z) (ep : bool) : SE state loc :=
  Mc ← mesh_at self (kcoarse self);
  u ← alloc (zeros Mc);
  ellg ← rhs (kcoarse self);
  _ ← coarsesolve self u ellg;
  '(u, _) ← for_acc (range (kcoarse self + 1) (kfine self + 1))
              (fcycle_level cycles ep) (u, None);
  mret u.

End FullCycle.

End Cycles.

(* ================================================================= *)
(** ** [src/py/obs1.py]: obstacle, source term and exact solution *)

Module Obs1.

(** The command-line options that the functions read from [args]. *)
Record Args : Type := {
  problem : string;
  random : bool;
  randommag : R;
  fscale : R
}.

Section Functions.

Variable args : Args.

(** The draws of the seeded random generator, in order:
    [np.random.randn(n)] returns the first [n] of them ([phi] is the only
    consumer, and the driver calls it once when [-random] is set). *)
Variable draws : nat → R.

Definition randn (n : nat) : vec := map draws (seq 0 n).

(** [phi(x)]: the obstacle at the nodes [x]. *)
Definition phi (x : vec) : result vec :=
  ph ← (if String.eqb (problem args) "parabola" then
          Ok (map (fun t => 8 * t * (1 - t) - 1) x)
        else if String.eqb (problem args) "low" then
          Ok (map (fun t => 8 * t * (1 - t) - 3) x)
        else if String.eqb (problem args) "icelike" then
          Ok (map (fun t => t * (1 - t)) x)
        else Err ValueError);
  if random args then
    let perturb := np_smul (randommag args) (randn (length x)) in
    perturb ← setitem perturb 0 0;
    perturb ← setitem perturb (-1) 0;
    np_iadd ph perturb
  else Ok ph.

(** [fsource(x)] for a scalar [x]. *)
Definition fsource (x : R) : R :=
  let f := if String.eqb (problem args) "icelike" then
             if Rltb x 0.2 || Rltb 0.8 x then - 16 else 8
           else - 2 in
  fscale args * f.

(** [exactavailable = (not args.random) and (args.fscale == 1.0)] *)
Definition exactavailable : bool :=
  negb (random args) && (if Req_dec_T (fscale args) 1 then true else false).

Definition msg_no_exact : string := "exact solution not available".

(** [uexact(x)] for an array [x]. *)
Definition uexact (x : vec) : result vec :=
  _ ← py_assert exactavailable (Ok msg_no_exact);
  if String.eqb (problem args) "low" then
    Ok (map (fun t => t * (t - 1)) x)
  else if String.eqb (problem args) "icelike" then
    u ← phi x;
    let a := 0.1 in
    let c0 := - 0.8 in
    let c1 := 0.09 in
    let d0 := 4 in
    let d1 := - 0.39 in
    let mid := zip_with andb (map (fun t => Rltb 0.2 t) x)
                 (map (fun t => Rltb t 0.8) x) in
    let left := zip_with andb (map (fun t => Rltb a t) x)
                  (map (fun t => Rltb t 0.2) x) in
    let right := zip_with andb (map (fun t => Rltb 0.8 t) x)
                   (map (fun t => Rltb t (1 - a)) x) in
    xm ← mask_get x mid;
    u ← mask_set u mid (map (fun t => - 4 * t ^ 2 + d0 * t + d1) xm);
    xl ← mask_get x left;
    u ← mask_set u left (map (fun t => 8 * t ^ 2 + c0 * t + c1) xl);
    xr ← mask_get x right;
    mask_set u right
      (map (fun t => 8 * (1 - t) ^ 2 + c0 * (1 - t) + c1) xr)
  else
    let a := 1 / 3 in
    let upoisson := fun t => t * (t - 18 * a + 8) in
    u ← phi x;
    let lo := map (fun t => Rltb t a) x in
    xlo ← mask_get x lo;
    u ← mask_set u lo (map upoisson xlo);
    let hi := map (fun t => Rltb (1 - a) t) x in
    xhi ← mask_get x hi;
    mask_set u hi (map (fun t => upoisson (1 - t)) xhi).

End Functions.

End Obs1.


(* ================================================================= *)
(** * Reference formulas used in the statements *)

(** Value of a coarse vector at node [q], its two boundary nodes [0] and
    [n] (and everything outside) read as zero. *)
Definition interior (n : nat) (v : vec) (q : nat) : R :=
  if decide (0 < q < n)%nat then nth q v 0 else 0.

(** Linear interpolation of the nodal values [f] at the fine node [p]. *)
Definition interp (f : nat → R) (p : nat) : R :=
  if Nat.even p then f (p / 2)%nat
  else 0.5 * (f (p / 2)%nat + f (p / 2 + 1)%nat).

(** The canonical-restriction stencil at the coarse node [q]. *)
Definition stencil (w : vec) (q : nat) : R :=
  0.5 * nth (2 * q - 1) w 0 + nth (2 * q) w 0 + 0.5 * nth (2 * q + 1) w 0.

(** Sum of [f 0 .. f (n-1)]. *)
Fixpoint sum_below (f : nat → R) (n : nat) : R :=
  match n with
  | O => 0
  | S n' => sum_below f n' + f n'
  end.

(** Modelled from the spec: the discrete inner product (duality pairing) of
    two nodal vectors, which no source file defines: the sum of the
    products of their entries. *)
Definition dot (a b : vec) : R := np_sum (zip_with Rmult a b).

(** The maximum of the three fine values around the coarse node [q]. *)
Definition max3 (v : vec) (q : nat) : R :=
  Rmax (Rmax (nth (2 * q - 1) v 0) (nth (2 * q) v 0)) (nth (2 * q + 1) v 0).

(** The residual stencil of [residual] at the interior node [p]. *)
Definition residual_at (h : R) (u : vec) (f : R → R) (p : nat) : R :=
  (h / 2) * (f ((INR p - 0.5) * h) + f ((INR p + 0.5) * h))
  - (1 / h) * (2 * nth p u 0 - nth (p - 1) u 0 - nth (p + 1) u 0).




(** The trapezoid-rule norm of the nodal values [u] for spacing [h]: half
    weights at the first and last node, full weights in between. *)
Definition trapezoid_norm (h : R) (u : vec) : R :=
  sqrt (h * (0.5 * nth 0 u 0 * nth 0 u 0
             + sum_below (fun i => nth (S i) u 0 * nth (S i) u 0)
                 (length u - 2)
             + 0.5 * nth (length u - 1) u 0 * nth (length u - 1) u 0)).

(* ----------------------------------------------------------------- *)
(** ** The constraint-decomposition cycle *)

(** Reference formula, written after the words of the spec: the obstacle of
    level [i] is the defect obstacle of the level minus the prolongation of
    the restricted one, halved when up-sweeps are configured. *)
Definition local_obstacle (M : SubsetDecomp.MeshLevel) (up : Z)
    (chi_fine chi_coarse : vec) : result vec :=
  pc ← SubsetDecomp.P M chi_coarse;
  d ← np_sub chi_fine pc;
  Ok (if (0 <? up)%Z then np_muls d 0.5 else d).

(** Calls made for level [i] with the obstacle [phi]. *)
Definition calls_for (i : nat) (phi : vec) (new : list SubsetDecomp.call)
  : Prop :=
  Forall (fun c => SubsetDecomp.c_level c = i ∧ SubsetDecomp.c_phi c = phi)
    new.

(** What a finished cycle leaves for level [i]: the restricted defect
    obstacle is stored on level [i-1], and every smoother call made for level
    [i] received the local obstacle. *)
Definition level_ok (up : Z) (i : nat) (hier : list SubsetDecomp.MeshObj)
    (new : list SubsetDecomp.call) : Prop :=
  ∃ Mi Mc chi_i chi_c phi,
    hier !! i = Some {| SubsetDecomp.cls := Mi;
                        SubsetDecomp.chi := Some chi_i |}
    ∧ hier !! (i - 1)%nat = Some {| SubsetDecomp.cls := Mc;
                                    SubsetDecomp.chi := Some chi_c |}
    ∧ SubsetDecomp.mR Mi chi_i = Ok chi_c
    ∧ local_obstacle Mi up chi_i chi_c = Ok phi
    ∧ (∀ c, c ∈ new → SubsetDecomp.c_level c = i →
         SubsetDecomp.c_phi c = phi)
    ∧ (∃ c, c ∈ new ∧ SubsetDecomp.c_level c = i).

(** Transfers between a mesh [M] and its coarser neighbour [Mc] in the
    convention of [m+2] nodes: each method accepts the vectors of its source
    level and returns a vector of its target level. *)
Record transfer_ok (M Mc : SubsetDecomp.MeshLevel) : Prop := {
  mR_ok : ∀ v : vec, length v = (SubsetDecomp.m M + 2)%nat →
    ∃ y : vec, SubsetDecomp.mR M v = Ok y
      ∧ length y = (SubsetDecomp.m Mc + 2)%nat;
  cR_ok : ∀ v : vec, length v = (SubsetDecomp.m M + 2)%nat →
    ∃ y : vec, SubsetDecomp.cR M v = Ok y
      ∧ length y = (SubsetDecomp.m Mc + 2)%nat;
  P_ok : ∀ v : vec, length v = (SubsetDecomp.m Mc + 2)%nat →
    ∃ y : vec, SubsetDecomp.P M v = Ok y
      ∧ length y = (SubsetDecomp.m M + 2)%nat
}.

(** A hierarchy of mesh classes, coarsest first, each level a refinement
    of the one before. *)
Definition well_formed (classes : list SubsetDecomp.MeshLevel) : Prop :=
  (∀ i M, classes !! i = Some M →
     length (SubsetDecomp.zeros M) = (SubsetDecomp.m M + 2)%nat)
  ∧ (∀ i M Mc, classes !! S i = Some M → classes !! i = Some Mc →
       transfer_ok M Mc).

(** The levels [0 .. n-1] of [src/py/1D/meshlevel.py] as a hierarchy. *)
Definition mesh1d_classes (n : nat) : list SubsetDecomp.MeshLevel :=
  (fun j => SubsetDecomp.of_mesh1d (Mesh1D.init j)) <$> seq 0 n.

(** A two-level hierarchy with the defect obstacle set on the fine level,
    and collaborators that leave [v] and the residual as they are. *)
Definition demo_state : SubsetDecomp.state :=
  {| SubsetDecomp.hierarchy :=
       [ {| SubsetDecomp.cls := SubsetDecomp.of_mesh1d (Mesh1D.init 0);
            SubsetDecomp.chi := None |};
         {| SubsetDecomp.cls := SubsetDecomp.of_mesh1d (Mesh1D.init 1);
            SubsetDecomp.chi := Some [0; -1; -2; -1; 0] |} ];
     SubsetDecomp.calls := [] |}.

Definition demo_pgssweep (M : SubsetDecomp.MeshLevel) (v F phi : vec)
    (forward : bool) : vec * Z := (v, 0%Z).

Definition demo_residual (M : SubsetDecomp.MeshLevel) (v F : vec) : vec := F.

(* ----------------------------------------------------------------- *)
(** ** The FAS V-cycle as a function on vectors *)

Module CycleSpec.

Import Cycles.

Section Reference.

Variable self : FAS.

Definition mesh (k : nat) : result MeshLevel :=
  match meshes self !! k with
  | Some M => Ok M
  | None => Err IndexError
  end.

(** Pointwise relaxation at the nodes [ps], in that order. *)
Definition relax_points (M : MeshLevel) (ell : vec) (ps : list nat) (w : vec)
  : vec :=
  foldl (fun w p => ngspoint (prob self) (h M) w ell p (niters self)) w ps.

(** One NGS sweep on level [k], forward or backward. *)
Definition sweep (k : nat) (forward : bool) (ell w : vec) : result vec :=
  M ← mesh k;
  Ok (relax_points M ell
        (if forward then range 1 (m M) else rev (range 1 (m M))) w).

(** [n] sweeps in a row. *)
Fixpoint sweep_n (n : nat) (k : nat) (forward : bool) (ell w : vec)
  : result vec :=
  match n with
  | O => Ok w
  | S n' => w' ← sweep k forward ell w; sweep_n n' k forward ell w'
  end.

(** Reference function, written after the words of the spec (the state
    machine of the FAS cycle engine) on plain vectors: the iterate a V-cycle
    on level [k] returns for the iterate [u] and the right-hand side
    [ell]. *)
Fixpoint fas_vcycle (k : nat) (u ell : vec) : result vec :=
  if decide (k = kcoarse self) then
    sweep_n (Z.to_nat (coarse self)) k true ell u
  else
    match k with
    | O => Err (AssertionError no_message)
    | S k' =>
        if (kcoarse self <? k)%nat then
          u1 ← sweep_n (Z.to_nat (down self)) k true ell u;
          M ← mesh k;
          Fu ← F (prob self) (h M) u1;
          r ← np_sub ell Fu;
          Ru ← Rfw M u1;
          cr ← CR M r;
          Mc ← mesh k';
          FRu ← F (prob self) (h Mc) Ru;
          cell ← np_add cr FRu;
          uc ← fas_vcycle k' Ru cell;
          du ← np_sub uc Ru;
          pdu ← P M du;
          u2 ← np_iadd u1 pdu;
          sweep_n (Z.to_nat (up self)) k false ell u2
        else Err (AssertionError no_message)
    end.

(** The [ngssweep] calls of one V-cycle on level [k], in order. *)
Fixpoint sweep_log (k : nat) : list (nat * bool) :=
  if decide (k = kcoarse self) then
    replicate (Z.to_nat (coarse self)) (k, true)
  else
    match k with
    | O => []
    | S k' =>
        replicate (Z.to_nat (down self)) (k, true)
        ++ sweep_log k'
        ++ replicate (Z.to_nat (up self)) (k, false)
    end.

(** What one V-cycle on level [k] adds to [wu[i]]. *)
Fixpoint wu_gain (k i : nat) : R :=
  if decide (k = kcoarse self) then
    if decide (i = k) then IZR (coarse self) else 0
  else
    match k with
    | O => 0
    | S k' =>
        (if decide (i = k) then IZR (down self) + IZR (up self) else 0)
        + wu_gain k' i
    end.

End Reference.

(** Number of recorded sweeps on level [k]. *)
Definition count_sweeps (k : nat) (log : list (nat * bool)) : nat :=
  length (filter (fun e => e.1 = k) log).

End CycleSpec.

(** The store [s'] is [s] with the array [u] overwritten by [u'] and,
    possibly, new arrays added. *)
Definition updates_only (u : Cycles.loc) (u' : vec) (s s' : list vec)
  : Prop :=
  (length s ≤ length s')%nat
  ∧ s' !! u = Some u'
  ∧ ∀ x, (x < length s)%nat → x ≠ u → s' !! x = s !! x.

(** What a returned V-cycle on level [k] has done to the state. *)
Definition sound_at (self : Cycles.FAS) (k : nat) : Prop :=
  ∀ u ell st st' (u0 l : vec),
  u ≠ ell → Cycles.store st !! u = Some u0 →
  Cycles.store st !! ell = Some l →
  Cycles.vcycle self k u ell st = Ok (tt, st') →
  ∃ u' : vec, CycleSpec.fas_vcycle self k u0 l = Ok u'
    ∧ updates_only u u' (Cycles.store st) (Cycles.store st')
    ∧ Cycles.sweeps st' = Cycles.sweeps st ++ CycleSpec.sweep_log self k
    ∧ length (Cycles.wu st') = length (Cycles.wu st)
    ∧ ∀ i, nth i (Cycles.wu st') 0
           = nth i (Cycles.wu st) 0 + CycleSpec.wu_gain self k i.

(** A two-level FAS object on the meshes of [src/py/meshlevel.py] for the
    operator [F(u) = u], whose pointwise relaxation sets [w[p] = ell[p]];
    one coarse sweep, one pre-smoothing sweep, no post-smoothing. *)
Definition demo_problem : Cycles.Problem :=
  {| Cycles.F := fun h u => Ok u;
     Cycles.ngspoint := fun h w ell p niters => <[p := nth p ell 0]> w |}.

Definition demo_fas : Cycles.FAS :=
  {| Cycles.meshes := [Cycles.of_pymesh (PyMesh.init 0);
                       Cycles.of_pymesh (PyMesh.init 1)];
     Cycles.prob := demo_problem;
     Cycles.kcoarse := 0;
     Cycles.kfine := 1;
     Cycles.coarse := 1;
     Cycles.down := 1;
     Cycles.up := 0;
     Cycles.niters := 2 |}.

Definition demo_arrays : list vec := [[0; 0; 0; 0; 0]; [0; 1; 2; 1; 0]].

(* ----------------------------------------------------------------- *)
(** ** The order of the smoother calls *)

(** Level and direction of a recorded [pgssweep] call. *)
Definition sweep_signature (c : SubsetDecomp.call) : nat * bool :=
  (SubsetDecomp.c_level c, SubsetDecomp.c_forward c).

(** The sum of the counts of recorded [pgssweep] calls. *)
Definition total_count (new : list SubsetDecomp.call) : Z :=
  foldr (fun c s => (SubsetDecomp.c_count c + s)%Z) 0%Z new.

(** The recorded count is a value [pgssweep] returned for the recorded
    obstacle and direction. *)
Definition reported
    (pgssweep : SubsetDecomp.MeshLevel → vec → vec → vec → bool → vec * Z)
    (c : SubsetDecomp.call) : Prop :=
  ∃ M v F,
    SubsetDecomp.c_count c
    = (pgssweep M v F (SubsetDecomp.c_phi c) (SubsetDecomp.c_forward c)).2.

(** The sweeps of one [_smoother] call with [s] passes on level [i]: one
    sweep per pass, followed by one in the opposite direction when
    [symmetric] is set. *)
Definition smoother_schedule (i : nat) (s : Z) (forward symmetric : bool)
  : list (nat * bool) :=
  concat (replicate (Z.to_nat s)
            (if symmetric then [(i, forward); (i, negb forward)]
             else [(i, forward)])).

(** The sweeps of one cycle from level [j]: down-sweeps on the way to the
    coarsest level, the coarse sweeps, up-sweeps on the way back. *)
Fixpoint cycle_schedule (j : nat) (down up coarse : Z) (symmetric : bool)
  : list (nat * bool) :=
  match j with
  | O => smoother_schedule 0 coarse true symmetric
  | S j' =>
      smoother_schedule j down true symmetric
      ++ cycle_schedule j' down up coarse symmetric
      ++ smoother_schedule j up true symmetric
  end.

(** A smoother that leaves [v] as it is and reports one infeasible point
    on every sweep. *)
Definition demo_pgssweep_one (M : SubsetDecomp.MeshLevel) (v F phi : vec)
    (forward : bool) : vec * Z := (v, 1%Z).

(** Collaborators of the F-cycle for [demo_fas]: the zero vector and the
    nodes of [src/py/meshlevel.py], and a manufactured solution that
    returns the nodes twice. *)
Definition demo_zeros (M : Cycles.MeshLevel) : vec :=
  np_zeros (Cycles.m M + 1).

Definition demo_xx (M : Cycles.MeshLevel) : vec :=
  np_linspace 0 1 (Cycles.m M + 1).

Definition demo_mms (x : vec) : result (vec * vec) := Ok (x, x).

(** The default options of [obs1.py], and the same with [-random]. *)
Definition demo_args : Obs1.Args :=
  {| Obs1.problem := "parabola"; Obs1.random := false;
     Obs1.randommag := 0.2; Obs1.fscale := 1 |}.

Definition demo_args_random : Obs1.Args :=
  {| Obs1.problem := "parabola"; Obs1.random := true;
     Obs1.randommag := 0.2; Obs1.fscale := 1 |}.

(* ----------------------------------------------------------------- *)
(** ** The report of a viewing cycle *)

(** The outcome [r] of a computation on the hierarchy, together with the
    text [t] it wrote on a console that held [o] before. *)
Definition writing {A : Type} (r : result (A * SubsetDecomp.state))
    (o t : string) : result (A * SubsetDecomp.vstate) :=
  match r with
  | Ok (a, b) =>
      Ok (a, {| SubsetDecomp.base := b; SubsetDecomp.out := (o ++ t)%string |})
  | Err e => Err e
  end.

(** The lines of one cycle from level [j], [indent] being [levels - 1]: the
    line of each level on the way down, the line of the coarsest level, and
    on the way up a line per level only when there are up-sweeps. *)
Fixpoint view_report (classes : list SubsetDecomp.MeshLevel) (indent : Z)
    (j : nat) (down up coarse : Z) : string :=
  let mj := from_option SubsetDecomp.m 0%nat (classes !! j) in
  match j with
  | O => SubsetDecomp._coarsereport indent mj coarse
  | S j' =>
      (SubsetDecomp._levelreport indent j mj down
       ++ view_report classes indent j' down up coarse
       ++ (if (0 <? up)%Z then SubsetDecomp._levelreport indent j mj up
           else EmptyString))%string
  end.

(* ================================================================= *)
(** * Proofs *)

(* ================================================================= *)
(** ** Arrays: indexing, updates and slices *)

Lemma bind_Ok {A B} (a : A) (f : A → result B) : (Ok a ≫= f) = f a.
Proof. reflexivity. Qed.

Lemma bind_Err {A B} (e : exn) (f : A → result B) : (Err e ≫= f) = Err e.
Proof. reflexivity. Qed.

Lemma norm_index_nat n i : (i < n)%nat → norm_index n (Z.of_nat i) = Ok i.
Proof.
  intros Hi. unfold norm_index.
  destruct (Z.leb_spec 0 (Z.of_nat i)); [|lia].
  destruct (Z.ltb_spec (Z.of_nat i) (Z.of_nat n)); [|lia].
  by rewrite Nat2Z.id.
Qed.

Lemma norm_index_neg n c :
  (0 < c ≤ n)%nat → norm_index n (- Z.of_nat c) = Ok (n - c)%nat.
Proof.
  intros Hc. unfold norm_index.
  destruct (Z.leb_spec 0 (- Z.of_nat c)); [lia|].
  destruct (Z.leb_spec (- Z.of_nat n) (- Z.of_nat c)); [|lia].
  f_equal. lia.
Qed.

Lemma lookup_nth (v : vec) i : (i < length v)%nat → v !! i = Some (nth i v 0).
Proof.
  intros Hi. destruct (lookup_lt_is_Some_2 v i Hi) as [x Hx].
  by rewrite Hx, (nth_lookup_Some _ _ _ _ Hx).
Qed.

Lemma getitem_nat (v : vec) i :
  (i < length v)%nat → getitem v (Z.of_nat i) = Ok (nth i v 0).
Proof.
  intros Hi. unfold getitem. rewrite norm_index_nat, bind_Ok by done.
  by rewrite lookup_nth.
Qed.

Lemma getitem_neg (v : vec) c :
  (0 < c ≤ length v)%nat →
  getitem v (- Z.of_nat c) = Ok (nth (length v - c) v 0).
Proof.
  intros Hc. unfold getitem. rewrite norm_index_neg, bind_Ok by done.
  rewrite lookup_nth by lia. done.
Qed.

Lemma setitem_nat (y : vec) i x :
  (i < length y)%nat → setitem y (Z.of_nat i) x = Ok (<[i:=x]> y).
Proof. intros Hi. unfold setitem. by rewrite norm_index_nat. Qed.

Lemma setitem_neg (y : vec) c x :
  (0 < c ≤ length y)%nat →
  setitem y (- Z.of_nat c) x = Ok (<[(length y - c)%nat:=x]> y).
Proof. intros Hc. unfold setitem. by rewrite norm_index_neg. Qed.

(** The literal indices of the sources. *)
Lemma getitem_0 (v : vec) : (0 < length v)%nat → getitem v 0 = Ok (nth 0 v 0).
Proof. apply (getitem_nat v 0). Qed.

Lemma getitem_1 (v : vec) : (1 < length v)%nat → getitem v 1 = Ok (nth 1 v 0).
Proof. apply (getitem_nat v 1). Qed.

Lemma getitem_m1 (v : vec) :
  (1 ≤ length v)%nat → getitem v (-1) = Ok (nth (length v - 1) v 0).
Proof. intros. apply (getitem_neg v 1). lia. Qed.

Lemma getitem_m2 (v : vec) :
  (2 ≤ length v)%nat → getitem v (-2) = Ok (nth (length v - 2) v 0).
Proof. intros. apply (getitem_neg v 2). lia. Qed.

Lemma setitem_0 (y : vec) x :
  (0 < length y)%nat → setitem y 0 x = Ok (<[0%nat:=x]> y).
Proof. apply (setitem_nat y 0). Qed.

Lemma setitem_1 (y : vec) x :
  (1 < length y)%nat → setitem y 1 x = Ok (<[1%nat:=x]> y).
Proof. apply (setitem_nat y 1). Qed.

Lemma setitem_m1 (y : vec) x :
  (1 ≤ length y)%nat → setitem y (-1) x = Ok (<[(length y - 1)%nat:=x]> y).
Proof. intros. apply (setitem_neg y 1). lia. Qed.

Lemma setitem_m2 (y : vec) x :
  (2 ≤ length y)%nat → setitem y (-2) x = Ok (<[(length y - 2)%nat:=x]> y).
Proof. intros. apply (setitem_neg y 2). lia. Qed.

Lemma setitem_m3 (y : vec) x :
  (3 ≤ length y)%nat → setitem y (-3) x = Ok (<[(length y - 3)%nat:=x]> y).
Proof. intros. apply (setitem_neg y 3). lia. Qed.

Lemma nth_insert (y : vec) i x p :
  nth p (<[i:=x]> y) 0 =
  if decide (p = i ∧ i < length y)%nat then x else nth p y 0.
Proof.
  rewrite !nth_lookup. case_decide as Hd.
  - destruct Hd as [-> Hi]. by rewrite list_lookup_insert_eq.
  - destruct (decide (i = p)) as [->|Hne].
    + rewrite list_insert_ge; [done|]. lia.
    + by rewrite list_lookup_insert_ne.
Qed.

Lemma length_np_zeros n : length (np_zeros n) = n.
Proof. apply length_replicate. Qed.

Lemma nth_np_zeros n p : nth p (np_zeros n) 0 = 0.
Proof.
  unfold np_zeros. rewrite nth_lookup.
  destruct (decide (p < n)%nat).
  - by rewrite lookup_replicate_2.
  - rewrite lookup_ge_None_2; [done|]. rewrite length_replicate. lia.
Qed.

Lemma vec_ext (a b : vec) :
  length a = length b → (∀ p, nth p a 0 = nth p b 0) → a = b.
Proof. intros Hl Hn. apply (nth_ext a b 0 0 Hl). intros. apply Hn. Qed.

Lemma slice_bound_nat n i : (i ≤ n)%nat → slice_bound n (Z.of_nat i) = i.
Proof.
  intros Hi. unfold slice_bound.
  destruct (Z.ltb_spec (Z.of_nat i) 0); lia.
Qed.

Lemma slice_bound_neg n c :
  (0 < c ≤ n)%nat → slice_bound n (- Z.of_nat c) = (n - c)%nat.
Proof.
  intros Hc. unfold slice_bound.
  destruct (Z.ltb_spec (- Z.of_nat c) 0); lia.
Qed.

Lemma drop_nth (v : vec) i :
  (i < length v)%nat → drop i v = nth i v 0 :: drop (S i) v.
Proof. intros Hi. apply drop_S. by apply lookup_nth. Qed.

Lemma slice_head_two (v : vec) :
  (2 ≤ length v)%nat → slice v 0 2 = [nth 0 v 0; nth 1 v 0].
Proof.
  intros Hl. unfold slice.
  rewrite (slice_bound_nat _ 0), (slice_bound_nat _ 2) by lia.
  cbn [Nat.sub]. rewrite (drop_nth v 0), (drop_nth v 1) by lia. done.
Qed.

Lemma slice_last_two (v : vec) :
  (2 ≤ length v)%nat →
  slice_from v (-2) = [nth (length v - 2) v 0; nth (length v - 1) v 0].
Proof.
  intros Hl. unfold slice_from.
  rewrite (slice_bound_neg _ 2) by lia.
  rewrite (drop_nth v (length v - 2)) by lia.
  replace (S (length v - 2)) with (length v - 1)%nat by lia.
  rewrite (drop_nth v (length v - 1)) by lia.
  rewrite drop_ge by lia. done.
Qed.

Lemma slice_three (v : vec) i :
  (i + 3 ≤ length v)%nat →
  slice v (Z.of_nat i) (Z.of_nat (i + 3)) =
  [nth i v 0; nth (i + 1) v 0; nth (i + 2) v 0].
Proof.
  intros Hi. unfold slice.
  rewrite !slice_bound_nat by lia.
  replace (i + 3 - i)%nat with 3%nat by lia.
  rewrite (drop_nth v i), (drop_nth v (S i)), (drop_nth v (S (S i))) by lia.
  simpl. repeat f_equal; lia.
Qed.

(** The builtin [max] of three items is the real maximum. *)
Lemma py_max_three a b c : py_max [a; b; c] = Ok (Rmax (Rmax a b) c).
Proof.
  unfold py_max. simpl. f_equal. unfold Rmax.
  repeat (destruct (Rlt_dec _ _)); repeat (destruct (Rle_dec _ _)); lra.
Qed.

Lemma py_max_two a b : py_max [a; b] = Ok (Rmax a b).
Proof.
  unfold py_max. simpl. f_equal. unfold Rmax.
  destruct (Rlt_dec _ _); destruct (Rle_dec _ _); lra.
Qed.

(* ================================================================= *)
(** ** Loops that fill an array *)

Lemma even_double a : Nat.even (2 * a) = true.
Proof. rewrite Nat.even_spec. by exists a. Qed.

Lemma even_double_S a : Nat.even (2 * a + 1) = false.
Proof.
  rewrite <- Nat.negb_odd. apply negb_false_iff.
  rewrite Nat.odd_spec. by exists a.
Qed.

Lemma div2_double a : (2 * a / 2 = a)%nat.
Proof. rewrite Nat.mul_comm. apply Nat.div_mul. lia. Qed.

Lemma div2_double_S a : ((2 * a + 1) / 2 = a)%nat.
Proof. symmetry. apply (Nat.div_unique _ 2 a 1); lia. Qed.

(** A loop whose pass [q] stores [G q] at index [q]. *)
Lemma for_in_set (body : nat → vec → result vec) (G : nat → R) n :
  ∀ a L (y : vec),
  length y = L → (a + n ≤ L)%nat →
  (∀ q (z : vec), (a ≤ q < a + n)%nat → length z = L →
     body q z = Ok (<[q:=G q]> z)) →
  ∃ y' : vec, for_in (seq a n) body y = Ok y' ∧ length y' = L ∧
    ∀ p, nth p y' 0 = if decide (a ≤ p < a + n)%nat then G p else nth p y 0.
Proof.
  induction n as [|n IH]; intros a L y Hy Hn Hb.
  - exists y. split; [done|]. split; [done|]. intros p.
    case_decide; [lia|done].
  - cbn [seq for_in]. rewrite Hb by (done || lia). rewrite bind_Ok.
    destruct (IH (S a) L (<[a:=G a]> y)) as (y' & Hr & Hl & Hp).
    + by rewrite length_insert.
    + lia.
    + intros q z Hq Hz. apply Hb; [lia|done].
    + exists y'. split; [done|]. split; [done|]. intros p.
      rewrite Hp, nth_insert. repeat case_decide; try lia; try done.
      * by replace p with a by lia.
Qed.

(** A loop whose pass [q] stores [G q] at [2q] and [H q] at [2q+1]. *)
Lemma for_in_set_pair (body : nat → vec → result vec) (G H : nat → R) n :
  ∀ a L (y : vec),
  length y = L → (2 * (a + n) ≤ L)%nat →
  (∀ q (z : vec), (a ≤ q < a + n)%nat → length z = L →
     body q z = Ok (<[(2 * q + 1)%nat:=H q]> (<[(2 * q)%nat:=G q]> z))) →
  ∃ y' : vec, for_in (seq a n) body y = Ok y' ∧ length y' = L ∧
    ∀ p, nth p y' 0 =
      if decide (2 * a ≤ p < 2 * (a + n))%nat then
        if Nat.even p then G (p / 2)%nat else H (p / 2)%nat
      else nth p y 0.
Proof.
  induction n as [|n IH]; intros a L y Hy Hn Hb.
  - exists y. split; [done|]. split; [done|]. intros p.
    case_decide; [lia|done].
  - cbn [seq for_in]. rewrite Hb by (done || lia). rewrite bind_Ok.
    destruct (IH (S a) L (<[(2*a+1)%nat:=H a]> (<[(2*a)%nat:=G a]> y)))
      as (y' & Hr & Hl & Hp).
    + by rewrite !length_insert.
    + lia.
    + intros q z Hq Hz. apply Hb; [lia|done].
    + exists y'. split; [done|]. split; [done|]. intros p.
      rewrite Hp, !nth_insert, !length_insert.
      repeat case_decide; try lia; try done.
      * assert (p = 2 * a + 1)%nat as -> by lia.
        by rewrite even_double_S, div2_double_S.
      * assert (p = 2 * a)%nat as -> by lia.
        by rewrite even_double, div2_double.
Qed.

(** Symbolic execution of straight-line array code with in-range indices. *)
Ltac solve_len :=
  rewrite ?length_insert, ?length_np_zeros; (done || lia).

Ltac run_step :=
  first [ rewrite bind_Ok
        | rewrite getitem_nat by solve_len
        | rewrite setitem_nat by solve_len
        | rewrite getitem_0 by solve_len
        | rewrite getitem_1 by solve_len
        | rewrite setitem_0 by solve_len
        | rewrite setitem_1 by solve_len
        | rewrite getitem_m1 by solve_len
        | rewrite getitem_m2 by solve_len
        | rewrite setitem_m1 by solve_len
        | rewrite setitem_m2 by solve_len
        | rewrite setitem_m3 by solve_len ].

Ltac run := cbv beta; repeat run_step.

(* ================================================================= *)
(** ** Prolongation *)

Lemma pow2_pos k : (1 ≤ 2 ^ k)%nat.
Proof. induction k; simpl; lia. Qed.

Lemma pow2_S k : (2 ^ (k + 1) = 2 * 2 ^ k)%nat.
Proof. rewrite Nat.add_1_r. reflexivity. Qed.

Lemma pow2_ge2 k : (0 < k)%nat → (2 ≤ 2 ^ k)%nat.
Proof.
  intros Hk. destruct k as [|k]; [lia|].
  pose proof (pow2_pos k). rewrite Nat.pow_succ_r'. lia.
Qed.

Lemma interp_even f q : interp f (2 * q) = f q.
Proof. unfold interp. by rewrite even_double, div2_double. Qed.

Lemma interp_odd f q : interp f (2 * q + 1) = 0.5 * (f q + f (q + 1)%nat).
Proof. unfold interp. by rewrite even_double_S, div2_double_S. Qed.

Lemma parity_cases p : (∃ q, p = 2 * q)%nat ∨ (∃ q, p = 2 * q + 1)%nat.
Proof.
  destruct (Nat.Even_or_Odd p) as [[q ->]|[q ->]]; [left|right]; by exists q.
Qed.

(** The head of the prolongation and its loop, shared by [prolong] and
    [cP]: every fine node left of [2(n-1)] is interpolated. *)
Lemma prolong_loop n (v : vec) :
  (2 ≤ n)%nat → length v = (n + 1)%nat →
  ∃ y : vec,
    for_in (range 1 (n - 1)) (fun q y =>
        vq ← getitem v (Z.of_nat q);
        y ← setitem y (Z.of_nat (2 * q)) vq;
        vq ← getitem v (Z.of_nat q);
        vq1 ← getitem v (Z.of_nat (q + 1));
        setitem y (Z.of_nat (2 * q + 1)) (0.5 * (vq + vq1)))
      (<[1%nat:=0.5 * nth 1 v 0]> (np_zeros (2 * n + 1))) = Ok y
    ∧ length y = (2 * n + 1)%nat
    ∧ ∀ p, nth p y 0 =
        if decide (p < 2 * (n - 1))%nat then interp (interior n v) p else 0.
Proof.
  intros Hn Hv.
  unfold range.
  edestruct (for_in_set_pair
    (fun q y =>
         vq ← getitem v (Z.of_nat q);
         y ← setitem y (Z.of_nat (2 * q)) vq;
         vq ← getitem v (Z.of_nat q);
         vq1 ← getitem v (Z.of_nat (q + 1));
         setitem y (Z.of_nat (2 * q + 1)) (0.5 * (vq + vq1)))
    (fun q => nth q v 0) (fun q => 0.5 * (nth q v 0 + nth (q + 1) v 0))
    (n - 1 - 1) 1%nat (2 * n + 1)%nat
    (<[1%nat:=0.5 * nth 1 v 0]> (np_zeros (2 * n + 1))))
    as (y & Hr & Hl & Hp).
  - by rewrite length_insert, length_np_zeros.
  - lia.
  - intros q z Hq Hz. run. done.
  - exists y. split; [exact Hr|]. split; [exact Hl|]. intros p.
    rewrite Hp, nth_insert, nth_np_zeros, length_np_zeros.
    destruct (parity_cases p) as [[q ->]|[q ->]].
    + rewrite even_double, div2_double, interp_even. unfold interior.
      repeat case_decide; try lia; try done.
    + rewrite even_double_S, div2_double_S, interp_odd. unfold interior.
      repeat case_decide; try lia; try done; try lra.
      assert (q = 0)%nat as -> by lia. simpl. lra.
Qed.

(** Closed form of [prolong] of [src/py/meshlevel.py]. *)
Lemma prolong_closed_form k (v : vec) :
  (0 < k)%nat → length v = (2 ^ k + 1)%nat →
  ∃ y : vec, PyMesh.prolong (PyMesh.init k) v = Ok y
    ∧ length y = (2 ^ (k + 1) + 1)%nat
    ∧ ∀ p, nth p y 0 = interp (interior (2 ^ k) v) p.
Proof.
  intros Hk Hv. pose proof (pow2_ge2 k Hk) as Hn.
  unfold PyMesh.prolong, PyMesh.zeros. cbn [PyMesh.k PyMesh.m PyMesh.mcoarser PyMesh.init].
  destruct (Nat.ltb_spec 0 k) as [_|]; [|lia].
  cbn [py_assert need_int]. rewrite !bind_Ok.
  rewrite Hv, Nat.eqb_refl. cbn [py_assert]. rewrite bind_Ok.
  rewrite pow2_S.
  destruct (prolong_loop (2 ^ k) v Hn Hv) as (y & Hr & Hl & Hp).
  set (n := (2 ^ k)%nat) in *.
  run. rewrite Hr. run.
  eexists. split; [reflexivity|]. split; [solve_len|].
  intros p. rewrite !nth_insert, !length_insert, Hl, Hp.
  destruct (parity_cases p) as [[q ->]|[q ->]].
  - rewrite interp_even. unfold interior.
    repeat case_decide; try lia; try done.
    + f_equal. lia.
  - rewrite interp_odd. unfold interior.
    repeat case_decide; try lia; try done; try lra.
    + replace q with (n - 1)%nat by lia. lra.
Qed.

Lemma mesh1d_sizes j :
  (0 < j)%nat →
  (2 ^ (j + 1) - 1 + 2 = 2 * 2 ^ j + 1)%nat ∧ (2 ^ j - 1 + 2 = 2 ^ j + 1)%nat.
Proof. intros Hj. pose proof (pow2_ge2 j Hj). rewrite pow2_S. lia. Qed.

(** Closed form of [cP] of [src/py/1D/meshlevel.py]. *)
Lemma cP_closed_form j (v : vec) :
  (0 < j)%nat → length v = (2 ^ j + 1)%nat →
  ∃ y : vec, Mesh1D.cP (Mesh1D.init j) v = Ok y
    ∧ length y = (2 ^ (j + 1) + 1)%nat
    ∧ ∀ p, nth p y 0 = interp (interior (2 ^ j) v) p.
Proof.
  intros Hj Hv. pose proof (pow2_ge2 j Hj) as Hn.
  destruct (mesh1d_sizes j Hj) as [Hm Hmc].
  unfold Mesh1D.cP, Mesh1D.checklen, Mesh1D.zeros.
  cbn [Mesh1D.j Mesh1D.m Mesh1D.mcoarser Mesh1D.init].
  destruct (Nat.ltb_spec 0 j) as [_|]; [|lia].
  cbn [py_assert need_int]. rewrite !bind_Ok.
  rewrite Hmc, Hm, Hv, Nat.eqb_refl. cbn [py_assert]. rewrite bind_Ok.
  rewrite pow2_S.
  destruct (prolong_loop (2 ^ j) v Hn Hv) as (y & Hr & Hl & Hp).
  set (n := (2 ^ j)%nat) in *.
  replace (n + 1 - 2)%nat with (n - 1)%nat by lia.
  run. rewrite Hr. run.
  eexists. split; [reflexivity|]. split; [solve_len|].
  intros p. rewrite !nth_insert, !length_insert, Hl, Hv, Hp.
  destruct (parity_cases p) as [[q ->]|[q ->]].
  - rewrite interp_even. unfold interior.
    repeat case_decide; try lia; try done.
    + f_equal. lia.
  - rewrite interp_odd. unfold interior.
    repeat case_decide; try lia; try done; try lra.
    + replace q with (n - 1)%nat by lia.
      replace (n + 1 - 2)%nat with (n - 1)%nat by lia. lra.
Qed.

(* ================================================================= *)
(** ** Canonical restriction *)

Lemma restrict_loop n (w : vec) :
  (1 ≤ n)%nat → length w = (2 * n + 1)%nat →
  ∃ y : vec,
    for_in (range 1 n) (fun q y =>
        a ← getitem w (Z.of_nat (2 * q - 1));
        b ← getitem w (Z.of_nat (2 * q));
        c ← getitem w (Z.of_nat (2 * q + 1));
        setitem y (Z.of_nat q) (0.5 * a + b + 0.5 * c))
      (np_zeros (n + 1)) = Ok y
    ∧ length y = (n + 1)%nat
    ∧ ∀ q, nth q y 0 = if decide (0 < q < n)%nat then stencil w q else 0.
Proof.
  intros Hn Hw. unfold range.
  edestruct (for_in_set
    (fun q y =>
        a ← getitem w (Z.of_nat (2 * q - 1));
        b ← getitem w (Z.of_nat (2 * q));
        c ← getitem w (Z.of_nat (2 * q + 1));
        setitem y (Z.of_nat q) (0.5 * a + b + 0.5 * c))
    (stencil w) (n - 1) 1%nat (n + 1)%nat (np_zeros (n + 1)))
    as (y & Hr & Hl & Hp).
  - solve_len.
  - lia.
  - intros q z Hq Hz. run. done.
  - exists y. split; [exact Hr|]. split; [exact Hl|]. intros q.
    rewrite Hp, nth_np_zeros. repeat case_decide; try lia; done.
Qed.

(** Closed form of [CR] of [src/py/meshlevel.py]. *)
Lemma CR_closed_form k (w : vec) :
  (0 < k)%nat → length w = (2 ^ (k + 1) + 1)%nat →
  ∃ y : vec, PyMesh.CR (PyMesh.init k) w = Ok y
    ∧ length y = (2 ^ k + 1)%nat
    ∧ ∀ q, nth q y 0 = if decide (0 < q < 2 ^ k)%nat then stencil w q else 0.
Proof.
  intros Hk Hw. pose proof (pow2_pos k) as Hn.
  unfold PyMesh.CR.
  cbn [PyMesh.k PyMesh.m PyMesh.mcoarser PyMesh.init].
  destruct (Nat.ltb_spec 0 k) as [_|]; [|lia].
  cbn [py_assert need_int]. rewrite !bind_Ok.
  rewrite Hw, Nat.eqb_refl. cbn [py_assert]. rewrite bind_Ok.
  apply restrict_loop; [done|]. rewrite Hw, pow2_S. done.
Qed.

(** Closed form of [cR] of [src/py/1D/meshlevel.py]. *)
Lemma cR_closed_form j (w : vec) :
  (0 < j)%nat → length w = (2 ^ (j + 1) + 1)%nat →
  ∃ y : vec, Mesh1D.cR (Mesh1D.init j) w = Ok y
    ∧ length y = (2 ^ j + 1)%nat
    ∧ ∀ q, nth q y 0 = if decide (0 < q < 2 ^ j)%nat then stencil w q else 0.
Proof.
  intros Hj Hw. pose proof (pow2_ge2 j Hj) as Hn.
  destruct (mesh1d_sizes j Hj) as [Hm Hmc].
  unfold Mesh1D.cR, Mesh1D.checklen.
  cbn [Mesh1D.j Mesh1D.m Mesh1D.mcoarser Mesh1D.init].
  destruct (Nat.ltb_spec 0 j) as [_|]; [|lia].
  cbn [py_assert need_int]. rewrite !bind_Ok.
  rewrite Hm, Hw, pow2_S, Nat.eqb_refl. cbn [py_assert]. rewrite !bind_Ok.
  replace (2 ^ j - 1 + 1)%nat with (2 ^ j)%nat by lia.
  replace (2 ^ j - 1 + 2)%nat with (2 ^ j + 1)%nat by lia.
  apply restrict_loop; [lia|]. rewrite Hw, pow2_S. done.
Qed.

(* ================================================================= *)
(** ** Sums and the inner product *)

Lemma sum_below_ext f g n :
  (∀ i, (i < n)%nat → f i = g i) → sum_below f n = sum_below g n.
Proof.
  induction n as [|n IH]; intros Hfg; [done|].
  simpl. rewrite IH, Hfg by (intros; (apply Hfg || idtac); lia). done.
Qed.

Lemma sum_below_shift f n :
  sum_below f (S n) = f 0%nat + sum_below (fun i => f (S i)) n.
Proof.
  induction n as [|n IH]; [simpl; lra|].
  change (sum_below f (S (S n))) with (sum_below f (S n) + f (S n)).
  rewrite IH. simpl. lra.
Qed.

Lemma dot_sum (a b : vec) :
  length a = length b →
  dot a b = sum_below (fun i => nth i a 0 * nth i b 0) (length a).
Proof.
  revert b. induction a as [|x a IH]; intros [|y b] Hl; try done.
  change (length (x :: a)) with (S (length a)).
  rewrite sum_below_shift. unfold dot in *. simpl.
  rewrite IH by (simpl in Hl; lia). done.
Qed.

(** Summation by parts behind the adjointness of interpolation and the
    restriction stencil, for nodal values [f] that vanish at node 0. *)
Lemma interp_stencil_sum (w f : nat → R) n :
  f 0%nat = 0 →
  sum_below (fun p => w p * interp f p) (2 * n) =
  sum_below (fun q =>
      (0.5 * w (2 * q - 1)%nat + w (2 * q)%nat + 0.5 * w (2 * q + 1)%nat)
      * f q) n
  + 0.5 * f n * w (2 * n - 1)%nat.
Proof.
  intros Hf0. induction n as [|n IH].
  - simpl. rewrite Hf0. lra.
  - replace (2 * S n)%nat with (S (S (2 * n))) by lia.
    cbn [sum_below]. rewrite IH.
    replace (S (2 * n)) with (2 * n + 1)%nat by lia.
    rewrite interp_even, interp_odd.
    replace (S (S (2 * n)) - 1)%nat with (2 * n + 1)%nat by lia.
    replace (n + 1)%nat with (S n) by lia.
    destruct n as [|n].
    + simpl. rewrite Hf0. lra.
    + replace (S (2 * S n + 1) - 1)%nat with (2 * S n + 1)%nat by lia. ring.
Qed.

(** Adjointness in closed form: a fine functional [w] against the
    interpolant of [u] equals the restricted functional against [u]. *)
Lemma adjoint_closed_form n (u w r y : vec) :
  (1 ≤ n)%nat →
  length u = (n + 1)%nat → length w = (2 * n + 1)%nat →
  length r = (n + 1)%nat → length y = (2 * n + 1)%nat →
  (∀ q, nth q r 0 = if decide (0 < q < n)%nat then stencil w q else 0) →
  (∀ p, nth p y 0 = interp (interior n u) p) →
  dot r u = dot w y.
Proof.
  intros Hn Hu Hw Hr Hy Hrq Hyp.
  rewrite !dot_sum by congruence. rewrite Hr, Hw.
  replace (2 * n + 1)%nat with (S (2 * n)) by lia.
  replace (n + 1)%nat with (S n) by lia.
  cbn [sum_below].
  rewrite (sum_below_ext (fun i => nth i w 0 * nth i y 0)
             (fun p => nth p w 0 * interp (interior n u) p))
    by (intros; by rewrite Hyp).
  rewrite (interp_stencil_sum (fun p => nth p w 0) (interior n u)).
  2:{ unfold interior. case_decide; [lia|done]. }
  rewrite Hyp, Hrq, interp_even.
  unfold interior at 2 3. repeat case_decide; try lia.
  rewrite (sum_below_ext (fun i => nth i r 0 * nth i u 0) (fun q =>
      (0.5 * nth (2 * q - 1) w 0 + nth (2 * q) w 0
       + 0.5 * nth (2 * q + 1) w 0) * interior n u q)).
  - lra.
  - intros q Hq. rewrite Hrq. unfold interior, stencil.
    repeat case_decide; try lia; lra.
Qed.

(* ================================================================= *)
(** ** Monotone restriction *)

Lemma max3_upper v q :
  nth (2 * q - 1) v 0 <= max3 v q ∧ nth (2 * q) v 0 <= max3 v q
  ∧ nth (2 * q + 1) v 0 <= max3 v q.
Proof.
  unfold max3.
  pose proof (Rmax_l (nth (2 * q - 1) v 0) (nth (2 * q) v 0)).
  pose proof (Rmax_r (nth (2 * q - 1) v 0) (nth (2 * q) v 0)).
  pose proof (Rmax_l (Rmax (nth (2 * q - 1) v 0) (nth (2 * q) v 0))
                (nth (2 * q + 1) v 0)).
  pose proof (Rmax_r (Rmax (nth (2 * q - 1) v 0) (nth (2 * q) v 0))
                (nth (2 * q + 1) v 0)).
  repeat split; lra.
Qed.

Lemma py_max_window (v : vec) q :
  (0 < q)%nat → (2 * q + 2 ≤ length v)%nat →
  py_max (slice v (Z.of_nat (2 * q - 1)) (Z.of_nat (2 * q + 2)))
  = Ok (max3 v q).
Proof.
  intros Hq Hl.
  replace (2 * q + 2)%nat with (2 * q - 1 + 3)%nat by lia.
  rewrite slice_three by lia. rewrite py_max_three. unfold max3.
  replace (2 * q - 1 + 1)%nat with (2 * q)%nat by lia.
  replace (2 * q - 1 + 2)%nat with (2 * q + 1)%nat by lia. done.
Qed.

(** The interior loop of [MR] and the whole loop of [mR]. *)
Lemma max_loop a n (v y : vec) :
  (0 < a)%nat → (a + n ≤ length y)%nat → (2 * (a + n) + 1 ≤ length v)%nat →
  ∃ y' : vec,
    for_in (seq a n) (fun q y =>
        x ← py_max (slice v (Z.of_nat (2 * q - 1)) (Z.of_nat (2 * q + 2)));
        setitem y (Z.of_nat q) x) y = Ok y'
    ∧ length y' = length y
    ∧ ∀ q, nth q y' 0 =
        if decide (a ≤ q < a + n)%nat then max3 v q else nth q y 0.
Proof.
  intros Ha Hy Hv.
  apply (for_in_set _ (max3 v) n a (length y) y); [done|done|].
  intros q z Hq Hz. cbv beta.
  rewrite py_max_window by lia. run. done.
Qed.

(** Interior values of [MR] of [src/py/meshlevel.py]. *)
Lemma MR_interior k (v : vec) :
  (0 < k)%nat → length v = (2 ^ (k + 1) + 1)%nat →
  ∃ y : vec, PyMesh.MR (PyMesh.init k) v = Ok y
    ∧ length y = (2 ^ k + 1)%nat
    ∧ ∀ q, (0 < q < 2 ^ k)%nat → nth q y 0 = max3 v q.
Proof.
  intros Hk Hv. pose proof (pow2_ge2 k Hk) as Hn.
  unfold PyMesh.MR.
  cbn [PyMesh.k PyMesh.m PyMesh.mcoarser PyMesh.init].
  destruct (Nat.ltb_spec 0 k) as [_|]; [|lia].
  cbn [py_assert need_int]. rewrite !bind_Ok.
  rewrite Hv, Nat.eqb_refl. cbn [py_assert]. rewrite !bind_Ok.
  rewrite pow2_S in Hv. set (n := (2 ^ k)%nat) in *.
  rewrite slice_head_two, slice_last_two by lia.
  rewrite !py_max_two. run.
  rewrite length_insert, length_np_zeros.
  unfold range.
  destruct (max_loop 1 (n + 1 - 1 - 1) v
              (<[0%nat:=Rmax (nth 0 v 0) (nth 1 v 0)]> (np_zeros (n + 1))))
    as (y & Hr & Hl & Hp); [lia|solve_len|lia|].
  rewrite Hr. rewrite length_insert, length_np_zeros in Hl. run.
  eexists. split; [reflexivity|]. split; [solve_len|].
  intros q Hq. rewrite nth_insert, Hp.
  repeat case_decide; try lia; done.
Qed.

(** Values of [mR] of [src/py/1D/meshlevel.py]. *)
Lemma mR_closed_form j (v : vec) :
  (0 < j)%nat → length v = (2 ^ (j + 1) + 1)%nat →
  ∃ y : vec, Mesh1D.mR (Mesh1D.init j) v = Ok y
    ∧ length y = (2 ^ j + 1)%nat
    ∧ ∀ q, nth q y 0 = if decide (0 < q < 2 ^ j)%nat then max3 v q else 0.
Proof.
  intros Hj Hv. pose proof (pow2_ge2 j Hj) as Hn.
  destruct (mesh1d_sizes j Hj) as [Hm Hmc].
  unfold Mesh1D.mR, Mesh1D.checklen.
  cbn [Mesh1D.j Mesh1D.m Mesh1D.mcoarser Mesh1D.init].
  destruct (Nat.ltb_spec 0 j) as [_|]; [|lia].
  cbn [py_assert need_int]. rewrite !bind_Ok.
  rewrite Hm, Hv, pow2_S, Nat.eqb_refl. cbn [py_assert]. rewrite !bind_Ok.
  rewrite pow2_S in Hv. set (n := (2 ^ j)%nat) in *.
  unfold range.
  destruct (max_loop 1 (n - 1 + 1 - 1) v (np_zeros (n - 1 + 2)))
    as (y & Hr & Hl & Hp); [lia|solve_len|lia|].
  rewrite length_np_zeros in Hl.
  exists y. split; [exact Hr|]. split; [lia|].
  intros q. rewrite Hp, nth_np_zeros.
  repeat case_decide; try lia; done.
Qed.

Lemma pymesh_m k : PyMesh.m (PyMesh.init k) = (2 ^ (k + 1))%nat.
Proof. reflexivity. Qed.

Lemma mesh1d_m j : Mesh1D.m (Mesh1D.init j) = (2 ^ (j + 1) - 1)%nat.
Proof. reflexivity. Qed.

Lemma level_below k : (0 < k)%nat → (k - 1 + 1 = k)%nat.
Proof. lia. Qed.

(* ================================================================= *)
(** ** Properties of the transfer operators *)

(** C3.  Adjointness of the transfer operators, in exact arithmetic: for a
    level [k > 0], a vector [u] of level [k-1] and a functional [v] of level
    [k], canonical restriction and prolongation both succeed and
    [<CR v, u> = <v, prolong u>]; the same for [cR] and [cP] of the mesh
    with [m+2] nodes. *)
Theorem transfer_adjoint k (u v : vec) :
  (0 < k)%nat →
  (length u = (PyMesh.m (PyMesh.init (k - 1)) + 1)%nat →
   length v = (PyMesh.m (PyMesh.init k) + 1)%nat →
   ∃ r y : vec, PyMesh.CR (PyMesh.init k) v = Ok r
     ∧ PyMesh.prolong (PyMesh.init k) u = Ok y
     ∧ dot r u = dot v y)
  ∧
  (length u = (Mesh1D.m (Mesh1D.init (k - 1)) + 2)%nat →
   length v = (Mesh1D.m (Mesh1D.init k) + 2)%nat →
   ∃ r y : vec, Mesh1D.cR (Mesh1D.init k) v = Ok r
     ∧ Mesh1D.cP (Mesh1D.init k) u = Ok y
     ∧ dot r u = dot v y).
Proof.
  intros Hk. pose proof (pow2_ge2 k Hk) as Hn.
  rewrite !pymesh_m, !mesh1d_m, level_below by done.
  split; intros Hu Hv.
  - destruct (CR_closed_form k v Hk Hv) as (r & HCR & Hlr & Hr).
    destruct (prolong_closed_form k u Hk Hu) as (y & HP & Hly & Hy).
    exists r, y. split; [done|]. split; [done|].
    rewrite pow2_S in Hv, Hly.
    by apply (adjoint_closed_form (2 ^ k) u v r y); try lia.
  - pose proof (pow2_S k) as HS.
    assert (length u = (2 ^ k + 1)%nat) as Hu' by lia.
    assert (length v = (2 ^ (k + 1) + 1)%nat) as Hv' by lia.
    destruct (cR_closed_form k v Hk Hv') as (r & HCR & Hlr & Hr).
    destruct (cP_closed_form k u Hk Hu') as (y & HP & Hly & Hy).
    exists r, y. split; [done|]. split; [done|].
    by apply (adjoint_closed_form (2 ^ k) u v r y); try lia.
Qed.

Lemma transfer_adjoint_witness :
  (∃ r y : vec, PyMesh.CR (PyMesh.init 1) [1; 2; 3; 4; 5] = Ok r
     ∧ PyMesh.prolong (PyMesh.init 1) [7; 8; 9] = Ok y
     ∧ dot r [7; 8; 9] = dot [1; 2; 3; 4; 5] y)
  ∧
  (∃ r y : vec, Mesh1D.cR (Mesh1D.init 1) [1; 2; 3; 4; 5] = Ok r
     ∧ Mesh1D.cP (Mesh1D.init 1) [7; 8; 9] = Ok y
     ∧ dot r [7; 8; 9] = dot [1; 2; 3; 4; 5] y).
Proof.
  destruct (transfer_adjoint 1 [7; 8; 9] [1; 2; 3; 4; 5]) as [H1 H2]; [lia|].
  split; [apply H1|apply H2]; reflexivity.
Defined.

(** C8.  Prolongation never reads the boundary entries of its input: two
    coarse vectors that agree at the interior nodes have the same
    prolongation, and the result is zero at both boundary nodes; for
    [prolong] (nodes [0..m]) and for [cP] (nodes [0..m+1]). *)
Theorem prolong_ignores_boundary k (u u' : vec) :
  (0 < k)%nat →
  (length u = (PyMesh.m (PyMesh.init (k - 1)) + 1)%nat →
   length u' = (PyMesh.m (PyMesh.init (k - 1)) + 1)%nat →
   (∀ q, (0 < q < PyMesh.m (PyMesh.init (k - 1)))%nat →
      u !! q = u' !! q) →
   ∃ y : vec, PyMesh.prolong (PyMesh.init k) u = Ok y
     ∧ PyMesh.prolong (PyMesh.init k) u' = Ok y
     ∧ length y = (PyMesh.m (PyMesh.init k) + 1)%nat
     ∧ y !! 0%nat = Some 0
     ∧ y !! PyMesh.m (PyMesh.init k) = Some 0)
  ∧
  (length u = (Mesh1D.m (Mesh1D.init (k - 1)) + 2)%nat →
   length u' = (Mesh1D.m (Mesh1D.init (k - 1)) + 2)%nat →
   (∀ q, (0 < q < Mesh1D.m (Mesh1D.init (k - 1)) + 1)%nat →
      u !! q = u' !! q) →
   ∃ y : vec, Mesh1D.cP (Mesh1D.init k) u = Ok y
     ∧ Mesh1D.cP (Mesh1D.init k) u' = Ok y
     ∧ length y = (Mesh1D.m (Mesh1D.init k) + 2)%nat
     ∧ y !! 0%nat = Some 0
     ∧ y !! (Mesh1D.m (Mesh1D.init k) + 1)%nat = Some 0).
Proof.
  intros Hk. pose proof (pow2_ge2 k Hk) as Hn. pose proof (pow2_S k) as HS.
  rewrite !pymesh_m, !mesh1d_m, level_below by done.
  assert (∀ a b : vec,
    (∀ q, (0 < q < 2 ^ k)%nat → a !! q = b !! q) →
    ∀ p, interp (interior (2 ^ k) a) p = interp (interior (2 ^ k) b) p)
    as Hsame.
  { intros a b Hab p.
    assert (∀ q, interior (2 ^ k) a q = interior (2 ^ k) b q) as Hq.
    { intros q. unfold interior. case_decide; [|done].
      by rewrite !nth_lookup, Hab. }
    unfold interp. by rewrite !Hq. }
  assert (∀ a, interp (interior (2 ^ k) a) 0 = 0
             ∧ interp (interior (2 ^ k) a) (2 * 2 ^ k) = 0) as Hzero.
  { intros a. split.
    - change 0%nat with (2 * 0)%nat. rewrite interp_even.
      unfold interior. case_decide; [lia|done].
    - rewrite interp_even. unfold interior. case_decide; [lia|done]. }
  split; intros Hu Hu' Hint.
  - destruct (prolong_closed_form k u Hk Hu) as (y & HP & Hly & Hy).
    destruct (prolong_closed_form k u' Hk Hu') as (y' & HP' & Hly' & Hy').
    assert (y' = y) as ->.
    { apply vec_ext; [lia|]. intros p. rewrite Hy, Hy'.
      symmetry. by apply Hsame. }
    exists y. repeat split; try done.
    + rewrite lookup_nth by lia. by rewrite Hy, (proj1 (Hzero u)).
    + rewrite lookup_nth by lia. by rewrite Hy, HS, (proj2 (Hzero u)).
  - assert (length u = (2 ^ k + 1)%nat) as Hu1 by lia.
    assert (length u' = (2 ^ k + 1)%nat) as Hu1' by lia.
    destruct (cP_closed_form k u Hk Hu1) as (y & HP & Hly & Hy).
    destruct (cP_closed_form k u' Hk Hu1') as (y' & HP' & Hly' & Hy').
    assert (y' = y) as ->.
    { apply vec_ext; [lia|]. intros p. rewrite Hy, Hy'.
      symmetry. apply Hsame. intros q Hq. apply Hint. lia. }
    exists y. repeat split; try done.
    + lia.
    + rewrite lookup_nth by lia. by rewrite Hy, (proj1 (Hzero u)).
    + rewrite lookup_nth by lia.
      replace (2 ^ (k + 1) - 1 + 1)%nat with (2 * 2 ^ k)%nat by lia.
      by rewrite Hy, (proj2 (Hzero u)).
Qed.

Lemma prolong_ignores_boundary_witness :
  (∃ y : vec, PyMesh.prolong (PyMesh.init 1) [1; 5; 2] = Ok y
     ∧ PyMesh.prolong (PyMesh.init 1) [3; 5; 4] = Ok y
     ∧ length y = 5%nat ∧ y !! 0%nat = Some 0 ∧ y !! 4%nat = Some 0)
  ∧
  (∃ y : vec, Mesh1D.cP (Mesh1D.init 1) [1; 5; 2] = Ok y
     ∧ Mesh1D.cP (Mesh1D.init 1) [3; 5; 4] = Ok y
     ∧ length y = 5%nat ∧ y !! 0%nat = Some 0 ∧ y !! 4%nat = Some 0).
Proof.
  destruct (prolong_ignores_boundary 1 [1; 5; 2] [3; 5; 4]) as [H1 H2]; [lia|].
  split; [apply H1|apply H2]; try reflexivity.
  - intros q Hq. assert (q = 1)%nat as -> by (simpl in Hq; lia). reflexivity.
  - intros q Hq. assert (q = 1)%nat as -> by (simpl in Hq; lia). reflexivity.
Defined.

(** C4.  At every interior coarse node [q] the monotone restriction is the
    maximum of the fine values at [2q-1], [2q], [2q+1], hence at least each
    of them; for [MR] (interior [0 < q < mcoarser]) and for [mR] (interior
    [1 <= q <= mcoarser]). *)
Theorem monotone_restriction_is_max k (v : vec) q :
  (0 < k)%nat →
  (length v = (PyMesh.m (PyMesh.init k) + 1)%nat →
   (0 < q < PyMesh.m (PyMesh.init (k - 1)))%nat →
   ∃ (y : vec) (x : R), PyMesh.MR (PyMesh.init k) v = Ok y
     ∧ y !! q = Some x
     ∧ x = Rmax (Rmax (nth (2 * q - 1) v 0) (nth (2 * q) v 0))
                (nth (2 * q + 1) v 0)
     ∧ nth (2 * q - 1) v 0 <= x ∧ nth (2 * q) v 0 <= x
     ∧ nth (2 * q + 1) v 0 <= x)
  ∧
  (length v = (Mesh1D.m (Mesh1D.init k) + 2)%nat →
   (1 ≤ q ≤ Mesh1D.m (Mesh1D.init (k - 1)))%nat →
   ∃ (y : vec) (x : R), Mesh1D.mR (Mesh1D.init k) v = Ok y
     ∧ y !! q = Some x
     ∧ x = Rmax (Rmax (nth (2 * q - 1) v 0) (nth (2 * q) v 0))
                (nth (2 * q + 1) v 0)
     ∧ nth (2 * q - 1) v 0 <= x ∧ nth (2 * q) v 0 <= x
     ∧ nth (2 * q + 1) v 0 <= x).
Proof.
  intros Hk. pose proof (pow2_ge2 k Hk) as Hn. pose proof (pow2_S k) as HS.
  rewrite !pymesh_m, !mesh1d_m, level_below by done.
  split; intros Hv Hq.
  - destruct (MR_interior k v Hk Hv) as (y & HMR & Hl & Hy).
    exists y, (max3 v q). split; [done|].
    split; [rewrite lookup_nth by lia; by rewrite Hy|].
    split; [done|]. apply max3_upper.
  - assert (length v = (2 ^ (k + 1) + 1)%nat) as Hv' by lia.
    destruct (mR_closed_form k v Hk Hv') as (y & HMR & Hl & Hy).
    exists y, (max3 v q). split; [done|].
    split.
    { rewrite lookup_nth by lia. rewrite Hy. case_decide; [done|lia]. }
    split; [done|]. apply max3_upper.
Qed.

Lemma monotone_restriction_is_max_witness :
  (∃ (y : vec) (x : R), PyMesh.MR (PyMesh.init 1) [1; 7; 3; 2; 9] = Ok y
     ∧ y !! 1%nat = Some x ∧ x = Rmax (Rmax 7 3) 2
     ∧ 7 <= x ∧ 3 <= x ∧ 2 <= x)
  ∧
  (∃ (y : vec) (x : R), Mesh1D.mR (Mesh1D.init 1) [1; 7; 3; 2; 9] = Ok y
     ∧ y !! 1%nat = Some x ∧ x = Rmax (Rmax 7 3) 2
     ∧ 7 <= x ∧ 3 <= x ∧ 2 <= x).
Proof.
  destruct (monotone_restriction_is_max 1 [1; 7; 3; 2; 9] 1) as [H1 H2];
    [lia|].
  split; [apply H1|apply H2]; try reflexivity; simpl; lia.
Defined.

(* ================================================================= *)
(** ** Residuals of [src/py/meshlevel.py] *)

Lemma residual_closed_form k (u : vec) f :
  length u = (PyMesh.m (PyMesh.init k) + 1)%nat →
  ∃ r : vec, PyMesh.residual (PyMesh.init k) u f = Ok r
    ∧ length r = (PyMesh.m (PyMesh.init k) + 1)%nat
    ∧ ∀ p, nth p r 0 =
        if decide (0 < p < PyMesh.m (PyMesh.init k))%nat
        then residual_at (PyMesh.h (PyMesh.init k)) u f p else 0.
Proof.
  intros Hu. unfold PyMesh.residual, PyMesh.zeros.
  set (M := PyMesh.init k) in *. set (m := PyMesh.m M) in *.
  rewrite Hu, Nat.eqb_refl. cbn [py_assert]. rewrite bind_Ok.
  pose proof (pow2_pos (k + 1)) as Hm. change (1 ≤ m)%nat in Hm.
  unfold range.
  edestruct (for_in_set
    (fun p r =>
       let xpm := (INR p - 0.5) * PyMesh.h M in
       let xpp := (INR p + 0.5) * PyMesh.h M in
       up ← getitem u (Z.of_nat p);
       um ← getitem u (Z.of_nat (p - 1));
       un ← getitem u (Z.of_nat (p + 1));
       setitem r (Z.of_nat p)
         ((PyMesh.h M / 2) * (f xpm + f xpp)
          - (1 / PyMesh.h M) * (2 * up - um - un)))
    (residual_at (PyMesh.h M) u f) (m - 1) 1%nat (m + 1)%nat
    (np_zeros (m + 1))) as (r & Hr & Hl & Hp).
  - solve_len.
  - lia.
  - intros q z Hq Hz. cbv beta zeta. run. done.
  - exists r. split; [exact Hr|]. split; [exact Hl|]. intros p.
    rewrite Hp, nth_np_zeros. repeat case_decide; try lia; done.
Qed.

(** C10.  A vector of the wrong length makes [residual] of
    [src/py/meshlevel.py] fail with [NameError] for the name [v], raised
    while the assertion message is built, and not with the formatted
    [AssertionError] that the same length check gives in [CR]. *)
Theorem residual_wrong_length_NameError k (u : vec) f :
  length u ≠ (PyMesh.m (PyMesh.init k) + 1)%nat →
  PyMesh.residual (PyMesh.init k) u f = Err (NameError "v")
  ∧ ((0 < k)%nat →
     PyMesh.CR (PyMesh.init k) u
     = Err (AssertionError
              (PyMesh.msg_len_v (length u) (PyMesh.m (PyMesh.init k) + 1)))).
Proof.
  intros Hu. split.
  - unfold PyMesh.residual.
    destruct (Nat.eqb_spec (length u) (PyMesh.m (PyMesh.init k) + 1));
      [done|].
    reflexivity.
  - intros Hk. unfold PyMesh.CR.
    cbn [PyMesh.k PyMesh.init].
    destruct (Nat.ltb_spec 0 k) as [_|]; [|lia].
    cbn [py_assert]. rewrite bind_Ok.
    destruct (Nat.eqb_spec (length u) (PyMesh.m (PyMesh.init k) + 1));
      [done|].
    reflexivity.
Qed.

Lemma residual_wrong_length_NameError_witness :
  PyMesh.residual (PyMesh.init 1) [1; 2; 3] (fun x => x)
    = Err (NameError "v")
  ∧ PyMesh.CR (PyMesh.init 1) [1; 2; 3]
    = Err (AssertionError "input vector v is of length 3 (should be 5)").
Proof.
  destruct (residual_wrong_length_NameError 1 [1; 2; 3] (fun x => x))
    as [H1 H2]; [simpl; lia|].
  split; [exact H1|]. apply H2. lia.
Defined.

(* ================================================================= *)
(** ** Boolean masks *)









(* ================================================================= *)
(** ** The norm [l2norm] *)

Lemma slice_interior (u : vec) :
  (1 ≤ length u)%nat → slice u 1 (-1) = take (length u - 2) (drop 1 u).
Proof.
  intros Hl. unfold slice.
  rewrite (slice_bound_nat _ 1), (slice_bound_neg _ 1) by lia.
  f_equal. lia.
Qed.

Lemma sum_squares_interior (u : vec) :
  (1 ≤ length u)%nat →
  np_sum (zip_with Rmult (slice u 1 (-1)) (slice u 1 (-1)))
  = sum_below (fun i => nth (S i) u 0 * nth (S i) u 0) (length u - 2).
Proof.
  intros Hl. rewrite slice_interior by done.
  set (s := take (length u - 2) (drop 1 u)).
  assert (length s = (length u - 2)%nat) as Hs.
  { unfold s. rewrite length_take, length_drop. lia. }
  change (np_sum (zip_with Rmult s s)) with (dot s s).
  rewrite dot_sum, Hs by done.
  apply sum_below_ext. intros i Hi.
  assert (nth i s 0 = nth (S i) u 0) as ->; [|done].
  unfold s. rewrite !nth_lookup, lookup_take_lt, lookup_drop by lia. done.
Qed.

(** The body of both [l2norm] methods, on any non-empty vector. *)
Lemma l2norm_body (h : R) (u : vec) :
  (1 ≤ length u)%nat →
  (a ← getitem u 0;
   sq ← np_mul (slice u 1 (-1)) (slice u 1 (-1));
   b ← getitem u (-1);
   Ok (sqrt (h * (0.5 * a * a + np_sum sq + 0.5 * b * b))))
  = Ok (trapezoid_norm h u).
Proof.
  intros Hl. run. unfold np_mul, np_binop.
  case_decide; [|done]. run.
  rewrite sum_squares_interior by done. done.
Qed.

(** [l2norm] of [src/py/1D/meshlevel.py]: a vector of the wrong length
    fails the length assertion, a vector of the right length gets its
    trapezoid-rule norm. *)
Lemma l2norm_1d_checked j (u : vec) :
  (length u ≠ (Mesh1D.m (Mesh1D.init j) + 2)%nat →
   Mesh1D.l2norm (Mesh1D.init j) u
   = Err (AssertionError
            (Mesh1D.msg_len (length u) (Mesh1D.m (Mesh1D.init j) + 2))))
  ∧
  (length u = (Mesh1D.m (Mesh1D.init j) + 2)%nat →
   Mesh1D.l2norm (Mesh1D.init j) u
   = Ok (trapezoid_norm (Mesh1D.h (Mesh1D.init j)) u)).
Proof.
  unfold Mesh1D.l2norm, Mesh1D.checklen. rewrite bind_Ok.
  split; intros Hu.
  - destruct (Nat.eqb_spec (length u) (Mesh1D.m (Mesh1D.init j) + 2));
      [done|]. reflexivity.
  - rewrite Hu at 1. rewrite Nat.eqb_refl. cbn [py_assert]. rewrite bind_Ok.
    apply l2norm_body. lia.
Qed.

(** [l2norm] of [src/py/meshlevel.py] has no length check: every non-empty
    vector gets a value. *)
Lemma l2norm_py_unchecked k (u : vec) :
  (1 ≤ length u)%nat →
  PyMesh.l2norm (PyMesh.init k) u
  = Ok (trapezoid_norm (PyMesh.h (PyMesh.init k)) u).
Proof. apply l2norm_body. Qed.

(** C6, the failing input.  On level 0 of [src/py/meshlevel.py] (three
    nodes) [l2norm] accepts a vector of two entries and returns a number,
    where the length assertion of the sibling in [src/py/1D/meshlevel.py]
    would fail. *)
Theorem l2norm_py_accepts_wrong_length :
  length [3; 4] ≠ (PyMesh.m (PyMesh.init 0) + 1)%nat
  ∧ PyMesh.l2norm (PyMesh.init 0) [3; 4]
    = Ok (sqrt (1 / 2 * (0.5 * 3 * 3 + 0 + 0.5 * 4 * 4)))
  ∧ Mesh1D.l2norm (Mesh1D.init 0) [3; 4]
    = Err (AssertionError "input vector is of length 2 (should be 3)").
Proof.
  split; [simpl; lia|]. split.
  - rewrite l2norm_py_unchecked by (simpl; lia).
    unfold trapezoid_norm. simpl. do 2 f_equal.
  - apply (l2norm_1d_checked 0 [3; 4]). simpl. lia.
Qed.

(* ================================================================= *)
(** ** Running stateful code *)

Lemma SE_bind_Ok {S A B : Type} (c : SE S A) (f : A → SE S B) st r :
  (c ≫= f) st = Ok r → ∃ a st1, c st = Ok (a, st1) ∧ f a st1 = Ok r.
Proof.
  unfold mbind, SE_bind. destruct (c st) as [[a st1]|e]; [|done].
  intros Hf. by exists a, st1.
Qed.

Lemma SE_bind_run {S A B : Type} (c : SE S A) (f : A → SE S B) st a st1 :
  c st = Ok (a, st1) → (c ≫= f) st = f a st1.
Proof. intros Hc. unfold mbind, SE_bind. by rewrite Hc. Qed.

Lemma lift_Ok {S A : Type} (r : result A) (st : S) a st' :
  lift r st = Ok (a, st') → r = Ok a ∧ st' = st.
Proof. unfold lift. destruct r; intros; by simplify_eq. Qed.

Lemma lift_run {S A : Type} (a : A) (st : S) : lift (Ok a) st = Ok (a, st).
Proof. reflexivity. Qed.

Lemma SE_ret_Ok {S A : Type} (a b : A) (st st' : S) :
  (mret a : SE S A) st = Ok (b, st') → b = a ∧ st' = st.
Proof. unfold mret, SE_ret. intros; by simplify_eq. Qed.

Lemma py_assert_Ok c msg u : py_assert c msg = Ok u → c = true.
Proof. unfold py_assert. destruct c; [done|]. by destruct msg. Qed.

(** Take apart a successful run of a sequence of binds. *)
Ltac inv_run H :=
  repeat (cbv beta zeta in H;
    match type of H with
    | (_ ≫= _) _ = Ok _ =>
        let a := fresh "a" in let s := fresh "st" in
        let H1 := fresh "Hrun" in
        apply SE_bind_Ok in H as (a & s & H1 & H);
        try match type of a with (_ * _)%type => destruct a end
    end).

(* ================================================================= *)
(** ** The constraint-decomposition V-cycle *)

Section SubsetDecompFacts.

Import SubsetDecomp.

Context (pgssweep : MeshLevel → vec → vec → vec → bool → vec * Z).
Context (residual : MeshLevel → vec → vec → vec).

Abbreviation vcycle := (SubsetDecomp.vcycle pgssweep residual).
Abbreviation _smoother := (SubsetDecomp._smoother pgssweep).
Abbreviation smoother_loop := (SubsetDecomp.smoother_loop pgssweep).
Abbreviation smoother_body := (SubsetDecomp.smoother_body pgssweep).

Lemma calls_for_app i phi new1 new2 :
  calls_for i phi new1 → calls_for i phi new2 → calls_for i phi (new1 ++ new2).
Proof. unfold calls_for. rewrite Forall_app. done. Qed.

Lemma smoother_body_run (Inv : vec → Prop) i mesh F phi fwd sym :
  (∀ v b, Inv v → Inv (pgssweep mesh v F phi b).1) →
  ∀ acc st, Inv acc.1 →
  ∃ acc' new,
    smoother_body i mesh F phi fwd sym acc st
    = Ok (acc', {| hierarchy := hierarchy st; calls := calls st ++ new |})
    ∧ Inv acc'.1 ∧ calls_for i phi new ∧ new ≠ [].
Proof.
  intros Hinv [v infeas] st Hv. unfold SubsetDecomp.smoother_body.
  pose proof (Hinv v fwd Hv) as Hv1.
  destruct (pgssweep mesh v F phi fwd) as [v1 n1] eqn:E1.
  pose proof (Hinv v1 (negb fwd) Hv1) as Hv2.
  destruct sym.
  - destruct (pgssweep mesh v1 F phi (negb fwd)) as [v2 n2] eqn:E2.
    exists (v2, (infeas + n1 + n2)%Z),
      [ {| c_level := i; c_phi := phi; c_forward := fwd; c_count := n1 |};
        {| c_level := i; c_phi := phi; c_forward := negb fwd;
           c_count := n2 |} ].
    split; [|split; [done|split; [by repeat constructor|done]]].
    unfold mbind, SE_bind, mret, SE_ret, record_call. cbn.
    by rewrite <- app_assoc.
  - exists (v1, (infeas + n1)%Z),
      [ {| c_level := i; c_phi := phi; c_forward := fwd; c_count := n1 |} ].
    split; [|split; [done|split; [by repeat constructor|done]]].
    reflexivity.
Qed.

Lemma smoother_loop_run (Inv : vec → Prop) i mesh F phi fwd sym n :
  (∀ v b, Inv v → Inv (pgssweep mesh v F phi b).1) →
  ∀ acc st, Inv acc.1 →
  ∃ acc' new,
    smoother_loop n i mesh F phi fwd sym acc st
    = Ok (acc', {| hierarchy := hierarchy st; calls := calls st ++ new |})
    ∧ Inv acc'.1 ∧ calls_for i phi new ∧ ((0 < n)%nat → new ≠ []).
Proof.
  intros Hinv. induction n as [|n IH]; intros acc st Hv.
  - exists acc, []. rewrite app_nil_r. destruct st.
    repeat split; [done|constructor|lia].
  - cbn [SubsetDecomp.smoother_loop].
    destruct (smoother_body_run Inv i mesh F phi fwd sym Hinv acc st Hv)
      as (acc1 & new1 & Hrun1 & Hacc1 & Hnew1 & Hne1).
    rewrite (SE_bind_run _ _ _ _ _ Hrun1).
    destruct (IH acc1 {| hierarchy := hierarchy st;
                         calls := calls st ++ new1 |} Hacc1)
      as (acc' & new & Hrun & Hacc & Hnew & _).
    exists acc', (new1 ++ new).
    split; [|split; [done|split]].
    + rewrite Hrun. cbn. by rewrite <- app_assoc.
    + by apply calls_for_app.
    + intros _. by destruct new1.
Qed.

Lemma smoother_run (Inv : vec → Prop) i s mesh v F phi fwd sym st :
  (∀ v b, Inv v → Inv (pgssweep mesh v F phi b).1) → Inv v →
  ∃ v' n new,
    _smoother i s mesh v F phi fwd sym st
    = Ok ((v', n), {| hierarchy := hierarchy st; calls := calls st ++ new |})
    ∧ Inv v' ∧ calls_for i phi new ∧ ((1 ≤ s)%Z → new ≠ []).
Proof.
  intros Hinv Hv. unfold SubsetDecomp._smoother.
  destruct (smoother_loop_run Inv i mesh F phi fwd sym (Z.to_nat s) Hinv
              (v, 0%Z) st Hv) as ([v' n] & new & Hrun & Hacc & Hnew & Hne).
  exists v', n, new. repeat split; try done. intros Hs. apply Hne. lia.
Qed.

Lemma vcycle_unfold j F down up coarse sym :
  vcycle j F down up coarse sym =
  (_ ← lift (py_assert ((1 <=? down)%Z && (0 <=? up)%Z && (1 <=? coarse)%Z)
              (Ok no_message));
   mesh ← get_mesh j;
   let mesh := cls mesh in
   _ ← lift (py_assert (length F =? m mesh + 2)%nat (Ok no_message));
   let v := zeros mesh in
   match j with
   | O =>
       chi0 ← get_chi j;
       _smoother j coarse mesh v F chi0 true sym
   | S j' =>
       chij ← get_chi j;
       c ← lift (mR mesh chij);
       _ ← set_chi j' c;
       chij ← get_chi j;
       cc ← get_chi j';
       pc ← lift (P mesh cc);
       phi ← lift (np_sub chij pc);
       let phi := if (0 <? up)%Z then np_muls phi 0.5 else phi in
       '(v, infeas) ← _smoother j down mesh v F phi true sym;
       Fcoarse ← lift (cR mesh (residual mesh v F));
       '(vcoarse, ifc) ← vcycle j' Fcoarse down up coarse sym;
       pv ← lift (P mesh vcoarse);
       v ← lift (np_iadd v pv);
       let infeas := (infeas + ifc)%Z in
       if (0 <? up)%Z then
         '(v, n) ← _smoother j up mesh v F phi true sym;
         mret (v, (infeas + n)%Z)
       else mret (v, infeas)
   end).
Proof. destruct j; reflexivity. Qed.

Lemma get_mesh_Ok i st M st' :
  get_mesh i st = Ok (M, st') → hierarchy st !! i = Some M ∧ st' = st.
Proof.
  unfold get_mesh. destruct (hierarchy st !! i); intros; by simplify_eq.
Qed.

Lemma get_chi_Ok i st c st' :
  get_chi i st = Ok (c, st') →
  (∃ M, hierarchy st !! i = Some {| cls := M; chi := Some c |}) ∧ st' = st.
Proof.
  unfold get_chi. destruct (hierarchy st !! i) as [[M [c'|]]|];
    intros; simplify_eq/=. split; [by exists M|done].
Qed.

Lemma set_chi_Ok i c st u st' :
  set_chi i c st = Ok (u, st') →
  ∃ M, hierarchy st !! i = Some M
    ∧ st' = {| hierarchy := <[i := {| cls := cls M; chi := Some c |}]>
                              (hierarchy st);
               calls := calls st |}.
Proof.
  unfold set_chi. destruct (hierarchy st !! i) as [M|];
    intros; simplify_eq. by exists M.
Qed.

(** Read off what the state accessors of a successful run have seen. *)
Ltac inv_access :=
  repeat match goal with
  | H : lift _ _ = Ok _ |- _ => apply lift_Ok in H as [H ->]
  | H : get_mesh _ _ = Ok _ |- _ => apply get_mesh_Ok in H as [H ->]
  | H : get_chi _ _ = Ok _ |- _ =>
      let M := fresh "M" in apply get_chi_Ok in H as [[M H] ->]
  | H : set_chi _ _ _ = Ok _ |- _ =>
      let M := fresh "M" in apply set_chi_Ok in H as (M & H & ->)
  end.

Lemma lookup_set_chi_ne (hier : list MeshObj) i i' x :
  i ≠ i' → <[i := x]> hier !! i' = hier !! i'.
Proof. intros. by apply list_lookup_insert_ne. Qed.

Lemma vcycle_trace down up coarse sym j :
  ∀ F st v n st',
  vcycle j F down up coarse sym st = Ok ((v, n), st') →
  (∀ i, (j ≤ i)%nat → hierarchy st' !! i = hierarchy st !! i)
  ∧ ∃ new, calls st' = calls st ++ new
      ∧ Forall (fun c => (c_level c ≤ j)%nat) new
      ∧ ∀ i, (0 < i ≤ j)%nat → level_ok up i (hierarchy st') new.
Proof.
  induction j as [|j' IH]; intros F st v n st' Hrun;
    rewrite vcycle_unfold in Hrun.
  - inv_run Hrun.
    destruct (smoother_run (fun _ => True) 0 coarse (cls a0)
                (zeros (cls a0)) F a2 true sym st3) as
      (v' & n' & new & Hsm & _ & Hnew & _); [done|done|].
    rewrite Hsm in Hrun. simplify_eq.
    apply lift_Ok in Hrun0 as [_ ->]. apply get_mesh_Ok in Hrun1 as [_ ->].
    apply lift_Ok in Hrun2 as [_ ->]. apply get_chi_Ok in Hrun3 as [_ ->].
    cbn [hierarchy calls]. split; [done|].
    exists new. split; [done|]. split; [|intros; lia].
    eapply Forall_impl; [exact Hnew|]. intros c [-> _]. done.
  - inv_run Hrun.
    apply lift_Ok in Hrun0 as [Hassert ->].
    apply py_assert_Ok in Hassert.
    apply andb_prop in Hassert as [Hassert _].
    apply andb_prop in Hassert as [Hdown _].
    apply Z.leb_le in Hdown.
    inv_access. cbn [hierarchy calls] in *.
    rewrite list_lookup_insert_ne in Hrun6 by lia.
    rewrite list_lookup_insert_eq in Hrun7
      by (by eapply lookup_lt_Some).
    simplify_eq. cbn [cls] in *.
    rename M1 into mesh, a2 into chij, a6 into chic, M2 into Mc.
    set (phi := if (0 <? up)%Z then np_muls a8 0.5 else a8) in *.
    match type of Hrun10 with _ ?st0 = _ => set (st1 := st0) in * end.
    destruct (smoother_run (fun _ => True) (S j') down mesh (zeros mesh) F
                phi true sym st1)
      as (v1 & n1 & new1 & Hsm1 & _ & Hnew1 & Hne1); [done|done|].
    rewrite Hsm1 in Hrun10. simplify_eq.
    destruct (IH _ _ _ _ _ Hrun12) as (Hsame & newr & Hcalls & Hlev & Hok).
    cbn [hierarchy calls] in Hsame, Hcalls.
    assert (local_obstacle mesh up chij chic = Ok phi) as Hphi.
    { unfold local_obstacle. rewrite Hrun8, bind_Ok, Hrun9. done. }
    assert (∃ newu, calls st' = calls st1 ++ new1 ++ newr ++ newu
              ∧ hierarchy st' = hierarchy st12
              ∧ calls_for (S j') phi newu) as (newu & Hc' & Hh' & Hnewu).
    { destruct (0 <? up)%Z.
      - destruct (smoother_run (fun _ => True) (S j') up mesh a11 F
                    phi true sym st12)
          as (v2 & n2 & new2 & Hsm2 & _ & Hnew2 & _); [done|done|].
        rewrite (SE_bind_run _ _ _ _ _ Hsm2) in Hrun.
        apply SE_ret_Ok in Hrun as [? ->]. cbn [hierarchy calls].
        exists new2. rewrite Hcalls, <- !app_assoc. done.
      - apply SE_ret_Ok in Hrun as [? ->].
        exists []. rewrite Hcalls, app_nil_r, <- !app_assoc.
        split; [done|]. split; [done|]. constructor. }
    rewrite Hh'. split.
    { intros i Hi. rewrite Hsame by lia. cbn [hierarchy].
      by rewrite list_lookup_insert_ne by lia. }
    exists (new1 ++ newr ++ newu). split; [done|]. split.
    { rewrite !Forall_app. repeat split.
      - eapply Forall_impl; [exact Hnew1|]. by intros c [-> _].
      - eapply Forall_impl; [exact Hlev|]. intros c Hc. simpl in Hc. lia.
      - eapply Forall_impl; [exact Hnewu|]. by intros c [-> _]. }
    intros i Hi. destruct (decide (i = S j')) as [->|Hne].
    + exists mesh, (cls Mc), chij, chic, phi.
      rewrite !Hsame by lia. cbn [hierarchy].
      rewrite list_lookup_insert_ne by lia.
      replace (S j' - 1)%nat with j' by lia.
      rewrite list_lookup_insert_eq by (by eapply lookup_lt_Some).
      repeat split; try done.
      * intros c Hin Hc. rewrite !elem_of_app in Hin.
        destruct Hin as [Hin|[Hin|Hin]].
        -- by apply (proj1 (Forall_forall _ _) Hnew1 c Hin).
        -- pose proof (proj1 (Forall_forall _ _) Hlev c Hin) as Hle.
           simpl in Hle. lia.
        -- by apply (proj1 (Forall_forall _ _) Hnewu c Hin).
      * destruct new1 as [|c new1]; [by destruct Hne1|].
        exists c. split; [rewrite elem_of_app, elem_of_cons; by left; left|].
        by apply Forall_cons in Hnew1 as [[-> _] _].
    + destruct (Hok i) as (Mi & Mi' & chi_i & chi_c & phi_i & H1 & H2 & H3
                            & H4 & H5 & c & Hc1 & Hc2); [lia|].
      exists Mi, Mi', chi_i, chi_c, phi_i. repeat split; try done.
      * intros c' Hin Hlc. rewrite !elem_of_app in Hin.
        destruct Hin as [Hin|[Hin|Hin]].
        -- pose proof (proj1 (Forall_forall _ _) Hnew1 c' Hin) as [Hl _].
           lia.
        -- by apply H5.
        -- pose proof (proj1 (Forall_forall _ _) Hnewu c' Hin) as [Hl _].
           lia.
      * exists c. split; [|done]. rewrite !elem_of_app. right. by left.
Qed.

Lemma get_mesh_run i st M :
  hierarchy st !! i = Some M → get_mesh i st = Ok (M, st).
Proof. intros H. unfold get_mesh. by rewrite H. Qed.

Lemma get_chi_run i st M c :
  hierarchy st !! i = Some {| cls := M; chi := Some c |} →
  get_chi i st = Ok (c, st).
Proof. intros H. unfold get_chi. by rewrite H. Qed.

Lemma set_chi_run i c st M :
  hierarchy st !! i = Some M →
  set_chi i c st
  = Ok (tt, {| hierarchy := <[i := {| cls := cls M; chi := Some c |}]>
                              (hierarchy st);
               calls := calls st |}).
Proof. intros H. unfold set_chi. by rewrite H. Qed.

Lemma classes_set_chi (hier : list MeshObj) i M c :
  hier !! i = Some M →
  cls <$> <[i := {| cls := cls M; chi := Some c |}]> hier = cls <$> hier.
Proof.
  intros H. rewrite list_fmap_insert. cbn [cls].
  apply list_insert_id. by rewrite list_lookup_fmap, H.
Qed.

(** Forward execution of one bind whose first action is known. *)
Ltac step_with H := rewrite (SE_bind_run _ _ _ _ _ H).

(** With collaborators that keep the length of [v] and of the residual, a
    cycle on a well-formed hierarchy with [down >= 1], [up >= 0],
    [coarse >= 1] returns a correction of the length of its level. *)
Lemma vcycle_succeeds down up coarse sym :
  (∀ M v F phi b, length (pgssweep M v F phi b).1 = length v) →
  (∀ M (v F : vec), length F = (m M + 2)%nat →
     length (residual M v F) = (m M + 2)%nat) →
  (1 ≤ down)%Z → (0 ≤ up)%Z → (1 ≤ coarse)%Z →
  ∀ j (F : vec) st M chij,
  well_formed (cls <$> hierarchy st) →
  hierarchy st !! j = Some {| cls := M; chi := Some chij |} →
  length chij = (m M + 2)%nat → length F = (m M + 2)%nat →
  ∃ (v : vec) n st',
    vcycle j F down up coarse sym st = Ok ((v, n), st')
    ∧ length v = (m M + 2)%nat
    ∧ cls <$> hierarchy st' = cls <$> hierarchy st.
Proof.
  intros Hpgs Hres Hdown Hup Hcoarse.
  induction j as [|j' IH]; intros F st M chij [Hz Hwf] HM Hchi HF;
    rewrite vcycle_unfold.
  all: destruct (Z.leb_spec 1 down); [|lia].
  all: destruct (Z.leb_spec 0 up); [|lia].
  all: destruct (Z.leb_spec 1 coarse); [|lia].
  all: cbn [andb py_assert]; step_with (lift_run (S:=state) tt st).
  all: step_with (get_mesh_run _ _ _ HM); cbv zeta; cbn [cls].
  all: rewrite HF, Nat.eqb_refl; cbn [py_assert].
  all: step_with (lift_run (S:=state) tt st).
  all: step_with (get_chi_run _ _ _ _ HM).
  - assert (length (zeros M) = (m M + 2)%nat) as Hzeros
      by (apply (Hz 0%nat); by rewrite list_lookup_fmap, HM).
    destruct (smoother_run (fun v : vec => length v = (m M + 2)%nat) 0 coarse
                M (zeros M) F chij true sym st)
      as (v & n & new & Hsm & Hv & _); [|done|].
    { intros v b Hv. by rewrite Hpgs. }
    exists v, n. eexists. split; [exact Hsm|]. split; [done|]. done.
  - assert (length (zeros M) = (m M + 2)%nat) as Hzeros
      by (apply (Hz (S j')); by rewrite list_lookup_fmap, HM).
    destruct (lookup_lt_is_Some_2 (hierarchy st) j') as [Mc HMc].
    { apply lookup_lt_Some in HM. lia. }
    destruct (Hwf j' M (cls Mc)) as [HmR HcR HP].
    { by rewrite list_lookup_fmap, HM. }
    { by rewrite list_lookup_fmap, HMc. }
    destruct (HmR chij Hchi) as (chic & EmR & Hchic).
    rewrite EmR. step_with (lift_run (S:=state) chic st).
    step_with (set_chi_run _ chic _ _ HMc).
    set (st1 := {| hierarchy := <[j' := {| cls := cls Mc; chi := Some chic |}]>
                                  (hierarchy st);
                   calls := calls st |}).
    assert (hierarchy st1 !! S j' = Some {| cls := M; chi := Some chij |})
      as HM1 by (cbn; by rewrite list_lookup_insert_ne by lia).
    assert (hierarchy st1 !! j' = Some {| cls := cls Mc; chi := Some chic |})
      as HMc1.
    { cbn. apply list_lookup_insert_eq. by eapply lookup_lt_Some. }
    step_with (get_chi_run _ _ _ _ HM1). step_with (get_chi_run _ _ _ _ HMc1).
    destruct (HP chic Hchic) as (pc & EP & Hpc).
    rewrite EP. step_with (lift_run (S:=state) pc st1).
    assert (np_sub chij pc = Ok (zip_with Rminus chij pc)) as Esub.
    { unfold np_sub, np_binop. case_decide; [done|lia]. }
    rewrite Esub. step_with (lift_run (S:=state) (zip_with Rminus chij pc) st1).
    set (phi := if (0 <? up)%Z then np_muls (zip_with Rminus chij pc) 0.5
                else zip_with Rminus chij pc).
    destruct (smoother_run (fun v : vec => length v = (m M + 2)%nat) (S j')
                down M (zeros M) F phi true sym st1)
      as (v1 & n1 & new1 & Hsm1 & Hv1 & _); [|done|].
    { intros v b Hv. by rewrite Hpgs. }
    step_with Hsm1. cbv beta iota.
    set (st2 := {| hierarchy := hierarchy st1; calls := calls st1 ++ new1 |}).
    destruct (HcR (residual M v1 F)) as (Fc & EcR & HFc); [by apply Hres|].
    rewrite EcR. step_with (lift_run (S:=state) Fc st2).
    assert (cls <$> hierarchy st2 = cls <$> hierarchy st) as Hcls2
      by (cbn; by apply classes_set_chi).
    destruct (IH Fc st2 (cls Mc) chic) as (vc & nc & st3 & Hrec & Hvc & Hcls3);
      [by rewrite Hcls2|done|done|done|].
    step_with Hrec. cbv beta iota.
    destruct (HP vc Hvc) as (pv & EPv & Hpv).
    rewrite EPv. step_with (lift_run (S:=state) pv st3).
    assert (np_iadd v1 pv = Ok (zip_with Rplus v1 pv)) as Eadd.
    { unfold np_iadd, np_iop. case_decide; [done|lia]. }
    rewrite Eadd. step_with (lift_run (S:=state) (zip_with Rplus v1 pv) st3).
    assert (length (zip_with Rplus v1 pv) = (m M + 2)%nat) as Hv2
      by (rewrite length_zip_with; lia).
    destruct (0 <? up)%Z.
    + destruct (smoother_run (fun v : vec => length v = (m M + 2)%nat) (S j')
                  up M (zip_with Rplus v1 pv) F phi true sym st3)
        as (v3 & n3 & new3 & Hsm3 & Hv3 & _); [|done|].
      { intros v b Hv. by rewrite Hpgs. }
      step_with Hsm3. cbv beta iota.
      eexists _, _, _. split; [reflexivity|]. split; [done|].
      cbn [hierarchy]. by rewrite Hcls3.
    + eexists _, _, _. split; [reflexivity|]. split; [done|].
      by rewrite Hcls3.
Qed.

(** C2.  In a cycle that returns, for every level [i] with [0 < i <= j]:
    the defect obstacle of level [i] has been monotone-restricted and the
    result stored as the defect obstacle of level [i-1]; every smoother call
    made for level [i] (there is at least one) received the obstacle
    [chi^i - P(chi^(i-1))], multiplied by [0.5] exactly when [up > 0].  The
    defect obstacle of the top level [j] is the caller's. *)
Theorem vcycle_local_obstacle j (F : vec) down up coarse sym st v n st' :
  calls st = [] →
  vcycle j F down up coarse sym st = Ok ((v, n), st') →
  hierarchy st' !! j = hierarchy st !! j
  ∧ ∀ i, (0 < i ≤ j)%nat → level_ok up i (hierarchy st') (calls st').
Proof.
  intros Hc Hrun.
  destruct (vcycle_trace _ _ _ _ _ _ _ _ _ _ Hrun)
    as (Hsame & new & Hcalls & _ & Hok).
  split; [by apply Hsame|].
  rewrite Hcalls, Hc. exact Hok.
Qed.

(** C9.  The cycle fails its first assertion whenever [down < 1], [up < 0]
    or [coarse < 1], and its second one whenever the sweep counts pass and
    [F] has not the length [m + 2] of the level-[j] mesh; with [up = 0],
    [down >= 1] and [coarse >= 1] a cycle on a well-formed hierarchy
    returns. *)
Theorem vcycle_fails_fast j (F : vec) down up coarse sym st :
  ((down < 1 ∨ up < 0 ∨ coarse < 1)%Z →
   vcycle j F down up coarse sym st = Err (AssertionError no_message))
  ∧ (∀ M, hierarchy st !! j = Some M →
       length F ≠ (m (cls M) + 2)%nat →
       vcycle j F down up coarse sym st = Err (AssertionError no_message))
  ∧ (∀ M chij,
       (∀ M v F phi b, length (pgssweep M v F phi b).1 = length v) →
       (∀ M (v F : vec), length F = (m M + 2)%nat →
          length (residual M v F) = (m M + 2)%nat) →
       up = 0%Z → (1 ≤ down)%Z → (1 ≤ coarse)%Z →
       well_formed (cls <$> hierarchy st) →
       hierarchy st !! j = Some {| cls := M; chi := Some chij |} →
       length chij = (m M + 2)%nat → length F = (m M + 2)%nat →
       ∃ (v : vec) n st',
         vcycle j F down up coarse sym st = Ok ((v, n), st')
         ∧ length v = (m M + 2)%nat).
Proof.
  split; [|split].
  - intros Hbad. rewrite vcycle_unfold.
    assert ((1 <=? down)%Z && (0 <=? up)%Z && (1 <=? coarse)%Z = false)
      as ->; [|done].
    destruct (Z.leb_spec 1 down), (Z.leb_spec 0 up), (Z.leb_spec 1 coarse);
      try done; lia.
  - intros M HM HF. rewrite vcycle_unfold.
    destruct ((1 <=? down)%Z && (0 <=? up)%Z && (1 <=? coarse)%Z); [|done].
    cbn [py_assert]. step_with (lift_run (S:=state) tt st).
    step_with (get_mesh_run _ _ _ HM). cbv zeta.
    destruct (Nat.eqb_spec (length F) (m (cls M) + 2)); [done|].
    reflexivity.
  - intros M chij Hpgs Hres -> Hd Hc Hwf HM Hchi HF.
    destruct (vcycle_succeeds down 0 coarse sym Hpgs Hres Hd (Z.le_refl 0) Hc
                j F st M chij Hwf HM Hchi HF) as (v & n & st' & Hrun & Hv & _).
    by exists v, n, st'.
Qed.

End SubsetDecompFacts.

Lemma mesh1d_transfer_ok j :
  transfer_ok (SubsetDecomp.of_mesh1d (Mesh1D.init (S j)))
              (SubsetDecomp.of_mesh1d (Mesh1D.init j)).
Proof.
  assert (0 < S j)%nat as Hj by lia.
  pose proof (pow2_pos (j + 1)) as Hp. pose proof (pow2_S (j + 1)) as HS.
  assert (∀ n, n = (SubsetDecomp.m (SubsetDecomp.of_mesh1d
                                      (Mesh1D.init (S j))) + 2)%nat →
               n = (2 ^ (S j + 1) + 1)%nat) as Hfine.
  { intros n ->. cbn [SubsetDecomp.m SubsetDecomp.of_mesh1d].
    rewrite mesh1d_m. replace (S j + 1)%nat with (j + 1 + 1)%nat by lia. lia. }
  assert (∀ n, n = (2 ^ S j + 1)%nat →
               n = (SubsetDecomp.m (SubsetDecomp.of_mesh1d
                                      (Mesh1D.init j)) + 2)%nat) as Hcoarse.
  { intros n ->. cbn [SubsetDecomp.m SubsetDecomp.of_mesh1d].
    rewrite mesh1d_m. replace (S j) with (j + 1)%nat by lia. lia. }
  split; cbn [SubsetDecomp.mR SubsetDecomp.cR SubsetDecomp.P
              SubsetDecomp.of_mesh1d]; intros v Hv.
  - destruct (mR_closed_form (S j) v Hj (Hfine _ Hv)) as (y & Hy & Hl & _).
    exists y. split; [done|]. by apply Hcoarse.
  - destruct (cR_closed_form (S j) v Hj (Hfine _ Hv)) as (y & Hy & Hl & _).
    exists y. split; [done|]. by apply Hcoarse.
  - destruct (cP_closed_form (S j) v Hj) as (y & Hy & Hl & _).
    { cbn [SubsetDecomp.m SubsetDecomp.of_mesh1d] in Hv.
      rewrite mesh1d_m in Hv. replace (S j) with (j + 1)%nat by lia. lia. }
    exists y. split; [done|].
    cbn [SubsetDecomp.m SubsetDecomp.of_mesh1d]. rewrite mesh1d_m.
    pose proof (pow2_pos (S j + 1)). lia.
Qed.

Lemma mesh1d_classes_lookup n i M :
  mesh1d_classes n !! i = Some M →
  M = SubsetDecomp.of_mesh1d (Mesh1D.init i) ∧ (i < n)%nat.
Proof.
  unfold mesh1d_classes. rewrite list_lookup_fmap.
  destruct (seq 0 n !! i) as [k|] eqn:E; [|done].
  apply lookup_seq in E as [-> Hi]. intros; by simplify_eq/=.
Qed.

Lemma mesh1d_well_formed n : well_formed (mesh1d_classes n).
Proof.
  split.
  - intros i M [-> _]%mesh1d_classes_lookup.
    cbn [SubsetDecomp.zeros SubsetDecomp.m SubsetDecomp.of_mesh1d].
    unfold Mesh1D.zeros. apply length_np_zeros.
  - intros i M Mc [-> _]%mesh1d_classes_lookup [-> _]%mesh1d_classes_lookup.
    apply mesh1d_transfer_ok.
Qed.

Lemma demo_cycle_runs down up :
  (1 ≤ down)%Z → (0 ≤ up)%Z →
  ∃ (v : vec) n st',
    SubsetDecomp.vcycle demo_pgssweep demo_residual 1 [0; 0; 0; 0; 0]
      down up 1 false demo_state = Ok ((v, n), st')
    ∧ length v = 5%nat.
Proof.
  intros Hd Hu.
  destruct (vcycle_succeeds demo_pgssweep demo_residual down up 1 false)
    with (j := 1%nat) (F := [0; 0; 0; 0; 0]) (st := demo_state)
         (M := SubsetDecomp.of_mesh1d (Mesh1D.init 1))
         (chij := [0; -1; -2; -1; 0])
    as (v & n & st' & Hrun & Hv & _); try done.
  - apply (mesh1d_well_formed 2).
  - by exists v, n, st'.
Qed.

Lemma vcycle_local_obstacle_witness :
  ∃ (v : vec) n st',
    SubsetDecomp.vcycle demo_pgssweep demo_residual 1 [0; 0; 0; 0; 0]
      1 0 1 false demo_state = Ok ((v, n), st')
    ∧ SubsetDecomp.hierarchy st' !! 1%nat
      = SubsetDecomp.hierarchy demo_state !! 1%nat
    ∧ ∀ i, (0 < i ≤ 1)%nat →
        level_ok 0 i (SubsetDecomp.hierarchy st') (SubsetDecomp.calls st').
Proof.
  destruct (demo_cycle_runs 1 0) as (v & n & st' & Hrun & _); [lia|lia|].
  exists v, n, st'. split; [exact Hrun|].
  exact (vcycle_local_obstacle demo_pgssweep demo_residual 1 [0; 0; 0; 0; 0]
           1 0 1 false demo_state v n st' eq_refl Hrun).
Defined.

Lemma vcycle_fails_fast_witness :
  SubsetDecomp.vcycle demo_pgssweep demo_residual 1 [0; 0; 0; 0; 0]
    0 0 1 false demo_state = Err (AssertionError no_message)
  ∧ SubsetDecomp.vcycle demo_pgssweep demo_residual 1 [0; 0; 0]
      1 0 1 false demo_state = Err (AssertionError no_message)
  ∧ ∃ (v : vec) n st',
      SubsetDecomp.vcycle demo_pgssweep demo_residual 1 [0; 0; 0; 0; 0]
        1 0 1 false demo_state = Ok ((v, n), st')
      ∧ length v = 5%nat.
Proof.
  split; [|split].
  - apply (vcycle_fails_fast demo_pgssweep demo_residual 1 [0; 0; 0; 0; 0]
             0 0 1 false demo_state). lia.
  - eapply (vcycle_fails_fast demo_pgssweep demo_residual 1 [0; 0; 0]
              1 0 1 false demo_state); [reflexivity|]. simpl. lia.
  - destruct (vcycle_fails_fast demo_pgssweep demo_residual 1
                [0; 0; 0; 0; 0] 1 0 1 false demo_state) as (_ & _ & Hrun).
    apply (Hrun (SubsetDecomp.of_mesh1d (Mesh1D.init 1)) [0; -1; -2; -1; 0]);
      try done.
    apply (mesh1d_well_formed 2).
Defined.

(* ================================================================= *)
(** ** The FAS cycles *)

Section CyclesFacts.

Import Cycles CycleSpec.

Context (self : FAS).

Lemma mesh_at_Ok k st M st' :
  mesh_at self k st = Ok (M, st') → meshes self !! k = Some M ∧ st' = st.
Proof.
  unfold mesh_at. destruct (meshes self !! k); intros; by simplify_eq.
Qed.

Lemma load_Ok l st v st' :
  load l st = Ok (v, st') → store st !! l = Some v ∧ st' = st.
Proof. unfold load. destruct (store st !! l); intros; by simplify_eq. Qed.

Lemma assign_Ok l v st u st' :
  assign l v st = Ok (u, st') →
  (l < length (store st))%nat
  ∧ st' = {| store := <[l := v]> (store st); wu := wu st;
             sweeps := sweeps st |}.
Proof.
  unfold assign. destruct (store st !! l) eqn:E; intros; simplify_eq.
  split; [by eapply lookup_lt_Some|done].
Qed.

Lemma alloc_Ok v st l st' :
  alloc v st = Ok (l, st') →
  l = length (store st)
  ∧ st' = {| store := store st ++ [v]; wu := wu st; sweeps := sweeps st |}.
Proof. unfold alloc. intros; by simplify_eq. Qed.

Lemma wu_add_Ok k x st u st' :
  wu_add k x st = Ok (u, st') →
  (k < length (wu st))%nat
  ∧ st' = {| store := store st;
             wu := <[k := nth k (wu st) 0 + x]> (wu st);
             sweeps := sweeps st |}.
Proof.
  unfold wu_add. destruct (decide (k < length (wu st))%nat) as [Hk|Hk].
  - rewrite getitem_nat, bind_Ok, setitem_nat by done.
    intros; by simplify_eq.
  - unfold getitem, norm_index.
    destruct (Z.leb_spec 0 (Z.of_nat k)); [|lia].
    destruct (Z.ltb_spec (Z.of_nat k) (Z.of_nat (length (wu st)))); [lia|].
    done.
Qed.

Lemma record_sweep_Ok k b st u st' :
  record_sweep k b st = Ok (u, st') →
  st' = {| store := store st; wu := wu st;
           sweeps := sweeps st ++ [(k, b)] |}.
Proof. unfold record_sweep. intros; by simplify_eq. Qed.

Ltac inv_state :=
  repeat match goal with
  | H : lift _ _ = Ok _ |- _ => apply lift_Ok in H as [H ->]
  | H : mesh_at _ _ _ = Ok _ |- _ => apply mesh_at_Ok in H as [H ->]
  | H : load _ _ = Ok _ |- _ => apply load_Ok in H as [H ->]
  | H : alloc _ _ = Ok _ |- _ => apply alloc_Ok in H as [-> ->]
  end; cbn [store wu sweeps] in *.

Lemma points_loop_Ok k M w ell (lc : vec) ps :
  meshes self !! k = Some M → w ≠ ell →
  ∀ st st' (wc : vec),
  store st !! w = Some wc → store st !! ell = Some lc →
  for_each ps (fun p =>
      M ← mesh_at self k;
      wc ← load w;
      ec ← load ell;
      assign w (ngspoint (prob self) (h M) wc ec p (niters self))) st
  = Ok (tt, st') →
  st' = {| store := <[w := relax_points self M lc ps wc]> (store st);
           wu := wu st; sweeps := sweeps st |}.
Proof.
  intros HM Hne. induction ps as [|p ps IH]; intros st st' wc Hw Hl Hrun.
  - apply SE_ret_Ok in Hrun as [_ ->]. unfold relax_points. cbn [foldl].
    rewrite list_insert_id by done. by destruct st.
  - cbn [for_each] in Hrun.
    apply SE_bind_Ok in Hrun as ([] & st0 & Hbody & Hrun).
    inv_run Hbody. inv_state.
    apply assign_Ok in Hbody as [Hlt ->]. simplify_eq.
    apply IH with (wc := ngspoint (prob self) (h M) wc lc p (niters self))
      in Hrun; cbn [store wu sweeps] in *.
    + rewrite list_insert_insert_eq in Hrun. done.
    + by apply list_lookup_insert_eq.
    + by rewrite list_lookup_insert_ne.
Qed.

Lemma ngssweep_Ok k w ell fwd st st' (wc lc : vec) :
  w ≠ ell → store st !! w = Some wc → store st !! ell = Some lc →
  ngssweep self k w ell fwd st = Ok (tt, st') →
  ∃ w' : vec, sweep self k fwd lc wc = Ok w'
    ∧ st' = {| store := <[w := w']> (store st); wu := wu st;
               sweeps := sweeps st ++ [(k, fwd)] |}.
Proof.
  intros Hne Hw Hl Hrun. unfold ngssweep in Hrun. inv_run Hrun. inv_state.
  apply record_sweep_Ok in Hrun1 as ->.
  eapply points_loop_Ok in Hrun; [|done|done|exact Hw|exact Hl].
  unfold sweep, mesh. rewrite Hrun0, bind_Ok.
  eexists. split; [done|]. exact Hrun.
Qed.

Lemma sweeps_loop_Ok k w ell fwd (lc : vec) (qs : list nat) :
  w ≠ ell →
  ∀ st st' (wc : vec),
  store st !! w = Some wc → store st !! ell = Some lc →
  for_each qs (fun q => ngssweep self k w ell fwd) st = Ok (tt, st') →
  ∃ w' : vec, sweep_n self (length qs) k fwd lc wc = Ok w'
    ∧ st' = {| store := <[w := w']> (store st); wu := wu st;
               sweeps := sweeps st ++ replicate (length qs) (k, fwd) |}.
Proof.
  intros Hne. induction qs as [|q qs IH]; intros st st' wc Hw Hl Hrun.
  - apply SE_ret_Ok in Hrun as [_ ->]. exists wc. split; [done|].
    cbn. rewrite list_insert_id, app_nil_r by done. by destruct st.
  - cbn [for_each] in Hrun.
    apply SE_bind_Ok in Hrun as ([] & st0 & Hbody & Hrun).
    destruct (ngssweep_Ok _ _ _ _ _ _ _ _ Hne Hw Hl Hbody) as (w1 & Hs1 & ->).
    assert (w < length (store st))%nat as Hlt by (by eapply lookup_lt_Some).
    eapply IH in Hrun as (w' & Hs & ->); cbn [store wu sweeps].
    + exists w'. cbn [length sweep_n]. rewrite Hs1, bind_Ok.
      split; [done|]. rewrite list_insert_insert_eq.
      cbn [replicate]. by rewrite <- app_assoc.
    + by apply list_lookup_insert_eq.
    + by rewrite list_lookup_insert_ne.
Qed.

Lemma length_range0 n : length (range 0 n) = n.
Proof. unfold range. rewrite length_seq. lia. Qed.

Lemma vcycle_unfold_fas k u ell :
  vcycle self k u ell =
  if decide (k = kcoarse self) then coarsesolve self u ell
  else
    _ ← lift (py_assert (kcoarse self <? k)%nat (Ok no_message));
    match k with
    | O => mret tt
    | S k' =>
        _ ← for_each (range 0 (Z.to_nat (down self))) (fun q =>
              ngssweep self k u ell true);
        _ ← wu_add k (IZR (down self));
        lc ← load ell;
        M ← mesh_at self k;
        uc ← load u;
        Fu ← lift (F (prob self) (h M) uc);
        rfine ← lift (np_sub lc Fu);
        M ← mesh_at self k;
        uc ← load u;
        Ruc ← lift (Rfw M uc);
        Ru ← alloc Ruc;
        M ← mesh_at self k;
        cr ← lift (CR M rfine);
        M' ← mesh_at self k';
        Ruc ← load Ru;
        FRu ← lift (F (prob self) (h M') Ruc);
        cl ← lift (np_add cr FRu);
        coarseell ← alloc cl;
        Ruc ← load Ru;
        ucoarse ← alloc Ruc;
        _ ← vcycle self k' ucoarse coarseell;
        ucc ← load ucoarse;
        Ruc ← load Ru;
        du ← lift (np_sub ucc Ruc);
        M ← mesh_at self k;
        pdu ← lift (P M du);
        uc ← load u;
        unew ← lift (np_iadd uc pdu);
        _ ← assign u unew;
        _ ← for_each (range 0 (Z.to_nat (up self))) (fun q =>
              ngssweep self k u ell false);
        wu_add k (IZR (up self))
    end.
Proof. destruct k; reflexivity. Qed.

Lemma updates_only_insert (u : loc) (u' : vec) (s : list vec) :
  (u < length s)%nat → updates_only u u' s (<[u := u']> s).
Proof.
  intros Hu. split; [by rewrite length_insert|]. split.
  - by apply list_lookup_insert_eq.
  - intros x Hx Hne. by rewrite list_lookup_insert_ne.
Qed.

Lemma fas_vcycle_unfold k (u ell : vec) :
  fas_vcycle self k u ell =
  if decide (k = kcoarse self) then
    sweep_n self (Z.to_nat (coarse self)) k true ell u
  else
    match k with
    | O => Err (AssertionError no_message)
    | S k' =>
        if (kcoarse self <? k)%nat then
          u1 ← sweep_n self (Z.to_nat (down self)) k true ell u;
          M ← mesh self k;
          Fu ← F (prob self) (h M) u1;
          r ← np_sub ell Fu;
          Ru ← Rfw M u1;
          cr ← CR M r;
          Mc ← mesh self k';
          FRu ← F (prob self) (h Mc) Ru;
          cell ← np_add cr FRu;
          uc ← fas_vcycle self k' Ru cell;
          du ← np_sub uc Ru;
          pdu ← P M du;
          u2 ← np_iadd u1 pdu;
          sweep_n self (Z.to_nat (up self)) k false ell u2
        else Err (AssertionError no_message)
    end.
Proof. destruct k; reflexivity. Qed.

Lemma sweep_log_unfold k :
  sweep_log self k =
  if decide (k = kcoarse self) then
    replicate (Z.to_nat (coarse self)) (k, true)
  else
    match k with
    | O => []
    | S k' =>
        replicate (Z.to_nat (down self)) (k, true)
        ++ sweep_log self k'
        ++ replicate (Z.to_nat (up self)) (k, false)
    end.
Proof. destruct k; reflexivity. Qed.

Lemma wu_gain_unfold k i :
  wu_gain self k i =
  if decide (k = kcoarse self) then
    if decide (i = k) then IZR (coarse self) else 0
  else
    match k with
    | O => 0
    | S k' =>
        (if decide (i = k) then IZR (down self) + IZR (up self) else 0)
        + wu_gain self k' i
    end.
Proof. destruct k; reflexivity. Qed.

Lemma sound_at_coarse : sound_at self (kcoarse self).
Proof.
  intros u ell st st' u0 l Hne Hu Hl Hrun.
  rewrite vcycle_unfold_fas in Hrun. case_decide; [|done].
  unfold coarsesolve in Hrun.
  apply SE_bind_Ok in Hrun as ([] & st1 & Hloop & Hrun).
  destruct (sweeps_loop_Ok _ _ _ _ _ _ Hne _ _ _ Hu Hl Hloop)
    as (u' & Hs & ->).
  apply wu_add_Ok in Hrun as [Hk ->]. cbn [store wu sweeps] in *.
  rewrite length_range0 in *.
  exists u'. rewrite fas_vcycle_unfold, sweep_log_unfold.
  case_decide; [|done].
  split; [done|]. split.
  { apply updates_only_insert. by eapply lookup_lt_Some. }
  split; [done|]. split; [by rewrite length_insert|].
  intros i. rewrite nth_insert, wu_gain_unfold.
  repeat case_decide; try lia; subst; lra.
Qed.

(** One level of the V-cycle above the coarsest level, given what the
    recursive call does. *)
Lemma vcycle_step k' u ell st st' (u0 l : vec) :
  sound_at self k' →
  S k' ≠ kcoarse self →
  u ≠ ell → store st !! u = Some u0 → store st !! ell = Some l →
  vcycle self (S k') u ell st = Ok (tt, st') →
  ∃ (M Mc : MeshLevel) (u1 Fu r Ru cr FRu cell uc du pdu u2 u' : vec)
    (Ru_loc cell_loc uc_loc : loc) (st1 st2 : state),
    (kcoarse self < S k')%nat
    ∧ meshes self !! S k' = Some M ∧ meshes self !! k' = Some Mc
    ∧ sweep_n self (Z.to_nat (down self)) (S k') true l u0 = Ok u1
    ∧ F (prob self) (h M) u1 = Ok Fu ∧ np_sub l Fu = Ok r
    ∧ Rfw M u1 = Ok Ru
    ∧ CR M r = Ok cr ∧ F (prob self) (h Mc) Ru = Ok FRu
    ∧ np_add cr FRu = Ok cell
    ∧ uc_loc ≠ Ru_loc ∧ uc_loc ≠ cell_loc
    ∧ store st1 !! Ru_loc = Some Ru ∧ store st1 !! uc_loc = Some Ru
    ∧ store st1 !! cell_loc = Some cell
    ∧ vcycle self k' uc_loc cell_loc st1 = Ok (tt, st2)
    ∧ store st2 !! uc_loc = Some uc ∧ store st2 !! Ru_loc = Some Ru
    ∧ fas_vcycle self k' Ru cell = Ok uc
    ∧ np_sub uc Ru = Ok du ∧ P M du = Ok pdu ∧ np_iadd u1 pdu = Ok u2
    ∧ sweep_n self (Z.to_nat (up self)) (S k') false l u2 = Ok u'
    ∧ updates_only u u' (store st) (store st')
    ∧ sweeps st' = sweeps st ++ sweep_log self (S k')
    ∧ length (wu st') = length (wu st)
    ∧ ∀ i, nth i (wu st') 0 = nth i (wu st) 0 + wu_gain self (S k') i.
Proof.
  intros IH Hk Hne Hu Hl Hrun.
  rewrite vcycle_unfold_fas in Hrun. case_decide; [done|].
  apply SE_bind_Ok in Hrun as ([] & st0 & Hassert & Hrun).
  apply lift_Ok in Hassert as [Hassert ->].
  apply py_assert_Ok, Nat.ltb_lt in Hassert.
  apply SE_bind_Ok in Hrun as ([] & stA & Hdown & Hrun).
  destruct (sweeps_loop_Ok _ _ _ _ _ _ Hne _ _ _ Hu Hl Hdown)
    as (u1 & Hs1 & ->).
  rewrite length_range0 in *.
  apply SE_bind_Ok in Hrun as ([] & stB & Hwu1 & Hrun).
  apply wu_add_Ok in Hwu1 as [Hklt ->].
  inv_run Hrun. cbn [store wu sweeps] in *. inv_state.
  assert (u < length (store st))%nat as Hult by (by eapply lookup_lt_Some).
  assert (ell < length (store st))%nat as Hllt by (by eapply lookup_lt_Some).
  rewrite list_lookup_insert_ne in Hrun0 by done.
  rewrite list_lookup_insert_eq in Hrun2, Hrun6 by done.
  rewrite list_lookup_middle in Hrun12 by done.
  rewrite lookup_app_l, list_lookup_middle in Hrun16
    by (rewrite ?length_app; simpl; lia || done).
  assert (a = l) as -> by congruence.
  assert (a1 = u1) as -> by congruence.
  assert (a5 = u1) as -> by congruence.
  assert (a4 = a0) as -> by congruence.
  assert (a8 = a0) as -> by congruence.
  assert (a21 = a0) as -> by congruence.
  assert (a11 = a6) as -> by congruence.
  assert (a15 = a6) as -> by congruence.
  clear Hrun0 Hrun2 Hrun5 Hrun6 Hrun9 Hrun12 Hrun16 Hrun22.
  rename a0 into M, a10 into Mc, a6 into Ru, a13 into cell, a2 into Fu,
    a3 into r, a9 into cr, a12 into FRu.
  set (S0 := <[u:=u1]> (store st)) in *.
  assert (length S0 = length (store st)) as HS0 by apply length_insert.
  match type of Hrun18 with vcycle _ _ ?a ?b ?s = _ =>
    set (uc_loc := a) in *; set (cell_loc := b) in *; set (st1 := s) in *
  end.
  assert (uc_loc = S (S (length S0))) as Huc
    by (unfold uc_loc; rewrite !length_app; simpl; lia).
  assert (cell_loc = S (length S0)) as Hcell
    by (unfold cell_loc; rewrite !length_app; simpl; lia).
  assert (store st1 !! uc_loc = Some Ru) as Huc1.
  { unfold st1, uc_loc. cbn [store]. by apply list_lookup_middle. }
  assert (store st1 !! cell_loc = Some cell) as Hcell1.
  { unfold st1, cell_loc. cbn [store].
    rewrite lookup_app_l by (rewrite !length_app; simpl; lia).
    by apply list_lookup_middle. }
  assert (store st1 !! length S0 = Some Ru) as HRu1.
  { unfold st1. cbn [store].
    rewrite !lookup_app_l by (rewrite ?length_app; simpl; lia).
    by apply list_lookup_middle. }
  assert (∀ x, (x < length S0)%nat → store st1 !! x = S0 !! x) as Hold1.
  { intros x Hx. unfold st1. cbn [store].
    by rewrite !lookup_app_l by (rewrite ?length_app; simpl; lia). }
  assert (length (store st1) = S (S (S (length S0)))) as Hlen1
    by (unfold st1; cbn [store]; rewrite !length_app; simpl; lia).
  destruct a17.
  destruct (IH uc_loc cell_loc st1 st18 Ru cell) as
    (uc & Hfas & (Hgrow & Hucl & Hframe) & Hsw & Hwl & Hwu);
    [lia|done|done|done|].
  rewrite Hucl in Hrun19. rewrite Hframe, HRu1 in Hrun20 by lia.
  rewrite Hframe, Hold1 in Hrun24 by lia.
  unfold S0 in Hrun24. rewrite list_lookup_insert_eq in Hrun24 by done.
  assert (a18 = uc) as -> by congruence.
  assert (a19 = Ru) as -> by congruence.
  assert (a23 = u1) as -> by congruence.
  clear Hrun19 Hrun20 Hrun24.
  rename a20 into du, a22 into pdu, a24 into u2.
  apply assign_Ok in Hrun26 as [_ ->]. destruct a26.
  eapply sweeps_loop_Ok with (wc := u2) (lc := l) in Hrun27
    as (u' & Hs2 & ->); [|done| |]; cbn [store wu sweeps] in *.
  2:{ apply list_lookup_insert_eq. lia. }
  2:{ rewrite list_lookup_insert_ne by done.
      rewrite Hframe, Hold1 by lia. unfold S0.
      by rewrite list_lookup_insert_ne. }
  rewrite length_range0 in *.
  apply wu_add_Ok in Hrun as [Hklt' ->]. cbn [store wu sweeps] in *.
  assert (store st18 !! length S0 = Some Ru) as HRu18
    by (by rewrite Hframe, HRu1 by lia).
  exists M, Mc, u1, Fu, r, Ru, cr, FRu, cell, uc, du, pdu, u2, u',
    (length S0), cell_loc, uc_loc, st1, st18.
  repeat (split; [first [done | lia]|]).
  rewrite list_insert_insert_eq.
  split; [|split; [|split]].
  - split; [rewrite length_insert; lia|]. split.
    + apply list_lookup_insert_eq. lia.
    + intros x Hx Hxu. rewrite list_lookup_insert_ne by done.
      rewrite Hframe, Hold1 by lia. unfold S0.
      by rewrite list_lookup_insert_ne.
  - rewrite Hsw. unfold st1. cbn [sweeps].
    rewrite (sweep_log_unfold (S k')). case_decide; [done|].
    by rewrite <- !app_assoc.
  - rewrite length_insert, Hwl. unfold st1. cbn [wu].
    by rewrite length_insert.
  - intros i. rewrite nth_insert, !Hwu. unfold st1. cbn [wu].
    rewrite !nth_insert, (wu_gain_unfold (S k')).
    rewrite Hwl. unfold st1. cbn [wu]. rewrite length_insert.
    repeat case_decide; try lia; try lra.
    subst i. lra.
Qed.

(** Refinement: a V-cycle that returns has overwritten [u] with the iterate
    of [fas_vcycle], has touched no other array that existed before, and
    has recorded its sweeps and work units. *)
Lemma vcycle_sound k : sound_at self k.
Proof.
  induction k as [|k' IH].
  - destruct (decide (0%nat = kcoarse self)) as [E|E].
    + rewrite E. apply sound_at_coarse.
    + intros u ell st st' u0 l _ _ _ Hrun.
      rewrite vcycle_unfold_fas in Hrun. case_decide; [done|].
      apply SE_bind_Ok in Hrun as ([] & st0 & Hassert & _).
      apply lift_Ok in Hassert as [Hassert _].
      apply py_assert_Ok, Nat.ltb_lt in Hassert. lia.
  - destruct (decide (S k' = kcoarse self)) as [E|E].
    + rewrite E. apply sound_at_coarse.
    + intros u ell st st' u0 l Hne Hu Hl Hrun.
      destruct (vcycle_step k' u ell st st' u0 l IH E Hne Hu Hl Hrun)
        as (M & Mc & u1 & Fu & r & Ru & cr & FRu & cell & uc & du & pdu & u2
            & u' & Ru_loc & cell_loc & uc_loc & st1 & st2 & Hlt & HM & HMc
            & Hs1 & HFu & Hr & HRu & Hcr & HFRu & Hcell & _ & _ & _ & _ & _
            & _ & _ & _ & Hfas & Hdu & Hpdu & Hu2 & Hs2 & Hupd & Hsw & Hwl
            & Hwu).
      exists u'. split; [|done].
      rewrite fas_vcycle_unfold. case_decide; [done|].
      apply Nat.ltb_lt in Hlt. rewrite Hlt.
      unfold mesh. rewrite Hs1, bind_Ok, HM, bind_Ok, HFu, bind_Ok, Hr,
        bind_Ok, HRu, bind_Ok, Hcr, bind_Ok, HMc, bind_Ok, HFRu, bind_Ok,
        Hcell, bind_Ok, Hfas, bind_Ok, Hdu, bind_Ok, Hpdu, bind_Ok, Hu2,
        bind_Ok.
      exact Hs2.
Qed.

(** C1.  A V-cycle call on a level [k > kcoarse] that returns has, after
    [down] forward sweeps giving [u1], formed the fine residual
    [r = ell - F(h_k, u1)], the restriction [Ru = Rfw(u1)] and the coarse
    right-hand side [CR(r) + F(h_(k-1), Ru)]; has run the V-cycle of level
    [k-1] on a fresh array holding a copy of [Ru], which leaves the array of
    [Ru] itself as it was and yields [uc]; and has then added [P(uc - Ru)]
    to [u1] before the [up] backward sweeps. *)
Theorem fas_vcycle_coarse_correction k u ell st st' (u0 l : vec) :
  (kcoarse self < k)%nat →
  u ≠ ell → store st !! u = Some u0 → store st !! ell = Some l →
  vcycle self k u ell st = Ok (tt, st') →
  ∃ (M Mc : MeshLevel) (u1 Fu r Ru cr FRu cell uc du pdu u2 u' : vec)
    (Ru_loc cell_loc uc_loc : loc) (st1 st2 : state),
    meshes self !! k = Some M ∧ meshes self !! (k - 1)%nat = Some Mc
    ∧ sweep_n self (Z.to_nat (down self)) k true l u0 = Ok u1
    ∧ F (prob self) (h M) u1 = Ok Fu ∧ np_sub l Fu = Ok r
    ∧ Rfw M u1 = Ok Ru
    ∧ CR M r = Ok cr ∧ F (prob self) (h Mc) Ru = Ok FRu
    ∧ np_add cr FRu = Ok cell
    ∧ uc_loc ≠ Ru_loc
    ∧ store st1 !! Ru_loc = Some Ru ∧ store st1 !! uc_loc = Some Ru
    ∧ store st1 !! cell_loc = Some cell
    ∧ vcycle self (k - 1) uc_loc cell_loc st1 = Ok (tt, st2)
    ∧ store st2 !! uc_loc = Some uc ∧ store st2 !! Ru_loc = Some Ru
    ∧ fas_vcycle self (k - 1) Ru cell = Ok uc
    ∧ np_sub uc Ru = Ok du ∧ P M du = Ok pdu ∧ np_iadd u1 pdu = Ok u2
    ∧ sweep_n self (Z.to_nat (up self)) k false l u2 = Ok u'
    ∧ store st' !! u = Some u'.
Proof.
  intros Hk Hne Hu Hl Hrun. destruct k as [|k']; [lia|].
  replace (S k' - 1)%nat with k' by lia.
  destruct (vcycle_step k' u ell st st' u0 l (vcycle_sound k') ltac:(lia)
              Hne Hu Hl Hrun)
    as (M & Mc & u1 & Fu & r & Ru & cr & FRu & cell & uc & du & pdu & u2
        & u' & Ru_loc & cell_loc & uc_loc & st1 & st2 & Hlt & HM & HMc
        & Hs1 & HFu & Hr & HRu & Hcr & HFRu & Hcell & Hn1 & Hn2 & H1 & H2
        & H3 & Hrec & H4 & H5 & Hfas & Hdu & Hpdu & Hu2 & Hs2
        & (_ & Hupd & _) & _).
  exists M, Mc, u1, Fu, r, Ru, cr, FRu, cell, uc, du, pdu, u2, u',
    Ru_loc, cell_loc, uc_loc, st1, st2.
  repeat (split; [done|]). done.
Qed.

(* ----------------------------------------------------------------- *)
(** *** The cycle returns whenever its steps are defined *)

Lemma result_bind_Ok {A B : Type} (r : result A) (f : A → result B) b :
  (r ≫= f) = Ok b → ∃ a, r = Ok a ∧ f a = Ok b.
Proof. destruct r as [a|e]; [|done]. intros Hf. by exists a. Qed.

Lemma mesh_at_run k st M :
  meshes self !! k = Some M → mesh_at self k st = Ok (M, st).
Proof. intros H. unfold mesh_at. by rewrite H. Qed.

Lemma load_run l st (v : vec) :
  store st !! l = Some v → load l st = Ok (v, st).
Proof. intros H. unfold load. by rewrite H. Qed.

Lemma assign_run l (v : vec) st :
  (l < length (store st))%nat →
  assign l v st
  = Ok (tt, {| store := <[l := v]> (store st); wu := wu st;
               sweeps := sweeps st |}).
Proof.
  intros H. unfold assign.
  by destruct (lookup_lt_is_Some_2 (store st) l H) as [x ->].
Qed.

Lemma wu_add_run k x st :
  (k < length (wu st))%nat →
  wu_add k x st
  = Ok (tt, {| store := store st;
               wu := <[k := nth k (wu st) 0 + x]> (wu st);
               sweeps := sweeps st |}).
Proof.
  intros Hk. unfold wu_add.
  by rewrite getitem_nat, bind_Ok, setitem_nat by done.
Qed.

Lemma points_loop_run k M w ell (lc : vec) ps :
  meshes self !! k = Some M → w ≠ ell →
  ∀ st (wc : vec),
  store st !! w = Some wc → store st !! ell = Some lc →
  for_each ps (fun p =>
      M ← mesh_at self k;
      wc ← load w;
      ec ← load ell;
      assign w (ngspoint (prob self) (h M) wc ec p (niters self))) st
  = Ok (tt, {| store := <[w := relax_points self M lc ps wc]> (store st);
               wu := wu st; sweeps := sweeps st |}).
Proof.
  intros HM Hne. induction ps as [|p ps IH]; intros st wc Hw Hl.
  - unfold relax_points. cbn [for_each foldl].
    rewrite list_insert_id by done. by destruct st.
  - assert (w < length (store st))%nat as Hlt by (by eapply lookup_lt_Some).
    cbn [for_each].
    erewrite SE_bind_run; cycle 1.
    { erewrite SE_bind_run by (by apply mesh_at_run).
      erewrite SE_bind_run by (by apply load_run).
      erewrite SE_bind_run by (by apply load_run).
      by apply assign_run. }
    rewrite (IH _ (ngspoint (prob self) (h M) wc lc p (niters self)));
      cbn [store wu sweeps].
    + by rewrite list_insert_insert_eq.
    + by apply list_lookup_insert_eq.
    + by rewrite list_lookup_insert_ne.
Qed.

Lemma ngssweep_run k w ell fwd st (wc lc w' : vec) :
  w ≠ ell → store st !! w = Some wc → store st !! ell = Some lc →
  sweep self k fwd lc wc = Ok w' →
  ngssweep self k w ell fwd st
  = Ok (tt, {| store := <[w := w']> (store st); wu := wu st;
               sweeps := sweeps st ++ [(k, fwd)] |}).
Proof.
  intros Hne Hw Hl Hs. unfold sweep, mesh in Hs.
  destruct (meshes self !! k) as [M|] eqn:HM; [|done].
  rewrite bind_Ok in Hs. injection Hs as <-.
  unfold ngssweep.
  erewrite SE_bind_run by (by apply mesh_at_run).
  erewrite SE_bind_run by reflexivity.
  by rewrite (points_loop_run k M w ell lc _ HM Hne _ wc).
Qed.

Lemma sweeps_loop_run k w ell fwd (lc : vec) (qs : list nat) :
  w ≠ ell →
  ∀ st (wc w' : vec),
  store st !! w = Some wc → store st !! ell = Some lc →
  sweep_n self (length qs) k fwd lc wc = Ok w' →
  for_each qs (fun q => ngssweep self k w ell fwd) st
  = Ok (tt, {| store := <[w := w']> (store st); wu := wu st;
               sweeps := sweeps st ++ replicate (length qs) (k, fwd) |}).
Proof.
  intros Hne. induction qs as [|q qs IH]; intros st wc w' Hw Hl Hs.
  - cbn in Hs. injection Hs as <-. cbn.
    rewrite list_insert_id, app_nil_r by done. by destruct st.
  - cbn [length sweep_n] in Hs.
    apply result_bind_Ok in Hs as (w1 & Hs1 & Hs).
    assert (w < length (store st))%nat as Hlt by (by eapply lookup_lt_Some).
    cbn [for_each].
    erewrite SE_bind_run by (by eapply ngssweep_run).
    rewrite (IH _ w1 w'); cbn [store wu sweeps]; try done.
    + rewrite list_insert_insert_eq. cbn [length replicate].
      by rewrite <- app_assoc.
    + by apply list_lookup_insert_eq.
    + by rewrite list_lookup_insert_ne.
Qed.

Lemma alloc_run (v : vec) st :
  alloc v st
  = Ok (length (store st),
        {| store := store st ++ [v]; wu := wu st; sweeps := sweeps st |}).
Proof. reflexivity. Qed.

(** Completeness: when the steps of [fas_vcycle] are all defined and [wu]
    has an entry for every level visited, the V-cycle returns. *)
Lemma vcycle_complete k :
  ∀ u ell st (u0 l u' : vec),
  u ≠ ell → store st !! u = Some u0 → store st !! ell = Some l →
  (∀ i, (i ≤ k)%nat → (i < length (wu st))%nat) →
  fas_vcycle self k u0 l = Ok u' →
  ∃ st', vcycle self k u ell st = Ok (tt, st').
Proof.
  induction k as [|k' IH]; intros u ell st u0 l u' Hne Hu Hl Hwu Hfas;
    rewrite fas_vcycle_unfold in Hfas; rewrite vcycle_unfold_fas;
    case_decide as Hk.
  1,3: unfold coarsesolve; rewrite <- Hk;
       erewrite SE_bind_run
         by (eapply sweeps_loop_run; [done|done|done|];
             rewrite length_range0; exact Hfas);
       rewrite wu_add_run by (cbn [wu]; apply Hwu; lia);
       by eexists.
  - done.
  - destruct (Nat.ltb_spec (kcoarse self) (S k')) as [Hlt|]; [|done].
    apply result_bind_Ok in Hfas as (u1 & Hs1 & Hfas).
    unfold mesh in Hfas.
    destruct (meshes self !! S k') as [M|] eqn:HM; [|done].
    rewrite bind_Ok in Hfas.
    apply result_bind_Ok in Hfas as (Fu & HFu & Hfas).
    apply result_bind_Ok in Hfas as (r & Hr & Hfas).
    apply result_bind_Ok in Hfas as (Ru & HRu & Hfas).
    apply result_bind_Ok in Hfas as (cr & Hcr & Hfas).
    destruct (meshes self !! k') as [Mc|] eqn:HMc; [|done].
    rewrite bind_Ok in Hfas.
    apply result_bind_Ok in Hfas as (FRu & HFRu & Hfas).
    apply result_bind_Ok in Hfas as (cell & Hcell & Hfas).
    apply result_bind_Ok in Hfas as (uc & Hrec & Hfas).
    apply result_bind_Ok in Hfas as (du & Hdu & Hfas).
    apply result_bind_Ok in Hfas as (pdu & Hpdu & Hfas).
    apply result_bind_Ok in Hfas as (u2 & Hu2 & Hs2).
    assert (u < length (store st))%nat as Hult by (by eapply lookup_lt_Some).
    assert (ell < length (store st))%nat as Hllt
      by (by eapply lookup_lt_Some).
    cbn [py_assert]. erewrite SE_bind_run by reflexivity.
    erewrite SE_bind_run
      by (eapply sweeps_loop_run; [done|done|done|];
          rewrite length_range0; exact Hs1).
    rewrite length_range0.
    erewrite SE_bind_run by (apply wu_add_run; cbn [wu]; apply Hwu; lia).
    cbn [store wu sweeps].
    set (S0 := <[u:=u1]> (store st)).
    assert (length S0 = length (store st)) as HS0 by apply length_insert.
    assert (S0 !! u = Some u1) as HS0u by (by apply list_lookup_insert_eq).
    assert (S0 !! ell = Some l) as HS0l
      by (unfold S0; by rewrite list_lookup_insert_ne).
    erewrite SE_bind_run by (by apply load_run).
    erewrite SE_bind_run by (by apply mesh_at_run).
    erewrite SE_bind_run by (by apply load_run).
    rewrite HFu. erewrite SE_bind_run by reflexivity.
    rewrite Hr. erewrite SE_bind_run by reflexivity.
    erewrite SE_bind_run by (by apply mesh_at_run).
    erewrite SE_bind_run by (by apply load_run).
    rewrite HRu. erewrite SE_bind_run by reflexivity.
    erewrite SE_bind_run by apply alloc_run. cbn [store wu sweeps].
    erewrite SE_bind_run by (by apply mesh_at_run).
    rewrite Hcr. erewrite SE_bind_run by reflexivity.
    erewrite SE_bind_run by (by apply mesh_at_run).
    erewrite SE_bind_run
      by (apply load_run; cbn [store]; by apply list_lookup_middle).
    rewrite HFRu. erewrite SE_bind_run by reflexivity.
    rewrite Hcell. erewrite SE_bind_run by reflexivity.
    erewrite SE_bind_run by apply alloc_run. cbn [store wu sweeps].
    erewrite SE_bind_run
      by (apply load_run; cbn [store];
          rewrite lookup_app_l by (rewrite length_app; simpl; lia);
          by apply list_lookup_middle).
    erewrite SE_bind_run by apply alloc_run. cbn [store wu sweeps].
    match goal with
    | |- ∃ st', (vcycle _ _ ?a ?b ≫= _) ?s = _ =>
        set (uc_loc := a); set (cell_loc := b); set (st1 := s)
    end.
    assert (uc_loc = S (S (length S0))) as Huc
      by (unfold uc_loc; rewrite !length_app; simpl; lia).
    assert (cell_loc = S (length S0)) as Hcl
      by (unfold cell_loc; rewrite !length_app; simpl; lia).
    assert (store st1 !! uc_loc = Some Ru) as Huc1.
    { unfold st1, uc_loc. cbn [store]. by apply list_lookup_middle. }
    assert (store st1 !! cell_loc = Some cell) as Hcell1.
    { unfold st1, cell_loc. cbn [store].
      rewrite lookup_app_l by (rewrite !length_app; simpl; lia).
      by apply list_lookup_middle. }
    assert (store st1 !! length S0 = Some Ru) as HRu1.
    { unfold st1. cbn [store].
      rewrite !lookup_app_l by (rewrite ?length_app; simpl; lia).
      by apply list_lookup_middle. }
    assert (∀ x, (x < length S0)%nat → store st1 !! x = S0 !! x) as Hold1.
    { intros x Hx. unfold st1. cbn [store].
      by rewrite !lookup_app_l by (rewrite ?length_app; simpl; lia). }
    assert (length (store st1) = S (S (S (length S0)))) as Hlen1
      by (unfold st1; cbn [store]; rewrite !length_app; simpl; lia).
    destruct (IH uc_loc cell_loc st1 Ru cell uc) as [st2 Hrun2];
      [lia|done|done| |done|].
    { intros i Hi. unfold st1. cbn [wu]. rewrite length_insert.
      apply Hwu. lia. }
    destruct (vcycle_sound k' uc_loc cell_loc st1 st2 Ru cell) as
      (uc' & Hfas' & (Hgrow & Hucl & Hframe) & _ & Hwl & _);
      [lia|done|done|done|].
    assert (uc' = uc) as -> by congruence.
    erewrite SE_bind_run by exact Hrun2.
    erewrite SE_bind_run by (by apply load_run).
    erewrite SE_bind_run
      by (apply load_run; by rewrite Hframe, HRu1 by lia).
    rewrite Hdu. erewrite SE_bind_run by reflexivity.
    erewrite SE_bind_run by (by apply mesh_at_run).
    rewrite Hpdu. erewrite SE_bind_run by reflexivity.
    erewrite SE_bind_run
      by (apply load_run; by rewrite Hframe, Hold1 by lia).
    rewrite Hu2. erewrite SE_bind_run by reflexivity.
    erewrite SE_bind_run by (apply assign_run; lia).
    erewrite SE_bind_run.
    2:{ eapply sweeps_loop_run with (wc := u2) (lc := l); [done| | |];
          cbn [store].
        - apply list_lookup_insert_eq. lia.
        - rewrite list_lookup_insert_ne by done.
          by rewrite Hframe, Hold1 by lia.
        - rewrite length_range0. exact Hs2. }
    rewrite wu_add_run; [by eexists|].
    cbn [wu]. rewrite Hwl. unfold st1. cbn [wu]. rewrite length_insert.
    apply Hwu. lia.
Qed.

End CyclesFacts.

(* ================================================================= *)
(** ** Work units *)

Section WorkUnits.

Import Cycles CycleSpec.

Context (self : FAS).

Lemma sum_below_rev f n :
  sum_below f n = sum_below (fun i => f (n - 1 - i)%nat) n.
Proof.
  induction n as [|n IH]; [done|].
  rewrite (sum_below_shift (fun i => f (S n - 1 - i)%nat)).
  change (sum_below f (S n)) with (sum_below f n + f n). rewrite IH.
  replace (S n - 1 - 0)%nat with n by lia.
  rewrite (sum_below_ext (fun i => f (S n - 1 - S i)%nat)
             (fun i => f (n - 1 - i)%nat)).
  - lra.
  - intros i Hi. f_equal. lia.
Qed.

Lemma for_in_accumulate (g : nat → R) (body : nat → R → result R) n :
  ∀ a t,
  (∀ k t, (a ≤ k < a + n)%nat → body k t = Ok (t + g k)) →
  for_in (seq a n) body t = Ok (t + sum_below (fun i => g (a + i)%nat) n).
Proof.
  induction n as [|n IH]; intros a t Hb.
  - cbn. f_equal. lra.
  - cbn [seq for_in]. rewrite Hb, bind_Ok by lia.
    rewrite IH by (intros; apply Hb; lia).
    f_equal. rewrite sum_below_shift.
    rewrite (sum_below_ext (fun i => g (S a + i)%nat)
               (fun i => g (a + S i)%nat)) by (intros; f_equal; lia).
    replace (a + 0)%nat with a by lia. lra.
Qed.

(** [wutotal] is the sum of the [wu[k]] weighted by [2^-(kfine-k)]. *)
Lemma wutotal_weighted_sum st :
  length (wu st) = (kfine self + 1)%nat →
  wutotal self st
  = Ok (sum_below (fun k => nth k (wu st) 0 / 2 ^ (kfine self - k))
          (kfine self + 1), st).
Proof.
  intros Hl. unfold wutotal, range.
  rewrite (for_in_accumulate
             (fun k => nth (kfine self - k) (wu st) 0 / 2 ^ k)).
  - do 2 f_equal. rewrite Rplus_0_l.
    replace (kfine self + 1 - 0)%nat with (kfine self + 1)%nat by lia.
    rewrite (sum_below_rev (fun k => nth k (wu st) 0 / 2 ^ (kfine self - k))).
    apply sum_below_ext. intros i Hi. cbn [Nat.add].
    replace (kfine self + 1 - 1 - i)%nat with (kfine self - i)%nat by lia.
    replace (kfine self - (kfine self - i))%nat with i by lia. done.
  - intros k t Hk. rewrite getitem_nat, bind_Ok by lia. done.
Qed.

Lemma count_sweeps_app k l1 l2 :
  count_sweeps k (l1 ++ l2) = (count_sweeps k l1 + count_sweeps k l2)%nat.
Proof. unfold count_sweeps. by rewrite filter_app, length_app. Qed.

Lemma count_sweeps_replicate k n i b :
  count_sweeps k (replicate n (i, b)) = if decide (i = k) then n else 0%nat.
Proof.
  unfold count_sweeps. induction n as [|n IH]; cbn [replicate].
  - by case_decide.
  - rewrite filter_cons. cbn [fst]. repeat case_decide; try done.
    cbn [length]. by rewrite IH.
Qed.

(** With non-negative sweep counts, what a V-cycle adds to [wu[i]] is the
    number of sweeps it makes on level [i]. *)
Lemma wu_gain_counts k i :
  (0 ≤ coarse self)%Z → (0 ≤ down self)%Z → (0 ≤ up self)%Z →
  wu_gain self k i = INR (count_sweeps i (sweep_log self k)).
Proof.
  intros Hc Hd Hu.
  assert (∀ z, (0 ≤ z)%Z → INR (Z.to_nat z) = IZR z) as Hconv.
  { intros z Hz. rewrite INR_IZR_INZ, Z2Nat.id by done. done. }
  induction k as [|k' IH]; rewrite wu_gain_unfold, sweep_log_unfold.
  - destruct (decide (0%nat = kcoarse self)).
    + rewrite count_sweeps_replicate.
      repeat case_decide; try lia; [by rewrite Hconv|done].
    + done.
  - destruct (decide (S k' = kcoarse self)).
    + rewrite count_sweeps_replicate.
      repeat case_decide; try lia; [by rewrite Hconv|done].
    + rewrite !count_sweeps_app, !count_sweeps_replicate, !plus_INR, IH.
      repeat case_decide; try lia; rewrite ?Hconv by done; simpl; lra.
Qed.

(** In a V(1,0) cycle with one coarse sweep, each level from [kcoarse] up
    to [k] is swept once and no other level is swept. *)
Lemma sweep_log_once k i :
  coarse self = 1%Z → down self = 1%Z → up self = 0%Z →
  (kcoarse self ≤ k)%nat →
  count_sweeps i (sweep_log self k)
  = if decide (kcoarse self ≤ i ≤ k)%nat then 1%nat else 0%nat.
Proof.
  intros Hc Hd Hu. induction k as [|k' IH]; intros Hk;
    rewrite sweep_log_unfold.
  - destruct (decide (0%nat = kcoarse self)); [|lia].
    rewrite Hc, count_sweeps_replicate.
    repeat case_decide; try lia; done.
  - destruct (decide (S k' = kcoarse self)).
    + rewrite Hc, count_sweeps_replicate.
      repeat case_decide; try lia; done.
    + rewrite Hd, Hu. rewrite !count_sweeps_app, !count_sweeps_replicate.
      rewrite IH by lia. change (Z.to_nat 1) with 1%nat.
      repeat case_decide; try lia; done.
Qed.

Lemma sum_below_zero_tail f a n :
  (a ≤ n)%nat → (∀ i, (a ≤ i < n)%nat → f i = 0) →
  sum_below f n = sum_below f a.
Proof.
  intros Ha Hz. induction n as [|n IH].
  - by replace a with 0%nat by lia.
  - destruct (decide (a = S n)) as [->|Hne]; [done|].
    cbn [sum_below]. rewrite IH, Hz by (intros; (apply Hz || idtac); lia).
    lra.
Qed.

(** C5.  [wutotal] returns the sum of [wu[k] * 2^-(kfine-k)] over the
    levels [0..kfine], for every state of the object; and after one V-cycle
    from the finest level of a fresh [FAS] object with [down = 1],
    [up = 0], [coarse = 1] that total is the sum of [2^-(kfine-k)] times
    the number of sweeps made on level [k], which is one on each level of
    the hierarchy. *)
Theorem wutotal_after_vcycle :
  (∀ st, length (wu st) = (kfine self + 1)%nat →
     wutotal self st
     = Ok (sum_below (fun k => nth k (wu st) 0 / 2 ^ (kfine self - k))
             (kfine self + 1), st))
  ∧ (∀ u ell arrays st',
       coarse self = 1%Z → down self = 1%Z → up self = 0%Z →
       (kcoarse self ≤ kfine self)%nat →
       u ≠ ell → is_Some (arrays !! u) → is_Some (arrays !! ell) →
       vcycle self (kfine self) u ell (init_state self arrays)
       = Ok (tt, st') →
       wutotal self st'
       = Ok (sum_below (fun k => INR (count_sweeps k (sweeps st'))
                                 / 2 ^ (kfine self - k))
               (kfine self + 1), st')
       ∧ (∀ k, (kcoarse self ≤ k ≤ kfine self)%nat →
            count_sweeps k (sweeps st') = 1%nat)
       ∧ (∀ k, (k < kcoarse self)%nat →
            count_sweeps k (sweeps st') = 0%nat)
       ∧ wutotal self st'
         = Ok (sum_below (fun i => 1 / 2 ^ i)
                 (kfine self - kcoarse self + 1), st')).
Proof.
  split; [exact wutotal_weighted_sum|].
  intros u ell arrays st'.
  intros Hc Hd Hu Hk Hne [u0 Hu0] [l Hl] Hrun.
  destruct (vcycle_sound self (kfine self) u ell (init_state self arrays) st'
              u0 l Hne Hu0 Hl Hrun)
    as (u' & _ & _ & Hsw & Hwl & Hwu).
  cbn [init_state sweeps wu] in Hsw, Hwl, Hwu.
  rewrite app_nil_l in Hsw. rewrite length_np_zeros in Hwl.
  assert (∀ k, nth k (wu st') 0 = INR (count_sweeps k (sweeps st')))
    as Hcount.
  { intros k. rewrite Hwu, nth_np_zeros, Hsw, wu_gain_counts by lia. lra. }
  split; [|split; [|split]].
  - rewrite wutotal_weighted_sum by done. do 2 f_equal.
    apply sum_below_ext. intros k _. by rewrite Hcount.
  - intros k Hkk. rewrite Hsw, sweep_log_once by done.
    case_decide; [done|lia].
  - intros k Hkk. rewrite Hsw, sweep_log_once by done.
    case_decide; [lia|done].
  - rewrite wutotal_weighted_sum by done. do 2 f_equal.
    rewrite sum_below_rev.
    rewrite (sum_below_zero_tail _ (kfine self - kcoarse self + 1)).
    + apply sum_below_ext. intros i Hi.
      replace (kfine self + 1 - 1 - i)%nat with (kfine self - i)%nat by lia.
      rewrite Hcount, Hsw, sweep_log_once by done.
      replace (kfine self - (kfine self - i))%nat with i by lia.
      case_decide; [simpl; lra|lia].
    + lia.
    + intros i Hi.
      replace (kfine self + 1 - 1 - i)%nat with (kfine self - i)%nat by lia.
      rewrite Hcount, Hsw, sweep_log_once by done.
      case_decide; [lia|]. simpl. lra.
Qed.

End WorkUnits.

Lemma demo_vcycle_runs :
  ∃ st', Cycles.vcycle demo_fas 1 0%nat 1%nat
           (Cycles.init_state demo_fas demo_arrays) = Ok (tt, st').
Proof.
  eexists. lazy -[Rplus Rminus Rmult Rdiv Rinv Ropp IZR INR]. reflexivity.
Qed.

Lemma fas_vcycle_coarse_correction_witness :
  ∃ (st' : Cycles.state) (Ru cell uc u' : vec),
    Cycles.vcycle demo_fas 1 0%nat 1%nat
      (Cycles.init_state demo_fas demo_arrays) = Ok (tt, st')
    ∧ CycleSpec.fas_vcycle demo_fas 0 Ru cell = Ok uc
    ∧ Cycles.store st' !! 0%nat = Some u'.
Proof.
  destruct demo_vcycle_runs as [st' Hrun].
  destruct (fas_vcycle_coarse_correction demo_fas 1 0%nat 1%nat
              (Cycles.init_state demo_fas demo_arrays) st'
              [0; 0; 0; 0; 0] [0; 1; 2; 1; 0])
    as (M & Mc & u1 & Fu & r & Ru & cr & FRu & cell & uc & du & pdu & u2
        & u' & Ru_loc & cell_loc & uc_loc & st1 & st2 & H);
    [simpl; lia|done|reflexivity|reflexivity|exact Hrun|].
  exists st', Ru, cell, uc, u'. split; [exact Hrun|].
  destruct H as (_ & _ & _ & _ & _ & _ & _ & _ & _ & _ & _ & _ & _ & _ & _
                 & _ & Hfas & _ & _ & _ & _ & Hu').
  split; [exact Hfas|exact Hu'].
Defined.

Lemma wutotal_after_vcycle_witness :
  ∃ st' : Cycles.state,
    Cycles.vcycle demo_fas 1 0%nat 1%nat
      (Cycles.init_state demo_fas demo_arrays) = Ok (tt, st')
    ∧ Cycles.wutotal demo_fas st'
      = Ok (sum_below (fun k =>
                INR (CycleSpec.count_sweeps k (Cycles.sweeps st'))
                / 2 ^ (1 - k)) 2, st')
    ∧ CycleSpec.count_sweeps 0 (Cycles.sweeps st') = 1%nat
    ∧ CycleSpec.count_sweeps 1 (Cycles.sweeps st') = 1%nat.
Proof.
  destruct demo_vcycle_runs as [st' Hrun].
  destruct (proj2 (wutotal_after_vcycle demo_fas) 0%nat 1%nat demo_arrays
              st')
    as (Htot & Hone & _ & _);
    [reflexivity|reflexivity|reflexivity|simpl; lia|done
    |by eexists|by eexists|exact Hrun|].
  exists st'. split; [exact Hrun|]. split; [exact Htot|].
  split; apply Hone; simpl; lia.
Defined.

(* ================================================================= *)
(** ** Full-weighting restriction of [src/py/meshlevel.py] *)

(** The stencil of full weighting at the coarse node [q]. *)
Lemma full_weighting_loop n (w : vec) (y0 : vec) :
  (1 ≤ n)%nat → length w = (2 * n + 1)%nat → length y0 = (n + 1)%nat →
  ∃ y : vec,
    for_in (range 1 (length y0 - 1)) (fun q y =>
        a ← getitem w (Z.of_nat (2 * q - 1));
        c ← getitem w (Z.of_nat (2 * q + 1));
        b ← getitem w (Z.of_nat (2 * q));
        setitem y (Z.of_nat q) (0.25 * (a + c) + 0.5 * b)) y0 = Ok y
    ∧ length y = (n + 1)%nat
    ∧ ∀ q, nth q y 0 =
        if decide (0 < q < n)%nat then 0.5 * stencil w q else nth q y0 0.
Proof.
  intros Hn Hw Hy0. unfold range. rewrite Hy0.
  edestruct (for_in_set
    (fun q y =>
       a ← getitem w (Z.of_nat (2 * q - 1));
       c ← getitem w (Z.of_nat (2 * q + 1));
       b ← getitem w (Z.of_nat (2 * q));
       setitem y (Z.of_nat q) (0.25 * (a + c) + 0.5 * b))
    (fun q => 0.5 * stencil w q) (n + 1 - 1 - 1) 1%nat (n + 1)%nat y0)
    as (y & Hr & Hl & Hp).
  - done.
  - lia.
  - intros q z Hq Hz. cbv beta. run. do 2 f_equal. unfold stencil. lra.
  - exists y. split; [exact Hr|]. split; [exact Hl|]. intros q.
    rewrite Hp. repeat case_decide; try lia; done.
Qed.

Lemma VR0_closed_form k (w : vec) :
  (0 < k)%nat → length w = (2 ^ (k + 1) + 1)%nat →
  ∃ y : vec, PyMesh.VR0 (PyMesh.init k) w = Ok y
    ∧ length y = (2 ^ k + 1)%nat
    ∧ ∀ q, nth q y 0 =
        if decide (0 < q < 2 ^ k)%nat then 0.5 * stencil w q else 0.
Proof.
  intros Hk Hw. pose proof (pow2_pos k) as Hn.
  unfold PyMesh.VR0.
  cbn [PyMesh.k PyMesh.m PyMesh.mcoarser PyMesh.init].
  destruct (Nat.ltb_spec 0 k) as [_|]; [|lia].
  cbn [py_assert need_int]. rewrite !bind_Ok.
  rewrite Hw, Nat.eqb_refl. cbn [py_assert]. rewrite bind_Ok. cbv zeta.
  destruct (full_weighting_loop (2 ^ k) w (np_zeros (2 ^ k + 1)))
    as (y & Hr & Hl & Hp); [done|by rewrite Hw, pow2_S|solve_len|].
  exists y. split; [exact Hr|]. split; [exact Hl|]. intros q.
  rewrite Hp, nth_np_zeros. done.
Qed.

Lemma VR_closed_form k (w : vec) :
  (0 < k)%nat → length w = (2 ^ (k + 1) + 1)%nat →
  ∃ y : vec, PyMesh.VR (PyMesh.init k) w = Ok y
    ∧ length y = (2 ^ k + 1)%nat
    ∧ ∀ q, nth q y 0 =
        if decide (q = 0)%nat then (2 / 3) * nth 0 w 0 + (1 / 3) * nth 1 w 0
        else if decide (q = 2 ^ k)%nat then
          (1 / 3) * nth (2 ^ (k + 1) - 1) w 0
          + (2 / 3) * nth (2 ^ (k + 1)) w 0
        else if decide (q < 2 ^ k)%nat then 0.5 * stencil w q else 0.
Proof.
  intros Hk Hw. pose proof (pow2_pos k) as Hn.
  unfold PyMesh.VR.
  cbn [PyMesh.k PyMesh.m PyMesh.mcoarser PyMesh.init].
  rewrite Hw, Nat.eqb_refl. cbn [py_assert]. rewrite bind_Ok.
  destruct (Nat.ltb_spec 0 k) as [_|]; [|lia].
  cbn [py_assert need_int]. rewrite !bind_Ok. cbv zeta.
  assert (length w = (2 * 2 ^ k + 1)%nat) as Hw' by (by rewrite Hw, pow2_S).
  run.
  destruct (full_weighting_loop (2 ^ k) w
              (<[0%nat:=2 / 3 * nth 0 w 0 + 1 / 3 * nth 1 w 0]>
                 (np_zeros (2 ^ k + 1))))
    as (y & Hr & Hl & Hp); [done|done|solve_len|].
  rewrite Hr. run.
  eexists. split; [done|]. split; [solve_len|]. intros q.
  rewrite nth_insert, Hl, Hp, nth_insert, nth_np_zeros, length_np_zeros.
  rewrite Hw, pow2_S.
  replace (2 ^ k + 1 - 1)%nat with (2 ^ k)%nat by lia.
  replace (2 * 2 ^ k + 1 - 2)%nat with (2 * 2 ^ k - 1)%nat by lia.
  replace (2 * 2 ^ k + 1 - 1)%nat with (2 * 2 ^ k)%nat by lia.
  repeat case_decide; try lia; done.
Qed.

(** X1.  Full weighting of a vector is half the canonical restriction of
    the same entries: on every level [k > 0] and for every vector [v] of
    the level, [VR0(v)] and [CR(v)] both return, and [VR0(v) = 0.5 * CR(v)]
    entry by entry (exact arithmetic). *)
Theorem VR0_is_half_CR k (v : vec) :
  (0 < k)%nat → length v = (PyMesh.m (PyMesh.init k) + 1)%nat →
  ∃ y c : vec,
    PyMesh.VR0 (PyMesh.init k) v = Ok y
    ∧ PyMesh.CR (PyMesh.init k) v = Ok c
    ∧ y = np_smul 0.5 c.
Proof.
  intros Hk Hv. cbn [PyMesh.m PyMesh.init] in Hv.
  destruct (VR0_closed_form k v Hk Hv) as (y & Hy & Hly & Hyq).
  destruct (CR_closed_form k v Hk Hv) as (c & Hc & Hlc & Hcq).
  exists y, c. split; [done|]. split; [done|].
  apply vec_ext; [unfold np_smul; rewrite length_map; lia|].
  intros q. rewrite Hyq. unfold np_smul.
  destruct (decide (q < length c)%nat) as [Hq|Hq].
  - rewrite (nth_indep _ 0 (0.5 * 0)) by (rewrite length_map; lia).
    rewrite (map_nth (fun x => 0.5 * x) c 0 q), Hcq.
    case_decide; lra.
  - rewrite (nth_overflow (map _ _)) by (rewrite length_map; lia).
    case_decide; [lia|done].
Qed.

Lemma VR0_is_half_CR_witness :
  ∃ y c : vec,
    PyMesh.VR0 (PyMesh.init 1) [1; 2; 3; 4; 5] = Ok y
    ∧ PyMesh.CR (PyMesh.init 1) [1; 2; 3; 4; 5] = Ok c
    ∧ y = np_smul 0.5 c.
Proof. apply (VR0_is_half_CR 1 [1; 2; 3; 4; 5]); [lia|reflexivity]. Defined.

(** X2.  [VR] restricts with the boundary nodes included: at the interior
    coarse nodes it agrees with [VR0], and at the two boundary nodes it
    takes [2/3] of the boundary value and [1/3] of its neighbour.  In exact
    arithmetic these weights sum to one, so that a vector that is constant
    on the fine mesh is restricted to the same constant on the whole coarse
    mesh; in float64 the two boundary entries of such a vector can be off
    by a rounding error. *)
Theorem VR_full_weighting k (v : vec) :
  (0 < k)%nat → length v = (PyMesh.m (PyMesh.init k) + 1)%nat →
  ∃ y y0 : vec,
    PyMesh.VR (PyMesh.init k) v = Ok y
    ∧ PyMesh.VR0 (PyMesh.init k) v = Ok y0
    ∧ length y = (2 ^ k + 1)%nat
    ∧ (∀ q, (0 < q < 2 ^ k)%nat → nth q y 0 = nth q y0 0)
    ∧ nth 0 y 0 = (2 / 3) * nth 0 v 0 + (1 / 3) * nth 1 v 0
    ∧ nth (2 ^ k) y 0
      = (1 / 3) * nth (PyMesh.m (PyMesh.init k) - 1) v 0
        + (2 / 3) * nth (PyMesh.m (PyMesh.init k)) v 0
    ∧ ∀ c, (∀ p, (p ≤ PyMesh.m (PyMesh.init k))%nat → nth p v 0 = c) →
        ∀ q, (q ≤ 2 ^ k)%nat → nth q y 0 = c.
Proof.
  intros Hk Hv. cbn [PyMesh.m PyMesh.init] in *.
  pose proof (pow2_pos k) as Hn. pose proof (pow2_S k) as HS.
  destruct (VR_closed_form k v Hk Hv) as (y & Hy & Hly & Hyq).
  destruct (VR0_closed_form k v Hk Hv) as (y0 & Hy0 & Hly0 & Hy0q).
  exists y, y0. split; [done|]. split; [done|]. split; [done|].
  split; [|split; [|split]].
  - intros q Hq. rewrite Hyq, Hy0q. repeat case_decide; try lia; done.
  - rewrite Hyq. case_decide; [done|lia].
  - rewrite Hyq. repeat case_decide; try lia; done.
  - intros c Hc q Hq. rewrite Hyq.
    repeat case_decide; try lia.
    + rewrite !Hc by lia. lra.
    + rewrite !Hc by lia. lra.
    + unfold stencil. rewrite !Hc by lia. lra.
Qed.

Lemma VR_full_weighting_witness :
  ∃ y y0 : vec,
    PyMesh.VR (PyMesh.init 1) [7; 7; 7; 7; 7] = Ok y
    ∧ PyMesh.VR0 (PyMesh.init 1) [7; 7; 7; 7; 7] = Ok y0
    ∧ length y = (2 ^ 1 + 1)%nat
    ∧ (∀ q, (0 < q < 2 ^ 1)%nat → nth q y 0 = nth q y0 0)
    ∧ nth 0 y 0 = (2 / 3) * nth 0 [7; 7; 7; 7; 7] 0
                  + (1 / 3) * nth 1 [7; 7; 7; 7; 7] 0
    ∧ nth (2 ^ 1) y 0
      = (1 / 3) * nth (PyMesh.m (PyMesh.init 1) - 1) [7; 7; 7; 7; 7] 0
        + (2 / 3) * nth (PyMesh.m (PyMesh.init 1)) [7; 7; 7; 7; 7] 0
    ∧ ∀ c, (∀ p, (p ≤ PyMesh.m (PyMesh.init 1))%nat
                 → nth p [7; 7; 7; 7; 7] 0 = c) →
        ∀ q, (q ≤ 2 ^ 1)%nat → nth q y 0 = c.
Proof. apply (VR_full_weighting 1 [7; 7; 7; 7; 7]); [lia|reflexivity]. Defined.

(* ================================================================= *)
(** ** Error behaviour of the transfer operators *)

(** X3.  The coarsest level has no coarser neighbour.  On level [0] of
    [src/py/meshlevel.py] the methods [prolong], [CR], [VR0] and [MR] fail
    their first assertion on every vector, while [VR], which checks the
    length first, reports the length of a vector that has not the three
    entries of the level.  On level [0] of [src/py/1D/meshlevel.py] the
    methods [cP], [injectP], [fwP], [cR] and [mR] fail their first
    assertion on every vector, and [checklen(v, coarser=True)] itself
    raises [TypeError], the attribute [mcoarser] being [None] there. *)
Theorem coarsest_level_has_no_transfers (v : vec) :
  PyMesh.prolong (PyMesh.init 0) v
  = Err (AssertionError PyMesh.msg_coarsest_prolong)
  ∧ PyMesh.CR (PyMesh.init 0) v
    = Err (AssertionError PyMesh.msg_coarsest_restrict)
  ∧ PyMesh.VR0 (PyMesh.init 0) v
    = Err (AssertionError PyMesh.msg_coarsest_restrict)
  ∧ PyMesh.MR (PyMesh.init 0) v
    = Err (AssertionError PyMesh.msg_coarsest_restrict)
  ∧ PyMesh.VR (PyMesh.init 0) v
    = Err (AssertionError
             (if decide (length v = 3%nat) then PyMesh.msg_coarsest_restrict
              else PyMesh.msg_len_v (length v) 3))
  ∧ Mesh1D.cP (Mesh1D.init 0) v
    = Err (AssertionError Mesh1D.msg_coarsest_prolong)
  ∧ Mesh1D.injectP (Mesh1D.init 0) v
    = Err (AssertionError Mesh1D.msg_coarsest_prolong)
  ∧ Mesh1D.fwP (Mesh1D.init 0) v
    = Err (AssertionError Mesh1D.msg_coarsest_prolong)
  ∧ Mesh1D.cR (Mesh1D.init 0) v
    = Err (AssertionError Mesh1D.msg_coarsest_restrict)
  ∧ Mesh1D.mR (Mesh1D.init 0) v
    = Err (AssertionError Mesh1D.msg_coarsest_restrict)
  ∧ Mesh1D.checklen (Mesh1D.init 0) v true = Err TypeError.
Proof.
  repeat split; try reflexivity.
  unfold PyMesh.VR. cbn [PyMesh.k PyMesh.m PyMesh.mcoarser PyMesh.init].
  change (2 ^ (0 + 1) + 1)%nat with 3%nat.
  destruct (Nat.eqb_spec (length v) 3); case_decide; try lia; reflexivity.
Qed.

(** X4.  Above the coarsest level every transfer checks the length of its
    argument before reading it.  The restrictions [CR], [VR0], [VR], [MR]
    of [src/py/meshlevel.py] and [cR], [mR] of [src/py/1D/meshlevel.py],
    and [ellf] and [l2norm] of the latter, reject a vector that has not the
    number of nodes of the level; the prolongations [prolong], [cP],
    [injectP] and [fwP] reject one that has not the number of nodes of the
    coarser level.  The message names the length found and the length
    wanted. *)
Theorem transfers_check_length k (v w : vec) :
  (0 < k)%nat →
  length v ≠ (2 ^ (k + 1) + 1)%nat →
  length w ≠ (2 ^ k + 1)%nat →
  PyMesh.CR (PyMesh.init k) v
  = Err (AssertionError (PyMesh.msg_len_v (length v) (2 ^ (k + 1) + 1)))
  ∧ PyMesh.VR0 (PyMesh.init k) v
    = Err (AssertionError (PyMesh.msg_len_v (length v) (2 ^ (k + 1) + 1)))
  ∧ PyMesh.VR (PyMesh.init k) v
    = Err (AssertionError (PyMesh.msg_len_v (length v) (2 ^ (k + 1) + 1)))
  ∧ PyMesh.MR (PyMesh.init k) v
    = Err (AssertionError (PyMesh.msg_len_v (length v) (2 ^ (k + 1) + 1)))
  ∧ PyMesh.prolong (PyMesh.init k) w
    = Err (AssertionError (PyMesh.msg_len_v (length w) (2 ^ k + 1)))
  ∧ Mesh1D.cR (Mesh1D.init k) v
    = Err (AssertionError (Mesh1D.msg_len (length v) (2 ^ (k + 1) + 1)))
  ∧ Mesh1D.mR (Mesh1D.init k) v
    = Err (AssertionError (Mesh1D.msg_len (length v) (2 ^ (k + 1) + 1)))
  ∧ Mesh1D.ellf (Mesh1D.init k) v
    = Err (AssertionError (Mesh1D.msg_len (length v) (2 ^ (k + 1) + 1)))
  ∧ Mesh1D.l2norm (Mesh1D.init k) v
    = Err (AssertionError (Mesh1D.msg_len (length v) (2 ^ (k + 1) + 1)))
  ∧ Mesh1D.cP (Mesh1D.init k) w
    = Err (AssertionError (Mesh1D.msg_len (length w) (2 ^ k + 1)))
  ∧ Mesh1D.injectP (Mesh1D.init k) w
    = Err (AssertionError (Mesh1D.msg_len (length w) (2 ^ k + 1)))
  ∧ Mesh1D.fwP (Mesh1D.init k) w
    = Err (AssertionError (Mesh1D.msg_len (length w) (2 ^ k + 1))).
Proof.
  intros Hk Hv Hw.
  pose proof (pow2_pos (k + 1)) as H1. pose proof (pow2_pos k) as H2.
  unfold PyMesh.CR, PyMesh.VR0, PyMesh.VR, PyMesh.MR, PyMesh.prolong,
    Mesh1D.cR, Mesh1D.mR, Mesh1D.ellf, Mesh1D.l2norm, Mesh1D.cP,
    Mesh1D.injectP, Mesh1D.fwP, Mesh1D.checklen.
  cbn [PyMesh.k PyMesh.m PyMesh.mcoarser PyMesh.init
       Mesh1D.j Mesh1D.m Mesh1D.mcoarser Mesh1D.init] in *.
  destruct (Nat.ltb_spec 0 k) as [_|]; [|lia].
  cbn [py_assert need_int]. rewrite !bind_Ok.
  replace (2 ^ (k + 1) - 1 + 2)%nat with (2 ^ (k + 1) + 1)%nat by lia.
  replace (2 ^ k - 1 + 2)%nat with (2 ^ k + 1)%nat by lia.
  destruct (Nat.eqb_spec (length v) (2 ^ (k + 1) + 1)); [done|].
  cbn [py_assert need_int]. rewrite ?bind_Ok.
  destruct (Nat.eqb_spec (length w) (2 ^ k + 1)); [done|].
  repeat split; reflexivity.
Qed.

Lemma transfers_check_length_witness :
  PyMesh.CR (PyMesh.init 1) [1; 2]
  = Err (AssertionError "input vector v is of length 2 (should be 5)")
  ∧ PyMesh.VR0 (PyMesh.init 1) [1; 2]
    = Err (AssertionError "input vector v is of length 2 (should be 5)")
  ∧ PyMesh.VR (PyMesh.init 1) [1; 2]
    = Err (AssertionError "input vector v is of length 2 (should be 5)")
  ∧ PyMesh.MR (PyMesh.init 1) [1; 2]
    = Err (AssertionError "input vector v is of length 2 (should be 5)")
  ∧ PyMesh.prolong (PyMesh.init 1) [1; 2; 3; 4]
    = Err (AssertionError "input vector v is of length 4 (should be 3)")
  ∧ Mesh1D.cR (Mesh1D.init 1) [1; 2]
    = Err (AssertionError "input vector is of length 2 (should be 5)")
  ∧ Mesh1D.mR (Mesh1D.init 1) [1; 2]
    = Err (AssertionError "input vector is of length 2 (should be 5)")
  ∧ Mesh1D.ellf (Mesh1D.init 1) [1; 2]
    = Err (AssertionError "input vector is of length 2 (should be 5)")
  ∧ Mesh1D.l2norm (Mesh1D.init 1) [1; 2]
    = Err (AssertionError "input vector is of length 2 (should be 5)")
  ∧ Mesh1D.cP (Mesh1D.init 1) [1; 2; 3; 4]
    = Err (AssertionError "input vector is of length 4 (should be 3)")
  ∧ Mesh1D.injectP (Mesh1D.init 1) [1; 2; 3; 4]
    = Err (AssertionError "input vector is of length 4 (should be 3)")
  ∧ Mesh1D.fwP (Mesh1D.init 1) [1; 2; 3; 4]
    = Err (AssertionError "input vector is of length 4 (should be 3)").
Proof.
  apply (transfers_check_length 1 [1; 2] [1; 2; 3; 4]);
    [lia|simpl; lia|simpl; lia].
Defined.

(* ================================================================= *)
(** ** Monotone restriction: boundary values, order, feasibility *)

(** All values of [MR] of [src/py/meshlevel.py], the boundary nodes
    included. *)
Lemma MR_closed_form k (v : vec) :
  (0 < k)%nat → length v = (2 ^ (k + 1) + 1)%nat →
  ∃ y : vec, PyMesh.MR (PyMesh.init k) v = Ok y
    ∧ length y = (2 ^ k + 1)%nat
    ∧ ∀ q, nth q y 0 =
        if decide (q = 0)%nat then Rmax (nth 0 v 0) (nth 1 v 0)
        else if decide (q = 2 ^ k)%nat then
          Rmax (nth (2 ^ (k + 1) - 1) v 0) (nth (2 ^ (k + 1)) v 0)
        else if decide (q < 2 ^ k)%nat then max3 v q else 0.
Proof.
  intros Hk Hv. pose proof (pow2_ge2 k Hk) as Hn.
  unfold PyMesh.MR.
  cbn [PyMesh.k PyMesh.m PyMesh.mcoarser PyMesh.init].
  destruct (Nat.ltb_spec 0 k) as [_|]; [|lia].
  cbn [py_assert need_int]. rewrite !bind_Ok.
  rewrite Hv, Nat.eqb_refl. cbn [py_assert]. rewrite !bind_Ok.
  rewrite pow2_S in *. set (n := (2 ^ k)%nat) in *.
  rewrite slice_head_two, slice_last_two by lia.
  rewrite !py_max_two. run.
  rewrite length_insert, length_np_zeros.
  unfold range.
  destruct (max_loop 1 (n + 1 - 1 - 1) v
              (<[0%nat:=Rmax (nth 0 v 0) (nth 1 v 0)]> (np_zeros (n + 1))))
    as (y & Hr & Hl & Hp); [lia|solve_len|lia|].
  rewrite Hr. rewrite length_insert, length_np_zeros in Hl. run.
  eexists. split; [reflexivity|]. split; [solve_len|].
  intros q. rewrite nth_insert, Hp, nth_insert, nth_np_zeros, Hl, Hv,
    length_np_zeros.
  replace (2 * n + 1 - 2)%nat with (2 * n - 1)%nat by lia.
  replace (2 * n + 1 - 1)%nat with (2 * n)%nat by lia.
  repeat case_decide; try lia; done.
Qed.

Lemma Rmax_mono a a' b b' : a <= a' → b <= b' → Rmax a b <= Rmax a' b'.
Proof.
  intros Ha Hb. pose proof (Rmax_l a' b'). pose proof (Rmax_r a' b').
  apply Rmax_lub; lra.
Qed.

Lemma max3_le_zero v q : (∀ p, nth p v 0 <= 0) → max3 v q <= 0.
Proof.
  intros Hv. unfold max3. repeat apply Rmax_lub; apply Hv.
Qed.

Lemma max3_mono v w q :
  (∀ p, nth p v 0 <= nth p w 0) → max3 v q <= max3 w q.
Proof.
  intros Hvw. destruct (max3_upper w q) as (H1 & H2 & H3).
  unfold max3 at 1. repeat apply Rmax_lub.
  - pose proof (Hvw (2 * q - 1)%nat). lra.
  - pose proof (Hvw (2 * q)%nat). lra.
  - pose proof (Hvw (2 * q + 1)%nat). lra.
Qed.

(** Interpolating the restricted maxima of a vector without positive
    entries gives a vector between the original and zero. *)
Lemma interp_max_between n (v c : vec) :
  (∀ p, nth p v 0 <= 0) →
  (∀ q, (0 < q < n)%nat → nth q c 0 = max3 v q) →
  ∀ p, nth p v 0 <= interp (interior n c) p <= 0.
Proof.
  intros Hv Hc.
  assert (∀ q, interior n c q <= 0) as Hle.
  { intros q. unfold interior. case_decide; [|lra].
    rewrite Hc by done. by apply max3_le_zero. }
  assert (∀ q, nth (2 * q) v 0 <= interior n c q) as Hev.
  { intros q. unfold interior. case_decide; [|apply Hv].
    rewrite Hc by done. apply max3_upper. }
  assert (∀ q, nth (2 * q + 1) v 0 <= interior n c q) as Hod.
  { intros q. unfold interior. case_decide; [|apply Hv].
    rewrite Hc by done. apply max3_upper. }
  assert (∀ q, nth (2 * q + 1) v 0 <= interior n c (q + 1)) as Hod'.
  { intros q. unfold interior. case_decide; [|apply Hv].
    rewrite Hc by done.
    replace (2 * q + 1)%nat with (2 * (q + 1) - 1)%nat by lia.
    apply max3_upper. }
  intros p. destruct (parity_cases p) as [[q ->]|[q ->]].
  - rewrite interp_even. split; [apply Hev|apply Hle].
  - rewrite interp_odd.
    pose proof (Hod q). pose proof (Hod' q).
    pose proof (Hle q). pose proof (Hle (q + 1)%nat). lra.
Qed.

(** [MR] of [src/py/meshlevel.py] restricts the boundary nodes too:
    its first entry is the maximum of the first two fine values, its last
    entry the maximum of the last two, and every coarse entry, boundary or
    interior, is at least the fine value at the same node ([y[q] >= v[2q]]
    for [q = 0..mcoarser]). *)
Theorem MR_bounds_coincident_nodes k (v : vec) :
  (0 < k)%nat → length v = (PyMesh.m (PyMesh.init k) + 1)%nat →
  ∃ y : vec, PyMesh.MR (PyMesh.init k) v = Ok y
    ∧ length y = (2 ^ k + 1)%nat
    ∧ nth 0 y 0 = Rmax (nth 0 v 0) (nth 1 v 0)
    ∧ nth (2 ^ k) y 0
      = Rmax (nth (PyMesh.m (PyMesh.init k) - 1) v 0)
          (nth (PyMesh.m (PyMesh.init k)) v 0)
    ∧ ∀ q, (q ≤ 2 ^ k)%nat → nth (2 * q) v 0 <= nth q y 0.
Proof.
  intros Hk Hv. cbn [PyMesh.m PyMesh.init] in *.
  pose proof (pow2_pos k) as Hn. pose proof (pow2_S k) as HS.
  destruct (MR_closed_form k v Hk Hv) as (y & Hy & Hl & Hq).
  exists y. split; [done|]. split; [done|]. split; [|split].
  - rewrite Hq. case_decide; [done|lia].
  - rewrite Hq. repeat case_decide; try lia; done.
  - intros q Hle. rewrite Hq. repeat case_decide; try lia; subst.
    + apply Rmax_l.
    + rewrite HS. apply Rmax_r.
    + apply max3_upper.
Qed.

Lemma MR_bounds_coincident_nodes_witness :
  ∃ y : vec, PyMesh.MR (PyMesh.init 1) [1; 5; 2; 0; 3] = Ok y
    ∧ length y = (2 ^ 1 + 1)%nat
    ∧ nth 0 y 0 = Rmax (nth 0 [1; 5; 2; 0; 3] 0) (nth 1 [1; 5; 2; 0; 3] 0)
    ∧ nth (2 ^ 1) y 0
      = Rmax (nth (PyMesh.m (PyMesh.init 1) - 1) [1; 5; 2; 0; 3] 0)
          (nth (PyMesh.m (PyMesh.init 1)) [1; 5; 2; 0; 3] 0)
    ∧ ∀ q, (q ≤ 2 ^ 1)%nat → nth (2 * q) [1; 5; 2; 0; 3] 0 <= nth q y 0.
Proof.
  apply (MR_bounds_coincident_nodes 1 [1; 5; 2; 0; 3]); [lia|reflexivity].
Defined.

(** X5.  Both monotone restrictions preserve the entrywise order: if
    [v <= w] at every node then [MR(v) <= MR(w)] and [mR(v) <= mR(w)] at
    every coarse node. *)
Theorem monotone_restriction_preserves_order k (v w : vec) :
  (0 < k)%nat →
  length v = (2 ^ (k + 1) + 1)%nat → length w = (2 ^ (k + 1) + 1)%nat →
  (∀ p, nth p v 0 <= nth p w 0) →
  ∃ yv yw zv zw : vec,
    PyMesh.MR (PyMesh.init k) v = Ok yv ∧ PyMesh.MR (PyMesh.init k) w = Ok yw
    ∧ Mesh1D.mR (Mesh1D.init k) v = Ok zv
    ∧ Mesh1D.mR (Mesh1D.init k) w = Ok zw
    ∧ ∀ q, nth q yv 0 <= nth q yw 0 ∧ nth q zv 0 <= nth q zw 0.
Proof.
  intros Hk Hv Hw Hvw.
  destruct (MR_closed_form k v Hk Hv) as (yv & Hyv & _ & Hyvq).
  destruct (MR_closed_form k w Hk Hw) as (yw & Hyw & _ & Hywq).
  destruct (mR_closed_form k v Hk Hv) as (zv & Hzv & _ & Hzvq).
  destruct (mR_closed_form k w Hk Hw) as (zw & Hzw & _ & Hzwq).
  exists yv, yw, zv, zw. repeat (split; [done|]).
  intros q. rewrite Hyvq, Hywq, Hzvq, Hzwq.
  pose proof (max3_mono v w q Hvw).
  split; repeat case_decide; try lia; try lra.
  - apply Rmax_mono; apply Hvw.
  - apply Rmax_mono; apply Hvw.
Qed.

Lemma monotone_restriction_preserves_order_witness :
  ∃ yv yw zv zw : vec,
    PyMesh.MR (PyMesh.init 1) [0; 1; 2; 1; 0] = Ok yv
    ∧ PyMesh.MR (PyMesh.init 1) [1; 1; 3; 2; 0] = Ok yw
    ∧ Mesh1D.mR (Mesh1D.init 1) [0; 1; 2; 1; 0] = Ok zv
    ∧ Mesh1D.mR (Mesh1D.init 1) [1; 1; 3; 2; 0] = Ok zw
    ∧ ∀ q, nth q yv 0 <= nth q yw 0 ∧ nth q zv 0 <= nth q zw 0.
Proof.
  apply (monotone_restriction_preserves_order 1 [0; 1; 2; 1; 0]
           [1; 1; 3; 2; 0]); [lia|reflexivity|reflexivity|].
  intros [|[|[|[|[|[|p]]]]]]; simpl; lra.
Defined.

(** X6.  Prolonging the monotone restriction of a vector without positive
    entries gives a vector between the original and zero: for [v <= 0] on
    level [k > 0] of [src/py/meshlevel.py], [v <= prolong(MR(v)) <= 0] at
    every node. *)
Theorem prolong_MR_between k (v : vec) :
  (0 < k)%nat → length v = (PyMesh.m (PyMesh.init k) + 1)%nat →
  (∀ p, nth p v 0 <= 0) →
  ∃ c y : vec,
    PyMesh.MR (PyMesh.init k) v = Ok c
    ∧ PyMesh.prolong (PyMesh.init k) c = Ok y
    ∧ length y = length v
    ∧ ∀ p, nth p v 0 <= nth p y 0 <= 0.
Proof.
  intros Hk Hv Hneg. cbn [PyMesh.m PyMesh.init] in Hv.
  destruct (MR_interior k v Hk Hv) as (c & Hc & Hlc & Hcq).
  destruct (prolong_closed_form k c Hk Hlc) as (y & Hy & Hly & Hyp).
  exists c, y. split; [done|]. split; [done|]. split; [lia|].
  intros p. rewrite Hyp. by apply interp_max_between.
Qed.

Lemma prolong_MR_between_witness :
  ∃ c y : vec,
    PyMesh.MR (PyMesh.init 1) [0; -1; -2; -1; 0] = Ok c
    ∧ PyMesh.prolong (PyMesh.init 1) c = Ok y
    ∧ length y = length [0; -1; -2; -1; 0]
    ∧ ∀ p, nth p [0; -1; -2; -1; 0] 0 <= nth p y 0 <= 0.
Proof.
  apply (prolong_MR_between 1 [0; -1; -2; -1; 0]); [lia|reflexivity|].
  intros [|[|[|[|[|[|p]]]]]]; simpl; lra.
Defined.

(** X7.  The level obstacle of the constraint decomposition is admissible
    for the zero correction: for a defect obstacle [chi <= 0] on level
    [j > 0] of [src/py/1D/meshlevel.py], the difference
    [chi - cP(mR(chi))] that [vcycle] hands to its smoother, halved or not,
    lies between [chi] and zero at every node. *)
Theorem level_obstacle_between j (chi : vec) :
  (0 < j)%nat → length chi = (Mesh1D.m (Mesh1D.init j) + 2)%nat →
  (∀ p, nth p chi 0 <= 0) →
  ∃ c pc phi : vec,
    Mesh1D.mR (Mesh1D.init j) chi = Ok c
    ∧ Mesh1D.cP (Mesh1D.init j) c = Ok pc
    ∧ np_sub chi pc = Ok phi
    ∧ ∀ p, nth p chi 0 <= nth p phi 0 <= 0
           ∧ nth p chi 0 <= nth p (np_muls phi 0.5) 0 <= 0.
Proof.
  intros Hj Hchi Hneg. cbn [Mesh1D.m Mesh1D.init] in Hchi.
  destruct (mesh1d_sizes j Hj) as [Hm Hmc].
  rewrite Hm, <- pow2_S in Hchi.
  destruct (mR_closed_form j chi Hj Hchi) as (c & Hc & Hlc & Hcq).
  destruct (cP_closed_form j c Hj Hlc) as (pc & Hpc & Hlpc & Hpcp).
  exists c, pc, (zip_with Rminus chi pc).
  split; [done|]. split; [done|]. split.
  { unfold np_sub, np_binop. case_decide; [done|lia]. }
  assert (∀ p, nth p chi 0 <= nth p pc 0 <= 0) as Hbetween.
  { intros p. rewrite Hpcp. apply interp_max_between; [done|].
    intros q Hq. rewrite Hcq. case_decide; [done|lia]. }
  assert (∀ p, nth p (zip_with Rminus chi pc) 0
               = nth p chi 0 - nth p pc 0) as Hsub.
  { intros p. destruct (decide (p < length chi)%nat) as [Hp|Hp].
    - rewrite (nth_lookup (zip_with _ _ _)), lookup_zip_with.
      rewrite (lookup_nth chi p), (lookup_nth pc p) by lia. done.
    - rewrite !nth_overflow; [lra|lia|lia|rewrite length_zip_with; lia]. }
  intros p. specialize (Hbetween p). specialize (Hneg p).
  assert (nth p (np_muls (zip_with Rminus chi pc) 0.5) 0
          = (nth p chi 0 - nth p pc 0) * 0.5) as ->.
  { unfold np_muls. rewrite <- Hsub.
    destruct (decide (p < length (zip_with Rminus chi pc))%nat) as [Hp|Hp].
    - rewrite (nth_indep _ 0 (0 * 0.5)) by (rewrite length_map; lia).
      apply (map_nth (fun x => x * 0.5)).
    - rewrite !nth_overflow; [lra|lia|rewrite length_map; lia]. }
  rewrite Hsub. lra.
Qed.

Lemma level_obstacle_between_witness :
  ∃ c pc phi : vec,
    Mesh1D.mR (Mesh1D.init 1) [0; -1; -2; -1; 0] = Ok c
    ∧ Mesh1D.cP (Mesh1D.init 1) c = Ok pc
    ∧ np_sub [0; -1; -2; -1; 0] pc = Ok phi
    ∧ ∀ p, nth p [0; -1; -2; -1; 0] 0 <= nth p phi 0 <= 0
           ∧ nth p [0; -1; -2; -1; 0] 0 <= nth p (np_muls phi 0.5) 0 <= 0.
Proof.
  apply (level_obstacle_between 1 [0; -1; -2; -1; 0]); [lia|reflexivity|].
  intros [|[|[|[|[|[|p]]]]]]; simpl; lra.
Defined.

(* ================================================================= *)
(** ** Nodes, exact residuals and norms *)

Lemma length_linspace a b n : length (np_linspace a b n) = n.
Proof. unfold np_linspace. by rewrite length_map, length_seq. Qed.

Lemma nth_linspace a b n p :
  (p < n)%nat →
  nth p (np_linspace a b n) 0 = a + INR p * ((b - a) / INR (n - 1)).
Proof.
  intros Hp. unfold np_linspace.
  rewrite nth_lookup, list_lookup_fmap, lookup_seq_lt by done. done.
Qed.

Lemma nth_map_in (g : R → R) (v : vec) p :
  (p < length v)%nat → nth p (map g v) 0 = g (nth p v 0).
Proof.
  intros Hp. rewrite (nth_indep _ 0 (g 0)) by (by rewrite length_map).
  apply map_nth.
Qed.

Lemma pymesh_h k : PyMesh.h (PyMesh.init k) = 1 / INR (2 ^ (k + 1)).
Proof. reflexivity. Qed.

Lemma INR_pow2_pos k : 0 < INR (2 ^ k).
Proof. apply lt_0_INR. pose proof (pow2_pos k). lia. Qed.

Lemma mesh1d_h j : Mesh1D.h (Mesh1D.init j) = 1 / INR (2 ^ (j + 1)).
Proof.
  cbn [Mesh1D.h Mesh1D.init]. f_equal.
  pose proof (pow2_pos (j + 1)).
  rewrite minus_INR by lia. simpl. lra.
Qed.

Lemma pymesh_xx_nth k p :
  (p ≤ 2 ^ (k + 1))%nat →
  nth p (PyMesh.xx (PyMesh.init k)) 0 = INR p * PyMesh.h (PyMesh.init k).
Proof.
  intros Hp. unfold PyMesh.xx. cbn [PyMesh.m PyMesh.init].
  rewrite nth_linspace by lia. rewrite pymesh_h.
  replace (2 ^ (k + 1) + 1 - 1)%nat with (2 ^ (k + 1))%nat by lia. lra.
Qed.

Lemma mesh1d_xx_nth j p :
  (p ≤ 2 ^ (j + 1))%nat →
  nth p (Mesh1D.xx (Mesh1D.init j)) 0 = INR p * Mesh1D.h (Mesh1D.init j).
Proof.
  intros Hp. pose proof (pow2_pos (j + 1)).
  unfold Mesh1D.xx. cbn [Mesh1D.m Mesh1D.init].
  rewrite nth_linspace by lia. rewrite mesh1d_h.
  replace (2 ^ (j + 1) - 1 + 2 - 1)%nat with (2 ^ (j + 1))%nat by lia. lra.
Qed.

(** The node coordinates of both mesh classes are the multiples of
    the mesh width: [xx()] has one entry per node, entry [p] is [p * h],
    the first entry is [0] and the last is [1]. *)
Theorem xx_nodes_are_multiples_of_h k :
  length (PyMesh.xx (PyMesh.init k)) = (PyMesh.m (PyMesh.init k) + 1)%nat
  ∧ length (Mesh1D.xx (Mesh1D.init k)) = (Mesh1D.m (Mesh1D.init k) + 2)%nat
  ∧ nth 0 (PyMesh.xx (PyMesh.init k)) 0 = 0
  ∧ nth (PyMesh.m (PyMesh.init k)) (PyMesh.xx (PyMesh.init k)) 0 = 1
  ∧ nth 0 (Mesh1D.xx (Mesh1D.init k)) 0 = 0
  ∧ nth (Mesh1D.m (Mesh1D.init k) + 1) (Mesh1D.xx (Mesh1D.init k)) 0 = 1
  ∧ ∀ p, (p ≤ 2 ^ (k + 1))%nat →
      nth p (PyMesh.xx (PyMesh.init k)) 0 = INR p * PyMesh.h (PyMesh.init k)
      ∧ nth p (Mesh1D.xx (Mesh1D.init k)) 0
        = INR p * Mesh1D.h (Mesh1D.init k).
Proof.
  pose proof (pow2_pos (k + 1)) as Hm.
  pose proof (INR_pow2_pos (k + 1)) as Hpos.
  split; [apply length_linspace|]. split; [apply length_linspace|].
  cbn [PyMesh.m Mesh1D.m PyMesh.init Mesh1D.init].
  replace (2 ^ (k + 1) - 1 + 1)%nat with (2 ^ (k + 1))%nat by lia.
  rewrite !pymesh_xx_nth, !mesh1d_xx_nth by lia.
  rewrite pymesh_h, mesh1d_h.
  split; [simpl; lra|]. split; [by field; lra|].
  split; [simpl; lra|]. split; [by field; lra|].
  intros p Hp. by rewrite pymesh_xx_nth, mesh1d_xx_nth, pymesh_h, mesh1d_h.
Qed.

(** X8.  In exact arithmetic the residual of [src/py/meshlevel.py] is
    exact for quadratics: for the nodal values of
    [u(x) = a + b x + c x (1 - x) / 2], which solves [-u'' = c], and the
    constant source [f = c], [residual] returns the zero vector on every
    level.  In float64 the interior entries are rounding errors instead of
    zeros. *)
Theorem residual_vanishes_on_quadratic_solution k (a b c : R) :
  PyMesh.residual (PyMesh.init k)
    (map (fun x => a + b * x + c * x * (1 - x) / 2)
       (PyMesh.xx (PyMesh.init k)))
    (fun _ => c)
  = Ok (PyMesh.zeros (PyMesh.init k)).
Proof.
  set (g := fun x => a + b * x + c * x * (1 - x) / 2).
  set (u := map g (PyMesh.xx (PyMesh.init k))).
  assert (length u = (PyMesh.m (PyMesh.init k) + 1)%nat) as Hu.
  { unfold u, PyMesh.xx. by rewrite length_map, length_linspace. }
  destruct (residual_closed_form k u (fun _ => c) Hu) as (r & Hr & Hl & Hp).
  rewrite Hr. f_equal. unfold PyMesh.zeros.
  apply vec_ext; [by rewrite length_np_zeros|].
  intros p. rewrite Hp, nth_np_zeros. case_decide as Hin; [|done].
  cbn [PyMesh.m PyMesh.init] in Hin, Hu.
  assert (∀ q, (q ≤ 2 ^ (k + 1))%nat →
            nth q u 0 = g (INR q * PyMesh.h (PyMesh.init k))) as Hnth.
  { intros q Hq. unfold u. rewrite nth_map_in.
    - by rewrite pymesh_xx_nth.
    - unfold PyMesh.xx. rewrite length_linspace.
      cbn [PyMesh.m PyMesh.init]. lia. }
  unfold residual_at. rewrite !Hnth by lia.
  rewrite minus_INR, plus_INR by lia. cbn [INR].
  rewrite pymesh_h. unfold g.
  pose proof (INR_pow2_pos (k + 1)). field. lra.
Qed.

Lemma sum_below_const (c : R) n : sum_below (fun _ => c) n = INR n * c.
Proof.
  induction n as [|n IH]; [simpl; lra|].
  cbn [sum_below]. rewrite IH, S_INR. lra.
Qed.

Lemma nth_replicate_in (c : R) n p :
  (p < n)%nat → nth p (replicate n c) 0 = c.
Proof. intros Hp. by rewrite nth_lookup, lookup_replicate_2. Qed.

Lemma trapezoid_norm_const (h c : R) n :
  (1 ≤ n)%nat → h * INR n = 1 →
  trapezoid_norm h (replicate (n + 1) c) = Rabs c.
Proof.
  intros Hn Hh. unfold trapezoid_norm. rewrite length_replicate.
  rewrite !nth_replicate_in by lia.
  rewrite (sum_below_ext _ (fun _ => c * c)).
  2:{ intros i Hi. rewrite nth_replicate_in by lia. done. }
  rewrite sum_below_const.
  replace (n + 1 - 2)%nat with (n - 1)%nat by lia.
  rewrite minus_INR by lia. cbn [INR].
  replace (h * (0.5 * c * c + (INR n - 1) * (c * c) + 0.5 * c * c))
    with ((h * INR n) * Rsqr c) by (unfold Rsqr; lra).
  rewrite Hh, Rmult_1_l. apply sqrt_Rsqr_abs.
Qed.

Lemma sum_below_nonneg f n : (∀ i, 0 <= f i) → 0 <= sum_below f n.
Proof.
  intros Hf. induction n as [|n IH]; [simpl; lra|].
  cbn [sum_below]. specialize (Hf n). lra.
Qed.

Lemma sum_below_scale f c n :
  sum_below (fun i => c * f i) n = c * sum_below f n.
Proof.
  induction n as [|n IH]; [simpl; lra|].
  cbn [sum_below]. rewrite IH. lra.
Qed.

Lemma trapezoid_norm_scale (h t : R) (u : vec) :
  0 <= h → (1 ≤ length u)%nat →
  trapezoid_norm h (np_muls u t) = Rabs t * trapezoid_norm h u.
Proof.
  intros Hh Hl. unfold trapezoid_norm, np_muls. rewrite length_map.
  rewrite !nth_map_in by lia.
  rewrite (sum_below_ext _
             (fun i => Rsqr t * (nth (S i) u 0 * nth (S i) u 0))).
  2:{ intros i Hi. rewrite nth_map_in by lia. unfold Rsqr. lra. }
  rewrite sum_below_scale.
  set (S0 := sum_below (fun i => nth (S i) u 0 * nth (S i) u 0)
               (length u - 2)).
  assert (0 <= S0) as HS0.
  { apply sum_below_nonneg. intros i.
    pose proof (Rle_0_sqr (nth (S i) u 0)) as Hs. unfold Rsqr in Hs. lra. }
  set (x0 := nth 0 u 0). set (xl := nth (length u - 1) u 0).
  pose proof (Rle_0_sqr x0) as H0. pose proof (Rle_0_sqr xl) as H1.
  pose proof (Rle_0_sqr t) as Ht. unfold Rsqr in H0, H1.
  replace (h * (0.5 * (x0 * t) * (x0 * t) + Rsqr t * S0
                + 0.5 * (xl * t) * (xl * t)))
    with (Rsqr t * (h * (0.5 * x0 * x0 + S0 + 0.5 * xl * xl)))
    by (unfold Rsqr; lra).
  rewrite sqrt_mult; [by rewrite sqrt_Rsqr_abs|done|].
  apply Rmult_le_pos; [done|]. lra.
Qed.

(** X9.  In exact arithmetic (no rounding, overflow or underflow) the
    trapezoid-rule norm of both mesh classes gives a constant function its
    absolute value, the zero vector the norm zero, and is absolutely
    homogeneous: [l2norm(t * u) = |t| * l2norm(u)] for every vector [u] of
    the level. *)
Theorem l2norm_constants_and_scaling k (c t : R) (u v : vec) :
  length u = (PyMesh.m (PyMesh.init k) + 1)%nat →
  length v = (Mesh1D.m (Mesh1D.init k) + 2)%nat →
  PyMesh.l2norm (PyMesh.init k)
    (replicate (PyMesh.m (PyMesh.init k) + 1) c) = Ok (Rabs c)
  ∧ Mesh1D.l2norm (Mesh1D.init k)
      (replicate (Mesh1D.m (Mesh1D.init k) + 2) c) = Ok (Rabs c)
  ∧ PyMesh.l2norm (PyMesh.init k) (PyMesh.zeros (PyMesh.init k)) = Ok 0
  ∧ Mesh1D.l2norm (Mesh1D.init k) (Mesh1D.zeros (Mesh1D.init k)) = Ok 0
  ∧ (∃ n, PyMesh.l2norm (PyMesh.init k) u = Ok n
       ∧ PyMesh.l2norm (PyMesh.init k) (np_muls u t) = Ok (Rabs t * n))
  ∧ (∃ n, Mesh1D.l2norm (Mesh1D.init k) v = Ok n
       ∧ Mesh1D.l2norm (Mesh1D.init k) (np_muls v t) = Ok (Rabs t * n)).
Proof.
  intros Hu Hv.
  pose proof (pow2_pos (k + 1)) as Hm.
  pose proof (INR_pow2_pos (k + 1)) as Hpos.
  assert (PyMesh.h (PyMesh.init k) * INR (2 ^ (k + 1)) = 1) as Hh1
    by (rewrite pymesh_h; field; lra).
  assert (Mesh1D.h (Mesh1D.init k) * INR (2 ^ (k + 1)) = 1) as Hh2
    by (rewrite mesh1d_h; field; lra).
  assert (0 <= PyMesh.h (PyMesh.init k)) as Hp1.
  { rewrite pymesh_h. apply Rlt_le, Rdiv_lt_0_compat; lra. }
  assert (0 <= Mesh1D.h (Mesh1D.init k)) as Hp2.
  { rewrite mesh1d_h. apply Rlt_le, Rdiv_lt_0_compat; lra. }
  assert (Mesh1D.m (Mesh1D.init k) + 2 = 2 ^ (k + 1) + 1)%nat as Hm1
    by (cbn [Mesh1D.m Mesh1D.init]; lia).
  assert (∀ x, Mesh1D.l2norm (Mesh1D.init k)
                 (replicate (Mesh1D.m (Mesh1D.init k) + 2) x)
               = Ok (Rabs x)) as Hc1.
  { intros x.
    rewrite (proj2 (l2norm_1d_checked k _)) by (by rewrite length_replicate).
    rewrite Hm1. f_equal. apply trapezoid_norm_const; [lia|done]. }
  assert (∀ x, PyMesh.l2norm (PyMesh.init k)
                 (replicate (PyMesh.m (PyMesh.init k) + 1) x)
               = Ok (Rabs x)) as Hc0.
  { intros x. rewrite l2norm_py_unchecked by (rewrite length_replicate; lia).
    f_equal. apply trapezoid_norm_const; [done|done]. }
  split; [apply Hc0|]. split; [apply Hc1|].
  split; [|split; [|split]].
  - unfold PyMesh.zeros, np_zeros. rewrite Hc0. by rewrite Rabs_R0.
  - unfold Mesh1D.zeros, np_zeros. rewrite Hc1. by rewrite Rabs_R0.
  - eexists. split; [apply l2norm_py_unchecked; lia|].
    rewrite l2norm_py_unchecked by (unfold np_muls; rewrite length_map; lia).
    f_equal. apply trapezoid_norm_scale; [done|lia].
  - eexists. split; [by apply (l2norm_1d_checked k v)|].
    rewrite (proj2 (l2norm_1d_checked k _))
      by (unfold np_muls; by rewrite length_map).
    f_equal. apply trapezoid_norm_scale; [done|lia].
Qed.

Lemma l2norm_constants_and_scaling_witness :
  PyMesh.l2norm (PyMesh.init 0)
    (replicate (PyMesh.m (PyMesh.init 0) + 1) 3) = Ok (Rabs 3)
  ∧ Mesh1D.l2norm (Mesh1D.init 0)
      (replicate (Mesh1D.m (Mesh1D.init 0) + 2) 3) = Ok (Rabs 3)
  ∧ PyMesh.l2norm (PyMesh.init 0) (PyMesh.zeros (PyMesh.init 0)) = Ok 0
  ∧ Mesh1D.l2norm (Mesh1D.init 0) (Mesh1D.zeros (Mesh1D.init 0)) = Ok 0
  ∧ (∃ n, PyMesh.l2norm (PyMesh.init 0) [1; 2; 3] = Ok n
       ∧ PyMesh.l2norm (PyMesh.init 0) (np_muls [1; 2; 3] (-2))
         = Ok (Rabs (-2) * n))
  ∧ (∃ n, Mesh1D.l2norm (Mesh1D.init 0) [1; 2; 3] = Ok n
       ∧ Mesh1D.l2norm (Mesh1D.init 0) (np_muls [1; 2; 3] (-2))
         = Ok (Rabs (-2) * n)).
Proof.
  apply (l2norm_constants_and_scaling 0 3 (-2) [1; 2; 3] [1; 2; 3]);
    reflexivity.
Defined.

(* ================================================================= *)
(** ** Linear functionals on the meshes of [src/py/1D/meshlevel.py] *)

Lemma mesh1d_m_S j : (Mesh1D.m (Mesh1D.init j) + 1 = 2 ^ (j + 1))%nat.
Proof. cbn [Mesh1D.m Mesh1D.init]. pose proof (pow2_pos (j + 1)). lia. Qed.

Lemma nth_framed (V : vec) p :
  nth p (0 :: V ++ [0]) 0
  = if decide (0 < p < length V + 1)%nat then nth (p - 1) V 0 else 0.
Proof.
  destruct p as [|p]; [by case_decide; [lia|]|]. cbn [nth].
  replace (S p - 1)%nat with p by lia.
  destruct (decide (p < length V)%nat) as [Hp|Hp].
  - rewrite app_nth1 by done. case_decide; [done|lia].
  - rewrite app_nth2 by lia. case_decide; [lia|].
    destruct (p - length V)%nat as [|[|?]]; done.
Qed.

Lemma ellf_closed_form j (f : vec) :
  length f = (Mesh1D.m (Mesh1D.init j) + 2)%nat →
  ∃ y : vec, Mesh1D.ellf (Mesh1D.init j) f = Ok y
    ∧ length y = (Mesh1D.m (Mesh1D.init j) + 2)%nat
    ∧ ∀ p, nth p y 0 =
        if decide (0 < p < Mesh1D.m (Mesh1D.init j) + 1)%nat
        then Mesh1D.h (Mesh1D.init j) * nth p f 0 else 0.
Proof.
  intros Hf. unfold Mesh1D.ellf, Mesh1D.checklen. rewrite bind_Ok.
  set (M := Mesh1D.init j) in *. set (m := Mesh1D.m M) in *.
  rewrite Hf, Nat.eqb_refl. cbn [py_assert]. rewrite bind_Ok. cbv zeta.
  unfold setslice, Mesh1D.zeros. rewrite length_np_zeros. fold m.
  rewrite (slice_bound_nat _ 1), (slice_bound_neg _ 1) by lia.
  rewrite slice_interior by lia. rewrite Hf.
  replace (m + 2 - 2)%nat with m by lia.
  replace (m + 2 - 1 - 1)%nat with m by lia.
  set (V := np_smul (Mesh1D.h M) (take m (drop 1 f))).
  assert (length V = m) as HV.
  { unfold V, np_smul. rewrite length_map, length_take, length_drop. lia. }
  case_decide; [|done].
  assert (take 1 (np_zeros (m + 2)) = [0]) as ->.
  { unfold np_zeros. rewrite take_replicate.
    by replace (1 `min` (m + 2))%nat with 1%nat by lia. }
  assert (drop (1 + m) (np_zeros (m + 2)) = [0]) as ->.
  { unfold np_zeros. rewrite drop_replicate.
    by replace (m + 2 - (1 + m))%nat with 1%nat by lia. }
  eexists. split; [done|]. split.
  { cbn [app length]. rewrite length_app, HV. simpl. lia. }
  intros p. change ([0] ++ V ++ [0]) with (0 :: V ++ [0]).
  rewrite nth_framed, HV. case_decide; [|done].
  unfold V, np_smul. rewrite nth_map_in
    by (rewrite length_take, length_drop; lia).
  f_equal. rewrite !nth_lookup, lookup_take_lt, lookup_drop by lia.
  do 2 f_equal. lia.
Qed.

(** X10.  [ellf] turns nodal values into the linear functional of the
    trapezoid rule: its boundary entries are zero, its pairing with a
    vector [v] is [h] times the sum of [f[p] * v[p]] over the interior
    nodes, and for a vector with zero boundary values the norm is the
    square root of the pairing of [ellf(u)] with [u]. *)
Theorem ellf_is_trapezoid_functional j (f : vec) :
  length f = (Mesh1D.m (Mesh1D.init j) + 2)%nat →
  ∃ y : vec, Mesh1D.ellf (Mesh1D.init j) f = Ok y
    ∧ length y = length f
    ∧ nth 0 y 0 = 0
    ∧ nth (Mesh1D.m (Mesh1D.init j) + 1) y 0 = 0
    ∧ (∀ v : vec, length v = length f →
         dot y v
         = Mesh1D.h (Mesh1D.init j)
           * sum_below (fun i => nth (S i) f 0 * nth (S i) v 0)
               (Mesh1D.m (Mesh1D.init j)))
    ∧ (nth 0 f 0 = 0 → nth (Mesh1D.m (Mesh1D.init j) + 1) f 0 = 0 →
       Mesh1D.l2norm (Mesh1D.init j) f = Ok (sqrt (dot y f))).
Proof.
  intros Hf.
  destruct (ellf_closed_form j f Hf) as (y & Hy & Hl & Hp).
  set (M := Mesh1D.init j) in *. set (m := Mesh1D.m M) in *.
  exists y. split; [done|]. split; [lia|].
  split; [rewrite Hp; case_decide; [lia|done]|].
  split; [rewrite Hp; case_decide; [lia|done]|].
  assert (∀ v : vec, length v = length f →
            dot y v = Mesh1D.h M
              * sum_below (fun i => nth (S i) f 0 * nth (S i) v 0) m)
    as Hdot.
  { intros v Hv. rewrite dot_sum by lia. rewrite Hl.
    replace (m + 2)%nat with (S (S m)) by lia.
    rewrite sum_below_shift. cbn [sum_below].
    rewrite !Hp. repeat case_decide; try lia.
    rewrite (sum_below_ext _
               (fun i => Mesh1D.h M * (nth (S i) f 0 * nth (S i) v 0))).
    2:{ intros i Hi. rewrite Hp. case_decide; [lra|lia]. }
    rewrite sum_below_scale. lra. }
  split; [exact Hdot|].
  intros H0 H1.
  pose proof (proj2 (l2norm_1d_checked j f) Hf) as Hnorm. fold M in Hnorm.
  rewrite Hnorm. f_equal. rewrite Hdot by done. unfold trapezoid_norm.
  rewrite Hf. replace (m + 2 - 2)%nat with m by lia.
  replace (m + 2 - 1)%nat with (m + 1)%nat by lia.
  rewrite H0, H1. f_equal. lra.
Qed.

Lemma ellf_is_trapezoid_functional_witness :
  ∃ y : vec, Mesh1D.ellf (Mesh1D.init 0) [0; 3; 0] = Ok y
    ∧ length y = length [0; 3; 0]
    ∧ nth 0 y 0 = 0
    ∧ nth (Mesh1D.m (Mesh1D.init 0) + 1) y 0 = 0
    ∧ (∀ v : vec, length v = length [0; 3; 0] →
         dot y v
         = Mesh1D.h (Mesh1D.init 0)
           * sum_below (fun i => nth (S i) [0; 3; 0] 0 * nth (S i) v 0)
               (Mesh1D.m (Mesh1D.init 0)))
    ∧ (nth 0 [0; 3; 0] 0 = 0 →
       nth (Mesh1D.m (Mesh1D.init 0) + 1) [0; 3; 0] 0 = 0 →
       Mesh1D.l2norm (Mesh1D.init 0) [0; 3; 0] = Ok (sqrt (dot y [0; 3; 0]))).
Proof. apply (ellf_is_trapezoid_functional 0 [0; 3; 0]). reflexivity. Defined.

(** A loop whose pass [q] stores [G q] at the even position [2q]. *)
Lemma for_in_set_even (body : nat → vec → result vec) (G : nat → R) n :
  ∀ a L (y : vec),
  length y = L → (2 * (a + n) ≤ L + 1)%nat →
  (∀ q (z : vec), (a ≤ q < a + n)%nat → length z = L →
     body q z = Ok (<[(2 * q)%nat:=G q]> z)) →
  ∃ y' : vec, for_in (seq a n) body y = Ok y' ∧ length y' = L ∧
    ∀ p, nth p y' 0 =
      if decide ((2 * a ≤ p < 2 * (a + n))%nat ∧ Nat.even p = true)
      then G (p / 2)%nat else nth p y 0.
Proof.
  induction n as [|n IH]; intros a L y Hy Hn Hb.
  - exists y. split; [done|]. split; [done|]. intros p.
    case_decide; [lia|done].
  - cbn [seq for_in]. rewrite Hb by (done || lia). rewrite bind_Ok.
    destruct (IH (S a) L (<[(2 * a)%nat:=G a]> y)) as (y' & Hr & Hl & Hp).
    + by rewrite length_insert.
    + lia.
    + intros q z Hq Hz. apply Hb; [lia|done].
    + exists y'. split; [done|]. split; [done|]. intros p.
      rewrite Hp, nth_insert.
      destruct (parity_cases p) as [[q ->]|[q ->]].
      * rewrite even_double, div2_double.
        repeat case_decide; destruct_and?; try lia; try done.
        f_equal. lia.
      * rewrite even_double_S.
        repeat case_decide; destruct_and?; try lia; try done.
Qed.

Lemma injectP_closed_form j (ell : vec) :
  (0 < j)%nat → length ell = (2 ^ j + 1)%nat →
  ∃ y : vec, Mesh1D.injectP (Mesh1D.init j) ell = Ok y
    ∧ length y = (2 ^ (j + 1) + 1)%nat
    ∧ ∀ p, nth p y 0 =
        if decide ((0 < p < 2 ^ (j + 1))%nat ∧ Nat.even p = true)
        then nth (p / 2) ell 0 else 0.
Proof.
  intros Hj Hl. pose proof (pow2_ge2 j Hj) as Hn.
  destruct (mesh1d_sizes j Hj) as [Hm Hmc].
  unfold Mesh1D.injectP, Mesh1D.checklen, Mesh1D.zeros.
  cbn [Mesh1D.j Mesh1D.m Mesh1D.mcoarser Mesh1D.init].
  destruct (Nat.ltb_spec 0 j) as [_|]; [|lia].
  cbn [py_assert need_int]. rewrite !bind_Ok.
  rewrite Hmc, Hm, Hl, Nat.eqb_refl. cbn [py_assert]. rewrite !bind_Ok.
  rewrite pow2_S. set (n := (2 ^ j)%nat) in *. unfold range.
  edestruct (for_in_set_even
    (fun q y => e ← getitem ell (Z.of_nat q);
                setitem y (Z.of_nat (2 * q)) e)
    (fun q => nth q ell 0) (n - 1 + 1 - 1) 1%nat (2 * n + 1)%nat
    (np_zeros (2 * n + 1))) as (y & Hr & Hly & Hp).
  - solve_len.
  - lia.
  - intros q z Hq Hz. cbv beta. run. done.
  - exists y. split; [exact Hr|]. split; [exact Hly|]. intros p.
    rewrite Hp, nth_np_zeros.
    destruct (parity_cases p) as [[q ->]|[q ->]].
    + rewrite even_double.
      repeat case_decide; destruct_and?; try lia; try done.
    + rewrite even_double_S.
      repeat case_decide; destruct_and?; try lia; try done.
Qed.

(** X11.  Injection is a right inverse of the canonical restriction: for a
    functional [ell] of the coarser level with zero boundary entries,
    restricting [injectP(ell)] with [cR] returns [ell] itself. *)
Theorem cR_injectP_round_trip j (ell : vec) :
  (0 < j)%nat → length ell = (2 ^ j - 1 + 2)%nat →
  nth 0 ell 0 = 0 → nth (2 ^ j) ell 0 = 0 →
  (y ← Mesh1D.injectP (Mesh1D.init j) ell; Mesh1D.cR (Mesh1D.init j) y)
  = Ok ell.
Proof.
  intros Hj Hl H0 H1. pose proof (pow2_ge2 j Hj) as Hn.
  destruct (mesh1d_sizes j Hj) as [Hm Hmc]. rewrite Hmc in Hl.
  destruct (injectP_closed_form j ell Hj Hl) as (y & Hy & Hly & Hyp).
  destruct (cR_closed_form j y Hj Hly) as (r & Hr & Hlr & Hrq).
  rewrite Hy, bind_Ok, Hr. f_equal.
  apply vec_ext; [lia|]. intros q. rewrite Hrq.
  pose proof (pow2_S j) as HS.
  case_decide as Hq.
  - unfold stencil. rewrite !Hyp.
    replace (2 * q - 1)%nat with (2 * (q - 1) + 1)%nat by lia.
    rewrite even_double, !even_double_S, div2_double.
    repeat case_decide; try lra; destruct_and?; try done.
    exfalso. apply H2. split; [lia|done].
  - destruct (decide (q = 0)%nat) as [->|]; [done|].
    destruct (decide (q = 2 ^ j)%nat) as [->|]; [done|].
    rewrite nth_overflow by lia. done.
Qed.

Lemma cR_injectP_round_trip_witness :
  (y ← Mesh1D.injectP (Mesh1D.init 1) [0; 5; 0];
   Mesh1D.cR (Mesh1D.init 1) y) = Ok [0; 5; 0].
Proof.
  apply (cR_injectP_round_trip 1 [0; 5; 0]); [lia|reflexivity|done|done].
Defined.

(** The head and loop of [fwP]: half the interpolation of [cP]. *)
Lemma fwP_loop n (v : vec) :
  (2 ≤ n)%nat → length v = (n + 1)%nat →
  ∃ y : vec,
    for_in (range 1 (n - 1)) (fun q y =>
        eq ← getitem v (Z.of_nat q);
        y ← setitem y (Z.of_nat (2 * q)) (0.5 * eq);
        eq ← getitem v (Z.of_nat q);
        eq1 ← getitem v (Z.of_nat (q + 1));
        setitem y (Z.of_nat (2 * q + 1)) (0.25 * (eq + eq1)))
      (<[1%nat:=0.25 * nth 1 v 0]> (np_zeros (2 * n + 1))) = Ok y
    ∧ length y = (2 * n + 1)%nat
    ∧ ∀ p, nth p y 0 =
        if decide (p < 2 * (n - 1))%nat
        then 0.5 * interp (interior n v) p else 0.
Proof.
  intros Hn Hv.
  unfold range.
  edestruct (for_in_set_pair
    (fun q y =>
         eq ← getitem v (Z.of_nat q);
         y ← setitem y (Z.of_nat (2 * q)) (0.5 * eq);
         eq ← getitem v (Z.of_nat q);
         eq1 ← getitem v (Z.of_nat (q + 1));
         setitem y (Z.of_nat (2 * q + 1)) (0.25 * (eq + eq1)))
    (fun q => 0.5 * nth q v 0)
    (fun q => 0.25 * (nth q v 0 + nth (q + 1) v 0))
    (n - 1 - 1) 1%nat (2 * n + 1)%nat
    (<[1%nat:=0.25 * nth 1 v 0]> (np_zeros (2 * n + 1))))
    as (y & Hr & Hl & Hp).
  - by rewrite length_insert, length_np_zeros.
  - lia.
  - intros q z Hq Hz. run. done.
  - exists y. split; [exact Hr|]. split; [exact Hl|]. intros p.
    rewrite Hp, nth_insert, nth_np_zeros, length_np_zeros.
    destruct (parity_cases p) as [[q ->]|[q ->]].
    + rewrite even_double, div2_double, interp_even. unfold interior.
      repeat case_decide; try lia; try done; try lra.
    + rewrite even_double_S, div2_double_S, interp_odd. unfold interior.
      repeat case_decide; try lia; try done; try lra.
      assert (q = 0)%nat as -> by lia. simpl. lra.
Qed.

Lemma fwP_closed_form j (v : vec) :
  (0 < j)%nat → length v = (2 ^ j + 1)%nat →
  ∃ y : vec, Mesh1D.fwP (Mesh1D.init j) v = Ok y
    ∧ length y = (2 ^ (j + 1) + 1)%nat
    ∧ ∀ p, nth p y 0 = 0.5 * interp (interior (2 ^ j) v) p.
Proof.
  intros Hj Hv. pose proof (pow2_ge2 j Hj) as Hn.
  destruct (mesh1d_sizes j Hj) as [Hm Hmc].
  unfold Mesh1D.fwP, Mesh1D.checklen, Mesh1D.zeros.
  cbn [Mesh1D.j Mesh1D.m Mesh1D.mcoarser Mesh1D.init].
  destruct (Nat.ltb_spec 0 j) as [_|]; [|lia].
  cbn [py_assert need_int]. rewrite !bind_Ok.
  rewrite Hmc, Hm, Hv, Nat.eqb_refl. cbn [py_assert]. rewrite bind_Ok.
  rewrite pow2_S.
  destruct (fwP_loop (2 ^ j) v Hn Hv) as (y & Hr & Hl & Hp).
  set (n := (2 ^ j)%nat) in *.
  replace (n + 1 - 2)%nat with (n - 1)%nat by lia.
  run. rewrite Hr. run.
  eexists. split; [reflexivity|]. split; [solve_len|].
  intros p. rewrite !nth_insert, !length_insert, Hl, Hp, Hv.
  replace (n + 1 - 2)%nat with (n - 1)%nat by lia.
  destruct (parity_cases p) as [[q ->]|[q ->]].
  - rewrite interp_even. unfold interior.
    repeat case_decide; try lia; try done; try lra.
    + do 2 f_equal. lia.
  - rewrite interp_odd. unfold interior.
    repeat case_decide; try lia; try done; try lra.
    + replace q with (n - 1)%nat by lia. lra.
Qed.

(** X12.  Full-weighting prolongation of a functional is half the
    canonical prolongation [cP] of the same entries, and it is not a right
    inverse of [cR]: in exact arithmetic restricting [fwP(ell)] gives, at
    each interior coarse node, [(ell[q-1] + 6 ell[q] + ell[q+1]) / 8] with
    the boundary entries of [ell] read as zero (float64 evaluates the
    stencil of [cR] on the entries of [fwP(ell)] and can round
    differently). *)
Theorem fwP_is_half_cP j (ell : vec) :
  (0 < j)%nat → length ell = (2 ^ j - 1 + 2)%nat →
  ∃ y c r : vec,
    Mesh1D.fwP (Mesh1D.init j) ell = Ok y
    ∧ Mesh1D.cP (Mesh1D.init j) ell = Ok c
    ∧ y = np_smul 0.5 c
    ∧ Mesh1D.cR (Mesh1D.init j) y = Ok r
    ∧ length r = length ell
    ∧ ∀ q, (0 < q < 2 ^ j)%nat →
        nth q r 0
        = (interior (2 ^ j) ell (q - 1) + 6 * nth q ell 0
           + interior (2 ^ j) ell (q + 1)) / 8.
Proof.
  intros Hj Hl. pose proof (pow2_ge2 j Hj) as Hn.
  destruct (mesh1d_sizes j Hj) as [Hm Hmc]. rewrite Hmc in Hl.
  destruct (fwP_closed_form j ell Hj Hl) as (y & Hy & Hly & Hyp).
  destruct (cP_closed_form j ell Hj Hl) as (c & Hc & Hlc & Hcp).
  destruct (cR_closed_form j y Hj Hly) as (r & Hr & Hlr & Hrq).
  exists y, c, r. split; [done|]. split; [done|]. split.
  { apply vec_ext; [unfold np_smul; rewrite length_map; lia|].
    intros p. rewrite Hyp. unfold np_smul.
    destruct (decide (p < length c)%nat) as [Hp|Hp].
    - rewrite nth_map_in by done. by rewrite Hcp.
    - rewrite nth_overflow by (rewrite length_map; lia).
      rewrite <- Hcp, nth_overflow by lia. lra. }
  split; [done|]. split; [lia|].
  intros q Hq. rewrite Hrq. case_decide; [|lia].
  unfold stencil. rewrite !Hyp.
  replace (2 * q - 1)%nat with (2 * (q - 1) + 1)%nat by lia.
  rewrite interp_even, !interp_odd.
  replace (q - 1 + 1)%nat with q by lia.
  assert (interior (2 ^ j) ell q = nth q ell 0) as ->.
  { unfold interior. case_decide; [done|lia]. }
  lra.
Qed.

Lemma fwP_is_half_cP_witness :
  ∃ y c r : vec,
    Mesh1D.fwP (Mesh1D.init 1) [0; 8; 0] = Ok y
    ∧ Mesh1D.cP (Mesh1D.init 1) [0; 8; 0] = Ok c
    ∧ y = np_smul 0.5 c
    ∧ Mesh1D.cR (Mesh1D.init 1) y = Ok r
    ∧ length r = length [0; 8; 0]
    ∧ ∀ q, (0 < q < 2 ^ 1)%nat →
        nth q r 0
        = (interior (2 ^ 1) [0; 8; 0] (q - 1) + 6 * nth q [0; 8; 0] 0
           + interior (2 ^ 1) [0; 8; 0] (q + 1)) / 8.
Proof. apply (fwP_is_half_cP 1 [0; 8; 0]); [lia|reflexivity]. Defined.

(** X13.  Both prolongations interpolate: every interior coarse value is
    copied to the fine node at the same place ([y[2q] = v[q]]), every
    odd fine node gets the mean of its two neighbours in the result, and
    the two boundary entries of the result are zero. *)
Theorem prolongation_interpolates k (v : vec) :
  (0 < k)%nat → length v = (2 ^ k + 1)%nat →
  ∃ y z : vec,
    PyMesh.prolong (PyMesh.init k) v = Ok y
    ∧ Mesh1D.cP (Mesh1D.init k) v = Ok z
    ∧ y = z
    ∧ length y = (2 * 2 ^ k + 1)%nat
    ∧ (∀ q, (0 < q < 2 ^ k)%nat → nth (2 * q) y 0 = nth q v 0)
    ∧ (∀ q, (q < 2 ^ k)%nat →
         nth (2 * q + 1) y 0
         = 0.5 * (nth (2 * q) y 0 + nth (2 * q + 2) y 0))
    ∧ nth 0 y 0 = 0 ∧ nth (2 * 2 ^ k) y 0 = 0.
Proof.
  intros Hk Hv. pose proof (pow2_S k) as HS.
  destruct (prolong_closed_form k v Hk Hv) as (y & Hy & Hly & Hyp).
  destruct (cP_closed_form k v Hk Hv) as (z & Hz & Hlz & Hzp).
  exists y, z. split; [done|]. split; [done|].
  split; [apply vec_ext; [lia|]; intros p; by rewrite Hyp, Hzp|].
  split; [lia|]. split; [|split; [|split]].
  - intros q Hq. rewrite Hyp, interp_even. unfold interior.
    case_decide; [done|lia].
  - intros q Hq. rewrite !Hyp.
    replace (2 * q + 2)%nat with (2 * (q + 1))%nat by lia.
    by rewrite interp_odd, !interp_even.
  - rewrite Hyp. change 0%nat with (2 * 0)%nat. rewrite interp_even.
    unfold interior. case_decide; [lia|done].
  - rewrite Hyp, interp_even. unfold interior. case_decide; [lia|done].
Qed.

Lemma prolongation_interpolates_witness :
  ∃ y z : vec,
    PyMesh.prolong (PyMesh.init 1) [0; 4; 0] = Ok y
    ∧ Mesh1D.cP (Mesh1D.init 1) [0; 4; 0] = Ok z
    ∧ y = z
    ∧ length y = (2 * 2 ^ 1 + 1)%nat
    ∧ (∀ q, (0 < q < 2 ^ 1)%nat → nth (2 * q) y 0 = nth q [0; 4; 0] 0)
    ∧ (∀ q, (q < 2 ^ 1)%nat →
         nth (2 * q + 1) y 0
         = 0.5 * (nth (2 * q) y 0 + nth (2 * q + 2) y 0))
    ∧ nth 0 y 0 = 0 ∧ nth (2 * 2 ^ 1) y 0 = 0.
Proof. apply (prolongation_interpolates 1 [0; 4; 0]); [lia|reflexivity]. Defined.

(* ================================================================= *)
(** ** Arguments of the wrong shape in [inactiveresidual] *)

Lemma zip_with_replicate_r {A B C : Type} (g : A → B → C) (l : list A) n b :
  length l = n → zip_with g l (replicate n b) = map (fun x => g x b) l.
Proof.
  revert n. induction l as [|x l IH]; intros [|n] Hl; try done.
  simpl. f_equal. apply IH. simpl in Hl. lia.
Qed.

(** X14.  [inactiveresidual] checks its arguments only through the
    operations it performs: an iterate [u] of the wrong length fails in
    [residual], so with the [NameError] of its assertion message; an
    obstacle [phi] of a length other than [m+1] and other than one fails
    the comparison [u < phi + osreps] with [ValueError]; an obstacle of
    length one is broadcast, that is, it acts as a constant obstacle. *)
Theorem inactiveresidual_argument_shapes k (u phi : vec) (f : R → R) (c : R) :
  (length u ≠ (PyMesh.m (PyMesh.init k) + 1)%nat →
   PyMesh.inactiveresidual (PyMesh.init k) u f phi = Err (NameError "v"))
  ∧ (length u = (PyMesh.m (PyMesh.init k) + 1)%nat →
     length phi ≠ length u → length phi ≠ 1%nat →
     PyMesh.inactiveresidual (PyMesh.init k) u f phi = Err ValueError)
  ∧ (length u = (PyMesh.m (PyMesh.init k) + 1)%nat →
     PyMesh.inactiveresidual (PyMesh.init k) u f [c]
     = PyMesh.inactiveresidual (PyMesh.init k) u f
         (replicate (PyMesh.m (PyMesh.init k) + 1) c)).
Proof.
  pose proof (pow2_pos (k + 1)) as Hm.
  split; [|split].
  - intros Hu. unfold PyMesh.inactiveresidual, PyMesh.residual.
    destruct (Nat.eqb_spec (length u) (PyMesh.m (PyMesh.init k) + 1));
      [done|]. reflexivity.
  - intros Hu Hphi H1.
    destruct (residual_closed_form k u f Hu) as (r & Hr & _ & _).
    unfold PyMesh.inactiveresidual. rewrite Hr, bind_Ok.
    unfold np_less, np_binop, np_adds. rewrite length_map.
    cbn [PyMesh.m PyMesh.init] in Hu.
    repeat case_decide; try lia; done.
  - intros Hu.
    destruct (residual_closed_form k u f Hu) as (r & Hr & _ & _).
    unfold PyMesh.inactiveresidual. rewrite Hr, !bind_Ok.
    assert (np_less u (np_adds [c] PyMesh.osreps)
            = np_less u (np_adds (replicate (PyMesh.m (PyMesh.init k) + 1) c)
                           PyMesh.osreps)) as ->; [|done].
    unfold np_less, np_binop, np_adds.
    rewrite !length_map, length_replicate. cbn [length map hd].
    cbn [PyMesh.m PyMesh.init] in *.
    repeat case_decide; try lia.
    f_equal. rewrite <- (zip_with_replicate_r Rltb u (2 ^ (k + 1) + 1)) by done.
    f_equal. clear. induction (2 ^ (k + 1) + 1)%nat as [|n IH]; [done|].
    simpl. by rewrite IH.
Qed.

Lemma inactiveresidual_argument_shapes_witness :
  PyMesh.inactiveresidual (PyMesh.init 0) [1; 2] (fun _ => 0) [0; 0; 0]
  = Err (NameError "v")
  ∧ PyMesh.inactiveresidual (PyMesh.init 0) [1; 2; 3] (fun _ => 0) [0; 0]
    = Err ValueError
  ∧ PyMesh.inactiveresidual (PyMesh.init 0) [1; 2; 3] (fun _ => 0) [5]
    = PyMesh.inactiveresidual (PyMesh.init 0) [1; 2; 3] (fun _ => 0)
        (replicate (PyMesh.m (PyMesh.init 0) + 1) 5).
Proof.
  split; [|split].
  - apply (proj1 (inactiveresidual_argument_shapes 0 [1; 2] [0; 0; 0]
                    (fun _ => 0) 0)).
    simpl. lia.
  - apply (proj1 (proj2 (inactiveresidual_argument_shapes 0 [1; 2; 3] [0; 0]
                           (fun _ => 0) 0))); simpl; lia.
  - apply (proj2 (proj2 (inactiveresidual_argument_shapes 0 [1; 2; 3] [0]
                           (fun _ => 0) 5))).
    reflexivity.
Defined.

(* ================================================================= *)
(** ** The constraint-decomposition V-cycle: schedule and counts *)

Section SubsetDecompSchedule.

Import SubsetDecomp.

Context (pgssweep : MeshLevel → vec → vec → vec → bool → vec * Z).
Context (residual : MeshLevel → vec → vec → vec).

Lemma total_count_app (a b : list call) :
  total_count (a ++ b) = (total_count a + total_count b)%Z.
Proof.
  unfold total_count. induction a as [|x a IH]; cbn [app foldr]; lia.
Qed.

Lemma total_count_const c (new : list call) :
  Forall (fun x => c_count x = c) new →
  total_count new = (c * Z.of_nat (length new))%Z.
Proof.
  unfold total_count.
  induction 1 as [|x new Hx _ IH]; cbn [foldr length]; lia.
Qed.

Lemma reported_const c (new : list call) :
  (∀ M v F phi b, (pgssweep M v F phi b).2 = c) →
  Forall (reported pgssweep) new → Forall (fun x => c_count x = c) new.
Proof.
  intros Hc Hrep. eapply Forall_impl; [exact Hrep|].
  intros x (M & v & F & ->). apply Hc.
Qed.

Lemma smoother_loop_trace i mesh F phi fwd sym n :
  ∀ acc st, ∃ v' k new,
    SubsetDecomp.smoother_loop pgssweep n i mesh F phi fwd sym acc st
    = Ok ((v', k), {| hierarchy := hierarchy st; calls := calls st ++ new |})
    ∧ Forall (fun c => c_level c = i ∧ c_phi c = phi) new
    ∧ map sweep_signature new
      = concat (replicate n (if sym then [(i, fwd); (i, negb fwd)]
                             else [(i, fwd)]))
    ∧ (k = (acc.2 + total_count new)%Z ∧ Forall (reported pgssweep) new).
Proof.
  induction n as [|n IH]; intros [v infeas] st.
  - exists v, infeas, []. rewrite app_nil_r. destruct st.
    repeat split; [constructor|cbn; lia|constructor].
  - cbn [SubsetDecomp.smoother_loop]. unfold SubsetDecomp.smoother_body.
    destruct (pgssweep mesh v F phi fwd) as [v1 n1] eqn:E1.
    destruct sym.
    + destruct (pgssweep mesh v1 F phi (negb fwd)) as [v2 n2] eqn:E2.
      destruct (IH (v2, (infeas + n1 + n2)%Z)
                  {| hierarchy := hierarchy st;
                     calls := (calls st
                               ++ [{| c_level := i; c_phi := phi;
                                      c_forward := fwd; c_count := n1 |}])
                              ++ [{| c_level := i; c_phi := phi;
                                     c_forward := negb fwd;
                                     c_count := n2 |}] |})
        as (v' & k & new & Hrun & Hall & Hsig & Hcount & Hrep).
      exists v', k,
        ({| c_level := i; c_phi := phi; c_forward := fwd; c_count := n1 |}
         :: {| c_level := i; c_phi := phi; c_forward := negb fwd;
               c_count := n2 |} :: new).
      split; [|split; [|split; [|split]]].
      * unfold mbind, SE_bind, record_call, mret, SE_ret in *. cbn in *.
        rewrite Hrun. by rewrite <- !app_assoc.
      * by repeat constructor.
      * cbn [map replicate concat app]. by rewrite Hsig.
      * rewrite Hcount. unfold total_count. cbn [snd foldr c_count]. lia.
      * constructor; [|constructor; [|done]].
        -- exists mesh, v, F. cbn [c_count c_phi c_forward]. by rewrite E1.
        -- exists mesh, v1, F. cbn [c_count c_phi c_forward]. by rewrite E2.
    + destruct (IH (v1, (infeas + n1)%Z)
                  {| hierarchy := hierarchy st;
                     calls := calls st
                              ++ [{| c_level := i; c_phi := phi;
                                     c_forward := fwd; c_count := n1 |}] |})
        as (v' & k & new & Hrun & Hall & Hsig & Hcount & Hrep).
      exists v', k,
        ({| c_level := i; c_phi := phi; c_forward := fwd; c_count := n1 |}
         :: new).
      split; [|split; [|split; [|split]]].
      * unfold mbind, SE_bind, record_call, mret, SE_ret in *. cbn in *.
        rewrite Hrun. by rewrite <- !app_assoc.
      * by repeat constructor.
      * cbn [map replicate concat app]. by rewrite Hsig.
      * rewrite Hcount. unfold total_count. cbn [snd foldr c_count]. lia.
      * constructor; [|done].
        exists mesh, v, F. cbn [c_count c_phi c_forward]. by rewrite E1.
Qed.

Lemma smoother_trace i s mesh v F phi fwd sym st :
  ∃ v' k new,
    SubsetDecomp._smoother pgssweep i s mesh v F phi fwd sym st
    = Ok ((v', k), {| hierarchy := hierarchy st; calls := calls st ++ new |})
    ∧ Forall (fun c => c_level c = i ∧ c_phi c = phi) new
    ∧ map sweep_signature new = smoother_schedule i s fwd sym
    ∧ (k = total_count new ∧ Forall (reported pgssweep) new).
Proof.
  unfold SubsetDecomp._smoother, smoother_schedule.
  destruct (smoother_loop_trace i mesh F phi fwd sym (Z.to_nat s) (v, 0%Z) st)
    as (v' & k & new & Hrun & Hall & Hsig & Hcount & Hrep).
  exists v', k, new. repeat split; done.
Qed.

(** What a returned cycle has recorded: the calls in the order of the
    schedule, the sum of the reported counts, and the obstacle of the
    coarsest level. *)
Lemma vcycle_schedule_trace down up coarse sym j :
  ∀ F st v n st',
  SubsetDecomp.vcycle pgssweep residual j F down up coarse sym st
  = Ok ((v, n), st') →
  ∃ new, calls st' = calls st ++ new
    ∧ map sweep_signature new = cycle_schedule j down up coarse sym
    ∧ (n = total_count new ∧ Forall (reported pgssweep) new)
    ∧ ∃ M0 chi0,
        hierarchy st' !! 0%nat = Some {| cls := M0; chi := Some chi0 |}
        ∧ ∀ c, c ∈ new → c_level c = 0%nat → c_phi c = chi0.
Proof.
  induction j as [|j' IH]; intros F st v n st' Hrun;
    rewrite vcycle_unfold in Hrun.
  - apply SE_bind_Ok in Hrun as ([] & s1 & H1 & Hrun).
    apply lift_Ok in H1 as [_ ->].
    apply SE_bind_Ok in Hrun as (mesh & s1 & H1 & Hrun).
    apply get_mesh_Ok in H1 as [Hmesh ->]. cbv zeta in Hrun.
    apply SE_bind_Ok in Hrun as ([] & s1 & H1 & Hrun).
    apply lift_Ok in H1 as [_ ->].
    apply SE_bind_Ok in Hrun as (chi0 & s1 & H1 & Hrun).
    apply get_chi_Ok in H1 as [[M0 Hchi] ->].
    destruct (smoother_trace 0 coarse (cls mesh) (zeros (cls mesh)) F chi0
                true sym st)
      as (v' & k & new & Hsm & Hall & Hsig & Hcount).
    rewrite Hsm in Hrun. simplify_eq. cbn [hierarchy calls].
    exists new. split; [done|]. split; [done|]. split; [done|].
    exists M0, chi0. split; [done|].
    intros c Hin _. by apply (proj1 (Forall_forall _ _) Hall c Hin).
  - apply SE_bind_Ok in Hrun as ([] & s1 & H1 & Hrun).
    apply lift_Ok in H1 as [Hassert ->].
    apply py_assert_Ok in Hassert.
    apply andb_prop in Hassert as [Hassert _].
    apply andb_prop in Hassert as [_ Hup]. apply Z.leb_le in Hup.
    apply SE_bind_Ok in Hrun as (mesh & s1 & H1 & Hrun).
    apply get_mesh_Ok in H1 as [Hmesh ->]. cbv zeta in Hrun.
    apply SE_bind_Ok in Hrun as ([] & s1 & H1 & Hrun).
    apply lift_Ok in H1 as [_ ->].
    apply SE_bind_Ok in Hrun as (chij & s1 & H1 & Hrun).
    apply get_chi_Ok in H1 as [[Mj Hchij] ->].
    apply SE_bind_Ok in Hrun as (cm & s1 & H1 & Hrun).
    apply lift_Ok in H1 as [HmR ->].
    apply SE_bind_Ok in Hrun as ([] & s1 & H1 & Hrun).
    apply set_chi_Ok in H1 as (Mc & HMc & ->).
    apply SE_bind_Ok in Hrun as (chij' & s1 & H1 & Hrun).
    apply get_chi_Ok in H1 as [_ ->].
    apply SE_bind_Ok in Hrun as (cc & s1 & H1 & Hrun).
    apply get_chi_Ok in H1 as [_ ->].
    apply SE_bind_Ok in Hrun as (pc & s1 & H1 & Hrun).
    apply lift_Ok in H1 as [_ ->].
    apply SE_bind_Ok in Hrun as (phi0 & s1 & H1 & Hrun).
    apply lift_Ok in H1 as [_ ->]. cbv zeta in Hrun.
    set (phi := if (0 <? up)%Z then np_muls phi0 0.5 else phi0) in *.
    match type of Hrun with (_ ≫= _) ?s = _ => set (st1 := s) in * end.
    destruct (smoother_trace (S j') down (cls mesh) (zeros (cls mesh)) F phi
                true sym st1)
      as (v1 & n1 & new1 & Hsm1 & Hall1 & Hsig1 & Hcount1).
    rewrite (SE_bind_run _ _ _ _ _ Hsm1) in Hrun.
    apply SE_bind_Ok in Hrun as (Fc & s1 & H1 & Hrun).
    apply lift_Ok in H1 as [_ ->].
    apply SE_bind_Ok in Hrun as ([vc ifc] & st2 & Hrec & Hrun).
    destruct (IH _ _ _ _ _ Hrec)
      as (newr & Hcalls & Hsigr & Hcountr & M0 & chi0 & H0 & Hphi0).
    cbn [hierarchy calls] in Hcalls.
    apply SE_bind_Ok in Hrun as (pv & s1 & H1 & Hrun).
    apply lift_Ok in H1 as [_ ->].
    apply SE_bind_Ok in Hrun as (v2 & s1 & H1 & Hrun).
    apply lift_Ok in H1 as [_ ->]. cbv zeta in Hrun.
    assert (∃ nu newu,
              n = (n1 + ifc + nu)%Z
              ∧ calls st' = calls st2 ++ newu
              ∧ hierarchy st' = hierarchy st2
              ∧ Forall (fun c => c_level c = S j' ∧ c_phi c = phi) newu
              ∧ map sweep_signature newu = smoother_schedule (S j') up true sym
              ∧ (nu = total_count newu ∧ Forall (reported pgssweep) newu))
      as (nu & newu & Hn & Hc' & Hh' & Hallu & Hsigu & Hcountu).
    { destruct (Z.ltb_spec 0 up) as [Hpos|Hzero].
      - destruct (smoother_trace (S j') up (cls mesh) v2 F phi true sym st2)
          as (v3 & n3 & new3 & Hsm3 & Hall3 & Hsig3 & Hcount3).
        rewrite (SE_bind_run _ _ _ _ _ Hsm3) in Hrun.
        apply SE_ret_Ok in Hrun as [Heq ->]. simplify_eq.
        exists n3, new3. cbn [hierarchy calls]. done.
      - apply SE_ret_Ok in Hrun as [Heq ->]. simplify_eq.
        exists 0%Z, []. rewrite app_nil_r.
        split; [lia|]. split; [done|]. split; [done|].
        split; [constructor|]. split.
        + unfold smoother_schedule.
          replace (Z.to_nat up) with 0%nat by lia. done.
        + split; [done|constructor]. }
    exists (new1 ++ newr ++ newu).
    split; [by rewrite Hc', Hcalls, <- !app_assoc|].
    split; [|split].
    + rewrite !map_app, Hsig1, Hsigr, Hsigu. done.
    + destruct Hcount1 as [-> Hrep1], Hcountr as [-> Hrepr],
        Hcountu as [-> Hrepu].
      split; [rewrite Hn, !total_count_app; lia|].
      rewrite !Forall_app. done.
    + exists M0, chi0. rewrite Hh'. split; [done|].
      intros c Hin Hlev. rewrite !elem_of_app in Hin.
      destruct Hin as [Hin|[Hin|Hin]].
      * pose proof (proj1 (Forall_forall _ _) Hall1 c Hin) as [Hl _]. lia.
      * by apply Hphi0.
      * pose proof (proj1 (Forall_forall _ _) Hallu c Hin) as [Hl _]. lia.
Qed.

Lemma length_smoother_schedule i s fwd sym :
  length (smoother_schedule i s fwd sym)
  = ((if sym then 2 else 1) * Z.to_nat s)%nat.
Proof.
  unfold smoother_schedule.
  destruct sym; induction (Z.to_nat s) as [|n IH]; try done;
    cbn [replicate concat]; rewrite length_app, IH; simpl; lia.
Qed.

Lemma length_cycle_schedule j down up coarse sym :
  length (cycle_schedule j down up coarse sym)
  = ((if sym then 2 else 1)
     * (j * (Z.to_nat down + Z.to_nat up) + Z.to_nat coarse))%nat.
Proof.
  induction j as [|j IH]; cbn [cycle_schedule].
  - rewrite length_smoother_schedule. destruct sym; lia.
  - rewrite !length_app, IH, !length_smoother_schedule. destruct sym; lia.
Qed.

(** X15.  The order of the smoother calls of a cycle that returns: on each
    level from [j] down to [1] the down-sweeps, then the coarse sweeps on
    level [0], then the up-sweeps on the levels [1] to [j]; every sweep is
    a forward sweep, followed by a backward one when [symmetric] is set.
    Their number is [j * (down + up) + coarse], doubled for symmetric
    sweeps. *)
Theorem vcycle_follows_schedule j (F : vec) down up coarse sym st v n st' :
  calls st = [] →
  SubsetDecomp.vcycle pgssweep residual j F down up coarse sym st
  = Ok ((v, n), st') →
  map sweep_signature (calls st') = cycle_schedule j down up coarse sym
  ∧ length (calls st')
    = ((if sym then 2 else 1)
       * (j * (Z.to_nat down + Z.to_nat up) + Z.to_nat coarse))%nat.
Proof.
  intros Hc Hrun.
  destruct (vcycle_schedule_trace _ _ _ _ _ _ _ _ _ _ Hrun)
    as (new & Hcalls & Hsig & _).
  rewrite Hcalls, Hc. cbn [app]. split; [done|].
  rewrite <- (length_map sweep_signature), Hsig.
  apply length_cycle_schedule.
Qed.

(** X16.  The count a cycle returns is the sum of the counts its sweeps
    report, each taken once: for every [pgssweep], a cycle that returns
    reports the sum of the counts recorded for its sweeps, and each
    recorded count is a value [pgssweep] returned for the obstacle and the
    direction of that sweep.  In particular, with a smoother that reports
    [c] infeasible points on every sweep the cycle reports [c] times the
    number of sweeps it made. *)
Theorem vcycle_sums_infeasible_counts j (F : vec) down up coarse sym st v n
    st' :
  calls st = [] →
  SubsetDecomp.vcycle pgssweep residual j F down up coarse sym st
  = Ok ((v, n), st') →
  n = total_count (calls st')
  ∧ Forall (reported pgssweep) (calls st')
  ∧ ∀ c : Z, (∀ M v F phi b, (pgssweep M v F phi b).2 = c) →
      n = (c * Z.of_nat (length (calls st')))%Z.
Proof.
  intros Hc Hrun.
  destruct (vcycle_schedule_trace _ _ _ _ _ _ _ _ _ _ Hrun)
    as (new & Hcalls & _ & [Hn Hrep] & _).
  rewrite Hcalls, Hc. cbn [app]. split; [done|]. split; [done|].
  intros c Hconst. rewrite Hn. apply total_count_const.
  by apply reported_const.
Qed.

(** X17.  The smoother of the coarsest level works against the defect
    obstacle stored on level [0] itself, whole: in a cycle that returns,
    every sweep recorded for level [0] received [hierarchy[0].chi] as it
    stands at the end of the cycle, also when [up > 0] halves the
    obstacles of the levels above. *)
Theorem vcycle_coarsest_obstacle j (F : vec) down up coarse sym st v n st' :
  calls st = [] →
  SubsetDecomp.vcycle pgssweep residual j F down up coarse sym st
  = Ok ((v, n), st') →
  ∃ M0 chi0,
    hierarchy st' !! 0%nat = Some {| cls := M0; chi := Some chi0 |}
    ∧ (∀ c, c ∈ calls st' → c_level c = 0%nat → c_phi c = chi0)
    ∧ ∃ c, c ∈ calls st' ∧ c_level c = 0%nat.
Proof.
  intros Hc Hrun.
  destruct (vcycle_schedule_trace _ _ _ _ _ _ _ _ _ _ Hrun)
    as (new & Hcalls & Hsig & _ & M0 & chi0 & H0 & Hphi).
  rewrite Hcalls, Hc. cbn [app].
  exists M0, chi0. split; [done|]. split; [done|].
  assert ((0%nat, true) ∈ map sweep_signature new) as Hin.
  { rewrite Hsig. clear -Hrun.
    assert (1 ≤ coarse)%Z as Hcoarse.
    { rewrite vcycle_unfold in Hrun.
      apply SE_bind_Ok in Hrun as ([] & s1 & H1 & _).
      apply lift_Ok in H1 as [Hassert _]. apply py_assert_Ok in Hassert.
      apply andb_prop in Hassert as [_ Hco]. by apply Z.leb_le in Hco. }
    clear Hrun. induction j as [|j IH]; cbn [cycle_schedule].
    - unfold smoother_schedule.
      destruct (Z.to_nat coarse) as [|k] eqn:E; [lia|].
      cbn [replicate concat]. destruct sym; apply elem_of_cons; by left.
    - rewrite !elem_of_app. right. by left. }
  apply list_elem_of_fmap in Hin as (c & Hsigc & Hin).
  exists c. split; [done|]. by injection Hsigc as <- _.
Qed.

End SubsetDecompSchedule.

Lemma demo_cycle_runs_any pg sym down up coarse :
  (∀ M v F phi b, length (pg M v F phi b).1 = length v) →
  (1 ≤ down)%Z → (0 ≤ up)%Z → (1 ≤ coarse)%Z →
  ∃ (v : vec) n st',
    SubsetDecomp.vcycle pg demo_residual 1 [0; 0; 0; 0; 0]
      down up coarse sym demo_state = Ok ((v, n), st').
Proof.
  intros Hpg Hd Hu Hc.
  destruct (vcycle_succeeds pg demo_residual down up coarse sym)
    with (j := 1%nat) (F := [0; 0; 0; 0; 0]) (st := demo_state)
         (M := SubsetDecomp.of_mesh1d (Mesh1D.init 1))
         (chij := [0; -1; -2; -1; 0])
    as (v & n & st' & Hrun & _ & _); try done.
  - apply (mesh1d_well_formed 2).
  - by exists v, n, st'.
Qed.

Lemma vcycle_follows_schedule_witness :
  ∃ (v : vec) n st',
    SubsetDecomp.vcycle demo_pgssweep demo_residual 1 [0; 0; 0; 0; 0]
      2 1 1 true demo_state = Ok ((v, n), st')
    ∧ map sweep_signature (SubsetDecomp.calls st')
      = cycle_schedule 1 2 1 1 true
    ∧ length (SubsetDecomp.calls st') = 8%nat.
Proof.
  destruct (demo_cycle_runs_any demo_pgssweep true 2 1 1)
    as (v & n & st' & Hrun); [done|lia|lia|lia|].
  exists v, n, st'. split; [exact Hrun|].
  exact (vcycle_follows_schedule demo_pgssweep demo_residual 1
           [0; 0; 0; 0; 0] 2 1 1 true demo_state v n st' eq_refl Hrun).
Defined.

Lemma vcycle_sums_infeasible_counts_witness :
  ∃ (v : vec) n st',
    SubsetDecomp.vcycle demo_pgssweep_one demo_residual 1 [0; 0; 0; 0; 0]
      2 1 1 true demo_state = Ok ((v, n), st')
    ∧ n = total_count (SubsetDecomp.calls st')
    ∧ n = (1 * Z.of_nat (length (SubsetDecomp.calls st')))%Z.
Proof.
  destruct (demo_cycle_runs_any demo_pgssweep_one true 2 1 1)
    as (v & n & st' & Hrun); [done|lia|lia|lia|].
  exists v, n, st'. split; [exact Hrun|].
  destruct (vcycle_sums_infeasible_counts demo_pgssweep_one demo_residual 1
              [0; 0; 0; 0; 0] 2 1 1 true demo_state v n st' eq_refl Hrun)
    as (Hsum & _ & Hconst).
  split; [exact Hsum|]. exact (Hconst 1%Z (fun _ _ _ _ _ => eq_refl)).
Defined.

Lemma vcycle_coarsest_obstacle_witness :
  ∃ (v : vec) n st',
    SubsetDecomp.vcycle demo_pgssweep demo_residual 1 [0; 0; 0; 0; 0]
      1 1 1 false demo_state = Ok ((v, n), st')
    ∧ ∃ M0 chi0,
        SubsetDecomp.hierarchy st' !! 0%nat
        = Some {| SubsetDecomp.cls := M0; SubsetDecomp.chi := Some chi0 |}
        ∧ (∀ c, c ∈ SubsetDecomp.calls st' →
             SubsetDecomp.c_level c = 0%nat → SubsetDecomp.c_phi c = chi0)
        ∧ ∃ c, c ∈ SubsetDecomp.calls st' ∧ SubsetDecomp.c_level c = 0%nat.
Proof.
  destruct (demo_cycle_runs_any demo_pgssweep false 1 1 1)
    as (v & n & st' & Hrun); [done|lia|lia|lia|].
  exists v, n, st'. split; [exact Hrun|].
  exact (vcycle_coarsest_obstacle demo_pgssweep demo_residual 1
           [0; 0; 0; 0; 0] 1 1 1 false demo_state v n st' eq_refl Hrun).
Defined.

(* ----------------------------------------------------------------- *)
(** *** A level or a defect obstacle that is missing *)

Section SubsetDecompErrors.

Import SubsetDecomp.

Context (pgssweep : MeshLevel → vec → vec → vec → bool → vec * Z).
Context (residual : MeshLevel → vec → vec → vec).

(** X18.  With admissible sweep counts, a cycle asked for a level the
    hierarchy does not have fails with [IndexError], and a cycle on a
    level whose attribute [chi] was never assigned fails with
    [AttributeError], in both cases before any smoother call. *)
Theorem vcycle_needs_level_and_obstacle j (F : vec) down up coarse sym st :
  (1 ≤ down)%Z → (0 ≤ up)%Z → (1 ≤ coarse)%Z →
  (hierarchy st !! j = None →
   SubsetDecomp.vcycle pgssweep residual j F down up coarse sym st
   = Err IndexError)
  ∧ (∀ M, hierarchy st !! j = Some {| cls := M; chi := None |} →
       length F = (m M + 2)%nat →
       SubsetDecomp.vcycle pgssweep residual j F down up coarse sym st
       = Err (AttributeError "chi")).
Proof.
  intros Hd Hu Hc.
  assert ((1 <=? down)%Z && (0 <=? up)%Z && (1 <=? coarse)%Z = true) as Hok.
  { destruct (Z.leb_spec 1 down), (Z.leb_spec 0 up), (Z.leb_spec 1 coarse);
      try done; lia. }
  split.
  - intros Hnone. rewrite vcycle_unfold, Hok. cbn [py_assert].
    rewrite (SE_bind_run _ _ _ _ _ (lift_run (S:=state) tt st)).
    unfold mbind, SE_bind, get_mesh. by rewrite Hnone.
  - intros M HM HF. rewrite vcycle_unfold, Hok. cbn [py_assert].
    rewrite (SE_bind_run _ _ _ _ _ (lift_run (S:=state) tt st)).
    rewrite (SE_bind_run _ _ _ _ _ (get_mesh_run _ _ _ HM)).
    cbv zeta. cbn [cls]. rewrite HF, Nat.eqb_refl. cbn [py_assert].
    rewrite (SE_bind_run _ _ _ _ _ (lift_run (S:=state) tt st)).
    destruct j; unfold mbind, SE_bind, get_chi; by rewrite HM.
Qed.

End SubsetDecompErrors.

Lemma vcycle_needs_level_and_obstacle_witness :
  SubsetDecomp.vcycle demo_pgssweep demo_residual 2 [0; 0; 0; 0; 0]
    1 0 1 false demo_state = Err IndexError
  ∧ SubsetDecomp.vcycle demo_pgssweep demo_residual 0 [0; 0; 0]
      1 0 1 false demo_state = Err (AttributeError "chi").
Proof.
  split.
  - apply (proj1 (vcycle_needs_level_and_obstacle demo_pgssweep demo_residual
                    2 [0; 0; 0; 0; 0] 1 0 1 false demo_state
                    ltac:(lia) ltac:(lia) ltac:(lia))).
    reflexivity.
  - apply (proj2 (vcycle_needs_level_and_obstacle demo_pgssweep demo_residual
                    0 [0; 0; 0] 1 0 1 false demo_state
                    ltac:(lia) ltac:(lia) ltac:(lia))
             (SubsetDecomp.of_mesh1d (Mesh1D.init 0))); reflexivity.
Defined.

(* ================================================================= *)
(** ** The reports of the constraint-decomposition V-cycle *)

Section SubsetDecompView.

Import SubsetDecomp.

Context (pgssweep : MeshLevel → vec → vec → vec → bool → vec * Z).
Context (residual : MeshLevel → vec → vec → vec).

Lemma string_app_nil_r (s : string) : (s ++ EmptyString)%string = s.
Proof. induction s as [|a s IH]; cbn; [done|by rewrite IH]. Qed.

Lemma string_app_assoc (a b c : string) :
  ((a ++ b) ++ c)%string = (a ++ b ++ c)%string.
Proof. induction a as [|x a IH]; cbn; [done|by rewrite IH]. Qed.

Lemma vcycle_view_unfold j F down up coarse levels view sym :
  vcycle_view pgssweep residual j F down up coarse levels view sym =
  (_ ← on_base (lift (py_assert
                        ((1 <=? down)%Z && (0 <=? up)%Z && (1 <=? coarse)%Z)
                        (Ok no_message)));
   mesh ← on_base (get_mesh j);
   let mesh := cls mesh in
   _ ← on_base (lift (py_assert (length F =? m mesh + 2)%nat
                        (Ok no_message)));
   let v := zeros mesh in
   match j with
   | O =>
       _ ← (if view then
              indent ← on_base (lift (levels_minus_one levels));
              print (_coarsereport indent (m mesh) coarse)
            else mret tt);
       chi0 ← on_base (get_chi j);
       on_base (SubsetDecomp._smoother pgssweep j coarse mesh v F chi0 true
                  sym)
   | S j' =>
       chij ← on_base (get_chi j);
       c ← on_base (lift (mR mesh chij));
       _ ← on_base (set_chi j' c);
       chij ← on_base (get_chi j);
       cc ← on_base (get_chi j');
       pc ← on_base (lift (P mesh cc));
       phi ← on_base (lift (np_sub chij pc));
       let phi := if (0 <? up)%Z then np_muls phi 0.5 else phi in
       _ ← (if view then
              indent ← on_base (lift (levels_minus_one levels));
              print (_levelreport indent j (m mesh) down)
            else mret tt);
       '(v, infeas) ← on_base (SubsetDecomp._smoother pgssweep j down mesh v
                                 F phi true sym);
       Fcoarse ← on_base (lift (cR mesh (residual mesh v F)));
       '(vcoarse, ifc) ← vcycle_view pgssweep residual j' Fcoarse down up
                           coarse levels view sym;
       pv ← on_base (lift (P mesh vcoarse));
       v ← on_base (lift (np_iadd v pv));
       let infeas := (infeas + ifc)%Z in
       if (0 <? up)%Z then
         _ ← (if view then
                indent ← on_base (lift (levels_minus_one levels));
                print (_levelreport indent j (m mesh) up)
              else mret tt);
         '(v, n) ← on_base (SubsetDecomp._smoother pgssweep j up mesh v F
                              phi true sym);
         mret (v, (infeas + n)%Z)
       else mret (v, infeas)
   end).
Proof. destruct j; reflexivity. Qed.

(** One step on the hierarchy, the console left alone. *)
Lemma view_step {A B : Type} (c : SE state A) (f : A → SE vstate B)
    (g : A → SE state B) b o t :
  (∀ a b', c b = Ok (a, b') →
     f a {| base := b'; out := o |} = writing (g a b') o t) →
  (on_base c ≫= f) {| base := b; out := o |} = writing ((c ≫= g) b) o t.
Proof.
  intros H. unfold mbind, SE_bind, on_base. cbn [base out].
  destruct (c b) as [[a b']|e] eqn:Hc; [by apply H|done].
Qed.

(** A report, written or not. *)
Lemma view_say {B : Type} L levels view (txt : Z → string)
    (f : unit → SE vstate B) (r : result (B * state)) b o t :
  (view = true → levels = Some L) →
  f tt {| base := b;
          out := (o ++ (if view then txt (L - 1)%Z else EmptyString))%string |}
  = writing r (o ++ (if view then txt (L - 1)%Z else EmptyString))%string t →
  ((if view then
      indent ← on_base (lift (levels_minus_one levels)); print (txt indent)
    else mret tt) ≫= f) {| base := b; out := o |}
  = writing r o ((if view then txt (L - 1)%Z else EmptyString) ++ t)%string.
Proof.
  intros Hl Hf. destruct view.
  - rewrite (Hl eq_refl). cbn -[String.append]. cbn -[String.append] in Hf.
    unfold print, mbind, SE_bind, on_base, lift. cbn [base out].
    rewrite Hf. unfold writing. destruct r as [[x b']|e]; [|done].
    by rewrite string_app_assoc.
  - cbn -[String.append] in *. rewrite string_app_nil_r in Hf.
    unfold mbind, SE_bind, mret, SE_ret. rewrite Hf. done.
Qed.

(** A call that writes, followed by the rest. *)
Lemma view_call {A B : Type} (cv : SE vstate A) (c : SE state A)
    (f : A → SE vstate B) (g : A → SE state B) b o t1 t2 :
  cv {| base := b; out := o |} = writing (c b) o t1 →
  (∀ a b', c b = Ok (a, b') →
     f a {| base := b'; out := (o ++ t1)%string |}
     = writing (g a b') (o ++ t1)%string t2) →
  (cv ≫= f) {| base := b; out := o |}
  = writing ((c ≫= g) b) o (t1 ++ t2)%string.
Proof.
  intros Hc Hf. unfold mbind, SE_bind. rewrite Hc. unfold writing at 1.
  destruct (c b) as [[a b']|e] eqn:Hcb; [|done].
  rewrite (Hf _ _ eq_refl). unfold writing.
  destruct (g a b') as [[x b'']|e]; [|done]. by rewrite string_app_assoc.
Qed.

Lemma view_last {A : Type} (c : SE state A) b o :
  on_base c {| base := b; out := o |} = writing (c b) o EmptyString.
Proof.
  unfold on_base, writing. cbn [base out].
  destruct (c b) as [[a b']|e]; [|done]. by rewrite string_app_nil_r.
Qed.

Lemma view_ret {A : Type} (a : A) b o :
  (mret a : SE vstate A) {| base := b; out := o |}
  = writing ((mret a : SE state A) b) o EmptyString.
Proof. unfold mret, SE_ret, writing. by rewrite string_app_nil_r. Qed.

Lemma smoother_keeps_hierarchy i s mesh v F phi fwd sym b r b' :
  SubsetDecomp._smoother pgssweep i s mesh v F phi fwd sym b = Ok (r, b') →
  hierarchy b' = hierarchy b.
Proof.
  destruct (smoother_trace pgssweep i s mesh v F phi fwd sym b)
    as (v' & k & new & Hrun & _).
  rewrite Hrun. intros; by simplify_eq.
Qed.

(** A cycle that may write is the silent cycle and its report, whenever
    [levels] is a number or nothing is to be written. *)
Lemma vcycle_view_run L levels view down up coarse sym :
  (view = true → levels = Some L) →
  ∀ j F b o,
  vcycle_view pgssweep residual j F down up coarse levels view sym
    {| base := b; out := o |}
  = writing (SubsetDecomp.vcycle pgssweep residual j F down up coarse sym b) o
      (if view
       then view_report (cls <$> hierarchy b) (L - 1) j down up coarse
       else EmptyString).
Proof.
  intros Hl. induction j as [|j' IH]; intros F b o;
    rewrite vcycle_view_unfold, vcycle_unfold.
  - apply view_step; intros [] b1 H1. apply lift_Ok in H1 as [H1 ->].
    apply view_step; intros M b1 H2. apply get_mesh_Ok in H2 as [H2 ->].
    cbv zeta. apply view_step; intros [] b1 H3.
    apply lift_Ok in H3 as [H3 ->].
    replace (if view
             then view_report (cls <$> hierarchy b) (L - 1) 0 down up coarse
             else EmptyString)
      with ((if view then _coarsereport (L - 1) (m (cls M)) coarse else EmptyString)
            ++ EmptyString)%string.
    2: { rewrite string_app_nil_r. destruct view; [|done].
         cbn [view_report]. by rewrite list_lookup_fmap, H2. }
    apply (view_say L levels view
             (fun indent => _coarsereport indent (m (cls M)) coarse));
      [done|].
    apply view_step; intros chi0 b1 H4. apply get_chi_Ok in H4 as [_ ->].
    apply view_last.
  - apply view_step; intros [] b1 H1. apply lift_Ok in H1 as [H1 ->].
    apply view_step; intros M b1 H2. apply get_mesh_Ok in H2 as [H2 ->].
    cbv zeta. apply view_step; intros [] b1 H3.
    apply lift_Ok in H3 as [H3 ->].
    apply view_step; intros chij b1 H4. apply get_chi_Ok in H4 as [_ ->].
    apply view_step; intros c b1 H5. apply lift_Ok in H5 as [H5 ->].
    apply view_step; intros [] b1 H6.
    apply set_chi_Ok in H6 as (Mc & H6 & ->).
    set (b1 := {| hierarchy := _; calls := _ |}).
    assert (cls <$> hierarchy b1 = cls <$> hierarchy b) as Hcls
      by (by apply classes_set_chi).
    clearbody b1.
    apply view_step; intros chij' b2 H7. apply get_chi_Ok in H7 as [_ ->].
    apply view_step; intros cc b2 H8. apply get_chi_Ok in H8 as [_ ->].
    apply view_step; intros pc b2 H9. apply lift_Ok in H9 as [H9 ->].
    apply view_step; intros phi b2 H10. apply lift_Ok in H10 as [H10 ->].
    set (phi' := if (0 <? up)%Z then np_muls phi 0.5 else phi).
    set (line s := _levelreport (L - 1) (S j') (m (cls M)) s).
    replace (if view
             then view_report (cls <$> hierarchy b) (L - 1) (S j') down up
                    coarse
             else EmptyString)
      with ((if view then line down else EmptyString)
            ++ (if view
                then view_report (cls <$> hierarchy b) (L - 1) j' down up
                       coarse
                else EmptyString)
            ++ (if (0 <? up)%Z then (if view then line up else EmptyString) ++ EmptyString
                else EmptyString))%string.
    2: { destruct view.
         - cbn [view_report]. rewrite list_lookup_fmap, H2.
           rewrite string_app_nil_r. done.
         - by destruct (0 <? up)%Z. }
    apply (view_say L levels view
             (fun indent => _levelreport indent (S j') (m (cls M)) down));
      [done|].
    apply view_step; intros [v1 n1] b2 H11. cbv beta iota.
    apply smoother_keeps_hierarchy in H11.
    apply view_step; intros Fc b3 H12. apply lift_Ok in H12 as [H12 ->].
    apply view_call.
    { rewrite IH. by rewrite H11, Hcls. }
    intros [vc ifc] b3 _. cbv beta iota.
    apply view_step; intros pv b4 H13. apply lift_Ok in H13 as [H13 ->].
    apply view_step; intros v2 b4 H14. apply lift_Ok in H14 as [H14 ->].
    cbv zeta. destruct (0 <? up)%Z.
    + apply (view_say L levels view
               (fun indent => _levelreport indent (S j') (m (cls M)) up));
        [done|].
      apply view_step; intros [v3 n3] b4 _. cbv beta iota.
      apply view_ret.
    + apply view_ret.
Qed.

Lemma on_base_run {A B : Type} (c : SE state A) (f : A → SE vstate B)
    b o a b' :
  c b = Ok (a, b') →
  (on_base c ≫= f) {| base := b; out := o |}
  = f a {| base := b'; out := o |}.
Proof.
  intros Hc. unfold mbind, SE_bind, on_base. cbn [base out]. by rewrite Hc.
Qed.

(** Replay on the hierarchy the steps a silent run has made. *)
Ltac replay :=
  repeat (cbv beta zeta;
    match goal with
    | H : ?c ?b = Ok (?a, ?b')
      |- context [(on_base ?c ≫= _) {| base := ?b; out := _ |}] =>
        rewrite (on_base_run c _ b _ a b' H)
    end).

(** X19. Viewing changes nothing but the console.  Without [view] the cycle
    writes nothing and is the silent cycle, whatever [levels] is; with
    [view=True] and a number for [levels] it returns what the silent cycle
    returns, fails where it fails, leaves the hierarchy as it leaves it, and
    has written the line of each level on the way down, the line of the
    coarsest level, and the lines of the way up when [up > 0]. *)
Theorem vcycle_view_report j (F : vec) down up coarse sym s :
  (∀ levels,
     vcycle_view pgssweep residual j F down up coarse levels false sym s
     = on_base (SubsetDecomp.vcycle pgssweep residual j F down up coarse sym)
         s)
  ∧ (∀ L,
       vcycle_view pgssweep residual j F down up coarse (Some L) true sym s
       = writing
           (SubsetDecomp.vcycle pgssweep residual j F down up coarse sym
              (base s))
           (out s)
           (view_report (cls <$> hierarchy (base s)) (L - 1) j down up
              coarse)).
Proof.
  destruct s as [b o]. cbn [base out]. split.
  - intros levels.
    rewrite (vcycle_view_run 0 levels false) by done.
    unfold writing, on_base. cbn [base out].
    destruct (SubsetDecomp.vcycle _ _ _ _ _ _ _ _ _) as [[r b']|e]; [|done].
    by rewrite string_app_nil_r.
  - intros L. by rewrite (vcycle_view_run L (Some L) true).
Qed.

(** X20. [view=True] needs [levels]: with [levels] left at [None] the cycle
    never returns, and whenever the silent cycle returns on the same
    hierarchy, the viewing one raises [TypeError] (at [levels-1], before
    the first smoother call). *)
Theorem vcycle_view_needs_levels j (F : vec) down up coarse sym s :
  (∀ r, vcycle_view pgssweep residual j F down up coarse None true sym s
        ≠ Ok r)
  ∧ (∀ r, SubsetDecomp.vcycle pgssweep residual j F down up coarse sym
            (base s) = Ok r →
          vcycle_view pgssweep residual j F down up coarse None true sym s
          = Err TypeError).
Proof.
  assert (∀ r, SubsetDecomp.vcycle pgssweep residual j F down up coarse sym
                 (base s) = Ok r →
               vcycle_view pgssweep residual j F down up coarse None true sym
                 s = Err TypeError) as Hraise.
  { intros r Hrun. destruct s as [b o]. cbn [base] in Hrun.
    rewrite vcycle_unfold in Hrun. rewrite vcycle_view_unfold.
    destruct j as [|j']; inv_run Hrun; replay; reflexivity. }
  split; [|exact Hraise].
  intros r Hrun. destruct s as [b o].
  rewrite vcycle_view_unfold in Hrun.
  destruct j as [|j']; inv_run Hrun;
    match goal with
    | H : (on_base (lift (levels_minus_one None)) ≫= _) _ = Ok _ |- _ =>
        apply SE_bind_Ok in H as (? & ? & H & _); discriminate H
    end.
Qed.

End SubsetDecompView.

Lemma vcycle_view_report_witness :
  ∃ (v : vec) n st',
    SubsetDecomp.vcycle_view demo_pgssweep demo_residual 1 [0; 0; 0; 0; 0]
      2 1 1 (Some 2%Z) true false
      {| SubsetDecomp.base := demo_state; SubsetDecomp.out := EmptyString |}
    = Ok ((v, n),
          {| SubsetDecomp.base := st';
             SubsetDecomp.out :=
               ("level 1: 2 sweeps over m=3 nodes" ++ SubsetDecomp.newline
                ++ "  coarsest: 1 sweeps over m=1 nodes"
                ++ SubsetDecomp.newline
                ++ "level 1: 1 sweeps over m=3 nodes"
                ++ SubsetDecomp.newline)%string |}).
Proof.
  destruct (demo_cycle_runs_any demo_pgssweep false 2 1 1)
    as (v & n & st' & Hrun); [done|lia|lia|lia|].
  exists v, n, st'.
  rewrite (proj2 (vcycle_view_report demo_pgssweep demo_residual 1
                    [0; 0; 0; 0; 0] 2 1 1 false
                    {| SubsetDecomp.base := demo_state;
                       SubsetDecomp.out := EmptyString |}) 2%Z).
  cbn [SubsetDecomp.base SubsetDecomp.out]. rewrite Hrun. reflexivity.
Defined.

Lemma vcycle_view_needs_levels_witness :
  (∃ r, SubsetDecomp.vcycle demo_pgssweep demo_residual 1 [0; 0; 0; 0; 0]
          2 1 1 false demo_state = Ok r)
  ∧ SubsetDecomp.vcycle_view demo_pgssweep demo_residual 1 [0; 0; 0; 0; 0]
      2 1 1 None true false
      {| SubsetDecomp.base := demo_state; SubsetDecomp.out := EmptyString |}
    = Err TypeError.
Proof.
  destruct (demo_cycle_runs_any demo_pgssweep false 2 1 1)
    as (v & n & st' & Hrun); [done|lia|lia|lia|].
  split; [by eexists|].
  exact (proj2 (vcycle_view_needs_levels demo_pgssweep demo_residual 1
                  [0; 0; 0; 0; 0] 2 1 1 false
                  {| SubsetDecomp.base := demo_state;
                     SubsetDecomp.out := EmptyString |})
           _ Hrun).
Defined.

(* ================================================================= *)
(** ** The FAS scheme: construction, cost and footprint of a cycle *)

Section CyclesMore.

Import Cycles CycleSpec.

Context (self : FAS).

(** What one V-cycle from level [k] adds to the counter of level [i]. *)
Lemma wu_gain_closed k i :
  (kcoarse self ≤ k)%nat →
  wu_gain self k i =
  if decide (i = kcoarse self) then IZR (coarse self)
  else if decide (kcoarse self < i ≤ k)%nat
       then IZR (down self) + IZR (up self) else 0.
Proof.
  induction k as [|k' IH]; intros Hk; rewrite wu_gain_unfold.
  - repeat case_decide; try lia; done.
  - destruct (decide (S k' = kcoarse self)) as [E|E].
    + repeat case_decide; try lia; done.
    + rewrite IH by lia. repeat case_decide; try lia; lra.
Qed.

Lemma geometric_sum n : sum_below (fun i => 1 / 2 ^ i) n = 2 - 2 / 2 ^ n.
Proof.
  induction n as [|n IH]; [simpl; lra|].
  cbn [sum_below]. rewrite IH. simpl.
  assert (2 ^ n ≠ 0) by (apply pow_nonzero; lra). field. done.
Qed.

Lemma sum_below_scale_l f c n :
  sum_below (fun i => c * f i) n = c * sum_below f n.
Proof.
  induction n as [|n IH]; [simpl; lra|].
  cbn [sum_below]. rewrite IH. lra.
Qed.

(** X21.  The cost of one V-cycle, for any sweep counts: started from the
    finest level of a fresh [FAS] object, a cycle that returns leaves
    [wutotal() = (down + up) * (2 - 2 / 2^n) + coarse / 2^n], where
    [n = kfine - kcoarse] is the number of levels above the coarsest
    (exact arithmetic). *)
Theorem vcycle_work_units u ell arrays st' :
  (kcoarse self ≤ kfine self)%nat →
  u ≠ ell → is_Some (arrays !! u) → is_Some (arrays !! ell) →
  vcycle self (kfine self) u ell (init_state self arrays) = Ok (tt, st') →
  wutotal self st'
  = Ok ((IZR (down self) + IZR (up self))
        * (2 - 2 / 2 ^ (kfine self - kcoarse self))
        + IZR (coarse self) / 2 ^ (kfine self - kcoarse self), st').
Proof.
  intros Hk Hne [u0 Hu0] [l Hl] Hrun.
  destruct (vcycle_sound self (kfine self) u ell (init_state self arrays) st'
              u0 l Hne Hu0 Hl Hrun)
    as (u' & _ & _ & _ & Hwl & Hwu).
  cbn [init_state sweeps wu] in Hwl, Hwu. rewrite length_np_zeros in Hwl.
  rewrite (wutotal_weighted_sum self) by done. do 2 f_equal.
  set (n := (kfine self - kcoarse self)%nat).
  rewrite sum_below_rev.
  rewrite (sum_below_zero_tail _ (S n)).
  - cbn [sum_below].
    rewrite (sum_below_ext _
               (fun i => (IZR (down self) + IZR (up self)) * (1 / 2 ^ i))).
    2:{ intros i Hi.
        replace (kfine self + 1 - 1 - i)%nat with (kfine self - i)%nat by lia.
        rewrite Hwu, nth_np_zeros, wu_gain_closed by done.
        replace (kfine self - (kfine self - i))%nat with i by lia.
        unfold n in Hi. repeat case_decide; try lia. lra. }
    rewrite sum_below_scale_l, geometric_sum.
    replace (kfine self + 1 - 1 - n)%nat with (kcoarse self)
      by (unfold n; lia).
    rewrite Hwu, nth_np_zeros, wu_gain_closed by done.
    replace (kfine self - kcoarse self)%nat with n by done.
    case_decide; [|done]. lra.
  - unfold n. lia.
  - intros i Hi.
    replace (kfine self + 1 - 1 - i)%nat with (kfine self - i)%nat by lia.
    rewrite Hwu, nth_np_zeros, wu_gain_closed by done.
    unfold n in Hi. repeat case_decide; try lia. lra.
Qed.

(** Relaxing the points [ps] leaves every other entry as it was, when the
    pointwise relaxation touches its own entry only. *)
Lemma relax_points_frame M (lc : vec) ps q :
  (∀ h w ell p n q, q ≠ p →
     nth q (ngspoint (prob self) h w ell p n) 0 = nth q w 0) →
  q ∉ ps →
  ∀ wc : vec, nth q (relax_points self M lc ps wc) 0 = nth q wc 0.
Proof.
  intros Hloc. unfold relax_points.
  induction ps as [|p ps IH]; intros Hq wc; [done|].
  cbn [foldl]. rewrite IH.
  - apply Hloc. intros ->. apply Hq. by left.
  - intros Hin. apply Hq. by right.
Qed.

Lemma relax_points_length M (lc : vec) ps :
  (∀ h w ell p n, length (ngspoint (prob self) h w ell p n) = length w) →
  ∀ wc : vec, length (relax_points self M lc ps wc) = length wc.
Proof.
  intros Hlen. unfold relax_points.
  induction ps as [|p ps IH]; intros wc; [done|].
  cbn [foldl]. by rewrite IH, Hlen.
Qed.

(** X22.  A sweep relaxes the interior points [1..m-1] only, in either
    direction: when the pointwise relaxation of the problem changes no
    entry but the one of its point and keeps the length, [ngssweep] keeps
    the length of [w], its value at node [0] and its values from node [m]
    on, and does not touch [ell]. *)
Theorem ngssweep_keeps_boundary k w ell fwd st st' (wc lc : vec) M :
  (∀ h w ell p n,
     length (ngspoint (prob self) h w ell p n) = length w
     ∧ ∀ q, q ≠ p → nth q (ngspoint (prob self) h w ell p n) 0 = nth q w 0) →
  meshes self !! k = Some M →
  w ≠ ell → store st !! w = Some wc → store st !! ell = Some lc →
  ngssweep self k w ell fwd st = Ok (tt, st') →
  ∃ w' : vec,
    store st' !! w = Some w'
    ∧ store st' !! ell = Some lc
    ∧ length w' = length wc
    ∧ nth 0 w' 0 = nth 0 wc 0
    ∧ ∀ q, (m M ≤ q)%nat → nth q w' 0 = nth q wc 0.
Proof.
  intros Hloc HM Hne Hw Hl Hrun.
  destruct (ngssweep_Ok self _ _ _ _ _ _ _ _ Hne Hw Hl Hrun)
    as (w' & Hs & ->).
  unfold sweep, mesh in Hs. rewrite HM, bind_Ok in Hs. injection Hs as <-.
  cbn [store].
  assert (w < length (store st))%nat as Hlt by (by eapply lookup_lt_Some).
  eexists. split; [by apply list_lookup_insert_eq|].
  split; [by rewrite list_lookup_insert_ne|].
  split; [apply relax_points_length; intros; apply Hloc|].
  assert (∀ q, (q = 0 ∨ m M ≤ q)%nat →
            q ∉ (if fwd then range 1 (m M) else rev (range 1 (m M))))
    as Hout.
  { intros q Hq Hin. destruct fwd.
    - unfold range in Hin. apply elem_of_seq in Hin. lia.
    - apply list_elem_of_In, in_rev in Hin. unfold range in Hin.
      apply in_seq in Hin. lia. }
  split.
  - apply relax_points_frame; [intros; by apply Hloc|]. apply Hout. by left.
  - intros q Hq. apply relax_points_frame; [intros; by apply Hloc|].
    apply Hout. by right.
Qed.

(** X23.  A V-cycle acts in place on [u] and on nothing else: a call that
    returns has overwritten the array [u] with the iterate that the cycle
    computes from the old contents of [u] and of [ell] alone, and has left
    [ell] and every other array that existed before the call as it was. *)
Theorem vcycle_in_place k u ell st st' (u0 l : vec) :
  u ≠ ell → store st !! u = Some u0 → store st !! ell = Some l →
  vcycle self k u ell st = Ok (tt, st') →
  (∃ u' : vec, fas_vcycle self k u0 l = Ok u' ∧ store st' !! u = Some u')
  ∧ store st' !! ell = Some l
  ∧ (length (store st) ≤ length (store st'))%nat
  ∧ ∀ x, (x < length (store st))%nat → x ≠ u →
      store st' !! x = store st !! x.
Proof.
  intros Hne Hu Hl Hrun.
  destruct (vcycle_sound self k u ell st st' u0 l Hne Hu Hl Hrun)
    as (u' & Hfas & (Hlen & Hu' & Hframe) & _).
  split; [by exists u'|]. split; [|split; [done|done]].
  rewrite Hframe; [done| |done]. by eapply lookup_lt_Some.
Qed.

(** A cycle asked for a level below the coarsest one fails its assertion
    at once, whatever the arrays and the state. *)
Lemma vcycle_below_coarsest_fails k u ell st :
  (k < kcoarse self)%nat →
  vcycle self k u ell st = Err (AssertionError no_message).
Proof.
  intros Hk. rewrite (vcycle_unfold_fas self). case_decide; [lia|].
  destruct (Nat.ltb_spec (kcoarse self) k); [lia|]. reflexivity.
Qed.

End CyclesMore.

(** X24.  The assertions on the levels of the scheme.  [FAS(...)] needs at
    least two levels: the constructor fails an assertion when
    [kcoarse < 0] or [kfine <= kcoarse]; otherwise it returns an object
    with [kcoarse < kfine] whose work-unit counters are [kfine + 1] zeros,
    so that [wutotal()] is [0] before any cycle.  And a V-cycle asked for a
    level below [kcoarse] fails its assertion at once. *)
Theorem FAS_level_assertions meshes prob (kc kf c d u n : Z) :
  ((kc < 0 ∨ kf ≤ kc)%Z →
   Cycles.init meshes prob kc kf c d u n = Err (AssertionError no_message))
  ∧ ((0 ≤ kc < kf)%Z →
     ∃ self,
       Cycles.init meshes prob kc kf c d u n
       = Ok (self, Cycles.wu (Cycles.init_state self []))
       ∧ (Cycles.kcoarse self < Cycles.kfine self)%nat
       ∧ length (Cycles.wu (Cycles.init_state self []))
         = (Cycles.kfine self + 1)%nat
       ∧ Cycles.wutotal self (Cycles.init_state self [])
         = Ok (0, Cycles.init_state self [])
       ∧ ∀ k w ell st, (k < Cycles.kcoarse self)%nat →
           Cycles.vcycle self k w ell st = Err (AssertionError no_message)).
Proof.
  unfold Cycles.init. split.
  - intros Hbad. destruct (Z.leb_spec 0 kc); [|done].
    cbn [py_assert]. rewrite bind_Ok.
    destruct (Z.ltb_spec kc kf); [lia|done].
  - intros [H0 Hlt].
    destruct (Z.leb_spec 0 kc); [|lia].
    destruct (Z.ltb_spec kc kf); [|lia].
    cbn [py_assert]. rewrite !bind_Ok. cbv zeta.
    exists {| Cycles.meshes := meshes; Cycles.prob := prob;
              Cycles.kcoarse := Z.to_nat kc; Cycles.kfine := Z.to_nat kf;
              Cycles.coarse := c; Cycles.down := d; Cycles.up := u;
              Cycles.niters := n |}.
    split; [reflexivity|]. cbn [Cycles.kcoarse Cycles.kfine].
    split; [lia|]. split; [apply length_np_zeros|].
    split; [|intros; by apply vcycle_below_coarsest_fails].
    rewrite wutotal_weighted_sum
      by (cbn [Cycles.init_state Cycles.wu Cycles.kfine];
          apply length_np_zeros).
    do 2 f_equal. cbn [Cycles.init_state Cycles.wu].
    rewrite (sum_below_ext _ (fun _ => 0)).
    + rewrite sum_below_const. lra.
    + intros i _. rewrite nth_np_zeros. unfold Rdiv. lra.
Qed.

Lemma FAS_level_assertions_witness :
  Cycles.init [] demo_problem 0 0 1 1 0 2 = Err (AssertionError no_message)
  ∧ ∃ self,
      Cycles.init (Cycles.meshes demo_fas) demo_problem 1 2 1 1 0 2
      = Ok (self, Cycles.wu (Cycles.init_state self []))
      ∧ (Cycles.kcoarse self < Cycles.kfine self)%nat
      ∧ length (Cycles.wu (Cycles.init_state self []))
        = (Cycles.kfine self + 1)%nat
      ∧ Cycles.wutotal self (Cycles.init_state self [])
        = Ok (0, Cycles.init_state self [])
      ∧ ∀ k w ell st, (k < Cycles.kcoarse self)%nat →
          Cycles.vcycle self k w ell st = Err (AssertionError no_message).
Proof.
  split.
  - apply (proj1 (FAS_level_assertions [] demo_problem 0 0 1 1 0 2)).
    lia.
  - apply (proj2 (FAS_level_assertions (Cycles.meshes demo_fas)
                    demo_problem 1 2 1 1 0 2)). lia.
Defined.

Lemma vcycle_work_units_witness :
  ∃ st' : Cycles.state,
    Cycles.vcycle demo_fas 1 0%nat 1%nat
      (Cycles.init_state demo_fas demo_arrays) = Ok (tt, st')
    ∧ Cycles.wutotal demo_fas st'
      = Ok ((IZR 1 + IZR 0) * (2 - 2 / 2 ^ (1 - 0)) + IZR 1 / 2 ^ (1 - 0),
            st').
Proof.
  destruct demo_vcycle_runs as [st' Hrun].
  exists st'. split; [exact Hrun|].
  apply (vcycle_work_units demo_fas 0%nat 1%nat demo_arrays st');
    [simpl; lia|done|by eexists|by eexists|exact Hrun].
Defined.

Lemma demo_ngspoint_local h (w ell : vec) p n :
  length (Cycles.ngspoint demo_problem h w ell p n) = length w
  ∧ ∀ q, q ≠ p → nth q (Cycles.ngspoint demo_problem h w ell p n) 0
                 = nth q w 0.
Proof.
  cbn [Cycles.ngspoint demo_problem]. split; [apply length_insert|].
  intros q Hq. rewrite nth_insert. case_decide; [lia|done].
Qed.

Lemma demo_sweep_runs :
  ∃ st', Cycles.ngssweep demo_fas 1 0%nat 1%nat false
           (Cycles.init_state demo_fas demo_arrays) = Ok (tt, st').
Proof.
  eexists. lazy -[Rplus Rminus Rmult Rdiv Rinv Ropp IZR INR]. reflexivity.
Qed.

Lemma ngssweep_keeps_boundary_witness :
  ∃ (st' : Cycles.state) (w' : vec),
    Cycles.ngssweep demo_fas 1 0%nat 1%nat false
      (Cycles.init_state demo_fas demo_arrays) = Ok (tt, st')
    ∧ Cycles.store st' !! 0%nat = Some w'
    ∧ Cycles.store st' !! 1%nat = Some [0; 1; 2; 1; 0]
    ∧ length w' = length [0; 0; 0; 0; 0]
    ∧ nth 0 w' 0 = nth 0 [0; 0; 0; 0; 0] 0
    ∧ ∀ q, (4 ≤ q)%nat → nth q w' 0 = nth q [0; 0; 0; 0; 0] 0.
Proof.
  destruct demo_sweep_runs as [st' Hrun].
  destruct (ngssweep_keeps_boundary demo_fas 1 0%nat 1%nat false
              (Cycles.init_state demo_fas demo_arrays) st'
              [0; 0; 0; 0; 0] [0; 1; 2; 1; 0]
              (Cycles.of_pymesh (PyMesh.init 1)))
    as (w' & H); [apply demo_ngspoint_local|reflexivity|done|reflexivity
                 |reflexivity|exact Hrun|].
  exists st', w'. split; [exact Hrun|exact H].
Defined.

Lemma vcycle_in_place_witness :
  ∃ st' : Cycles.state,
    Cycles.vcycle demo_fas 1 0%nat 1%nat
      (Cycles.init_state demo_fas demo_arrays) = Ok (tt, st')
    ∧ (∃ u' : vec,
         CycleSpec.fas_vcycle demo_fas 1 [0; 0; 0; 0; 0] [0; 1; 2; 1; 0]
         = Ok u'
         ∧ Cycles.store st' !! 0%nat = Some u')
    ∧ Cycles.store st' !! 1%nat = Some [0; 1; 2; 1; 0].
Proof.
  destruct demo_vcycle_runs as [st' Hrun].
  destruct (vcycle_in_place demo_fas 1 0%nat 1%nat
              (Cycles.init_state demo_fas demo_arrays) st'
              [0; 0; 0; 0; 0] [0; 1; 2; 1; 0])
    as (Hu & Hell & _); [done|reflexivity|reflexivity|exact Hrun|].
  exists st'. split; [exact Hrun|]. split; [exact Hu|exact Hell].
Defined.

(* ================================================================= *)
(** ** The FAS F-cycle *)

Section FullCycleFacts.

Import Cycles CycleSpec.

Context (self : FAS) (mms : bool) (zeros xx : MeshLevel → vec)
  (prob_mms : vec → result (vec * vec)).

Abbreviation rhs := (Cycles.rhs self mms zeros xx prob_mms).
Abbreviation fcycle_level :=
  (Cycles.fcycle_level self mms zeros xx prob_mms).
Abbreviation fcycle := (Cycles.fcycle self mms zeros xx prob_mms).

Lemma lookup_app_old (s : list vec) (v : vec) x :
  (x < length s)%nat → (s ++ [v]) !! x = s !! x.
Proof. intros Hx. by rewrite lookup_app_l. Qed.

(** [rhs] allocates one array and touches nothing else. *)
Lemma rhs_Ok k st l st' :
  rhs k st = Ok (l, st') →
  l = length (store st)
  ∧ wu st' = wu st
  ∧ length (store st') = S (length (store st))
  ∧ ∀ x, (x < length (store st))%nat → store st' !! x = store st !! x.
Proof.
  unfold Cycles.rhs. intros Hrun.
  apply SE_bind_Ok in Hrun as (M & s1 & H1 & Hrun).
  apply mesh_at_Ok in H1 as [_ ->].
  apply SE_bind_Ok in Hrun as (l0 & s1 & H1 & Hrun).
  apply alloc_Ok in H1 as [-> ->].
  destruct mms.
  - apply SE_bind_Ok in Hrun as (M1 & s1 & H1 & Hrun).
    apply mesh_at_Ok in H1 as [_ ->].
    apply SE_bind_Ok in Hrun as ([g0 g] & s1 & H1 & Hrun).
    apply lift_Ok in H1 as [_ ->].
    apply SE_bind_Ok in Hrun as (M2 & s1 & H1 & Hrun).
    apply mesh_at_Ok in H1 as [_ ->]. cbv zeta in Hrun.
    apply SE_bind_Ok in Hrun as (ec & s1 & H1 & Hrun).
    apply load_Ok in H1 as [_ ->].
    apply SE_bind_Ok in Hrun as (ec' & s1 & H1 & Hrun).
    apply lift_Ok in H1 as [_ ->].
    apply SE_bind_Ok in Hrun as ([] & s1 & H1 & Hrun).
    apply assign_Ok in H1 as [_ ->].
    apply SE_ret_Ok in Hrun as [-> ->]. cbn [store wu].
    split; [done|]. split; [done|].
    split; [rewrite length_insert, length_app; simpl; lia|].
    intros x Hx. rewrite list_lookup_insert_ne by lia.
    by apply lookup_app_old.
  - apply SE_ret_Ok in Hrun as [-> ->]. cbn [store wu].
    split; [done|]. split; [done|].
    split; [rewrite length_app; simpl; lia|].
    intros x Hx. by apply lookup_app_old.
Qed.

(** [Phat] returns a new array and touches nothing else. *)
Lemma Phat_Ok k w ell st w' st' (lc : vec) :
  store st !! ell = Some lc →
  Phat self k w ell st = Ok (w', st') →
  w' = length (store st)
  ∧ wu st' = wu st
  ∧ length (store st') = S (length (store st))
  ∧ ∀ x, (x < length (store st))%nat → store st' !! x = store st !! x.
Proof.
  intros Hl Hrun. unfold Phat in Hrun.
  assert (ell < length (store st))%nat as Hlt by (by eapply lookup_lt_Some).
  apply SE_bind_Ok in Hrun as (M & s1 & H1 & Hrun).
  apply mesh_at_Ok in H1 as [HM ->].
  apply SE_bind_Ok in Hrun as (wc & s1 & H1 & Hrun).
  apply load_Ok in H1 as [_ ->].
  apply SE_bind_Ok in Hrun as (pw & s1 & H1 & Hrun).
  apply lift_Ok in H1 as [_ ->].
  apply SE_bind_Ok in Hrun as (l0 & s1 & H1 & Hrun).
  apply alloc_Ok in H1 as [-> ->].
  apply SE_bind_Ok in Hrun as (M1 & s1 & H1 & Hrun).
  apply mesh_at_Ok in H1 as [_ ->].
  apply SE_bind_Ok in Hrun as ([] & s1 & Hloop & Hrun).
  apply SE_ret_Ok in Hrun as [-> ->].
  eapply (points_loop_Ok self k M (length (store st)) ell lc) in Hloop;
    [|done|lia| |]; cbn [store].
  - rewrite Hloop. cbn [store wu].
    split; [done|]. split; [done|].
    split; [rewrite length_insert, length_app; simpl; lia|].
    intros x Hx. rewrite list_lookup_insert_ne by lia.
    by apply lookup_app_old.
  - by rewrite lookup_app_r, Nat.sub_diag.
  - by rewrite lookup_app_old.
Qed.

(** A run of [n] V-cycles on the same arrays. *)
Lemma vcycles_loop_Ok k u ell (qs : list nat) :
  u ≠ ell →
  ∀ st st',
  is_Some (store st !! u) → is_Some (store st !! ell) →
  for_each qs (fun _ => vcycle self k u ell) st = Ok (tt, st') →
  length (wu st') = length (wu st)
  ∧ (∀ i, nth i (wu st') 0
          = nth i (wu st) 0 + INR (length qs) * wu_gain self k i)
  ∧ (length (store st) ≤ length (store st'))%nat
  ∧ (∀ x, (x < length (store st))%nat → x ≠ u →
       store st' !! x = store st !! x)
  ∧ is_Some (store st' !! u).
Proof.
  intros Hne. induction qs as [|q qs IH]; intros st st' Hu Hl Hrun.
  - apply SE_ret_Ok in Hrun as [_ ->].
    split; [done|]. split; [intros; simpl; lra|]. done.
  - cbn [for_each] in Hrun.
    apply SE_bind_Ok in Hrun as ([] & s1 & Hcyc & Hrun).
    destruct Hu as [u0 Hu0], Hl as [l Hl0].
    destruct (vcycle_sound self k u ell st s1 u0 l Hne Hu0 Hl0 Hcyc)
      as (u' & _ & (Hlen & Hu' & Hframe) & _ & Hwl & Hwu).
    assert (ell < length (store st))%nat as Hlt
      by (by eapply lookup_lt_Some).
    destruct (IH s1 st') as (Hwl' & Hwu' & Hlen' & Hframe' & Hu'');
      [by eexists|rewrite Hframe by done; by eexists|done|].
    split; [lia|]. split; [|split; [lia|split; [|done]]].
    + intros i. rewrite Hwu', Hwu.
      change (length (q :: qs)) with (S (length qs)). rewrite S_INR. lra.
    + intros x Hx Hxu. rewrite Hframe' by (done || lia). by apply Hframe.
Qed.

(** One level of the F-cycle. *)
Lemma fcycle_level_Ok cycles ep k u s st u' s' st' :
  is_Some (store st !! u) →
  fcycle_level cycles ep k (u, s) st = Ok ((u', s'), st') →
  length (wu st') = length (wu st)
  ∧ (∀ i, nth i (wu st') 0
          = nth i (wu st) 0
            + ((if ep then if decide (i = k) then 0.5 else 0 else 0)
               + INR (Z.to_nat (if decide (k = kfine self) then cycles
                                else 1%Z))
                 * wu_gain self k i))
  ∧ (length (store st) ≤ length (store st'))%nat
  ∧ (∀ x, (x < length (store st))%nat → store st' !! x = store st !! x)
  ∧ is_Some (store st' !! u')
  ∧ (length (store st) ≤ u')%nat.
Proof.
  intros Hu Hrun. unfold Cycles.fcycle_level in Hrun.
  apply SE_bind_Ok in Hrun as (ellg & st1 & Hrhs & Hrun).
  apply rhs_Ok in Hrhs as (-> & Hw1 & Hl1 & Hf1).
  assert (is_Some (store st1 !! length (store st))) as [lc Hlc].
  { apply lookup_lt_is_Some_2. lia. }
  apply SE_bind_Ok in Hrun as (u1 & st2 & Hprol & Hrun).
  assert (u1 = length (store st1)
          ∧ length (wu st2) = length (wu st1)
          ∧ (∀ i, nth i (wu st2) 0
                  = nth i (wu st1) 0
                    + (if ep then if decide (i = k) then 0.5 else 0 else 0))
          ∧ length (store st2) = S (length (store st1))
          ∧ ∀ x, (x < length (store st1))%nat →
              store st2 !! x = store st1 !! x)
    as (-> & Hwl2 & Hw2 & Hl2 & Hf2).
  { destruct ep.
    - apply SE_bind_Ok in Hprol as (u2 & s2 & HP & Hprol).
      apply (Phat_Ok _ _ _ _ _ _ lc Hlc) in HP as (-> & HwP & HlP & HfP).
      apply SE_bind_Ok in Hprol as ([] & s3 & Hadd & Hprol).
      apply wu_add_Ok in Hadd as [Hk ->].
      apply SE_ret_Ok in Hprol as [-> ->]. cbn [store wu].
      split; [done|]. split; [by rewrite length_insert, HwP|].
      split; [|done].
      intros i. rewrite nth_insert, HwP. rewrite HwP in Hk.
      destruct (decide (i = k)) as [->|Hik].
      + rewrite decide_True by done. lra.
      + rewrite decide_False by (intros [? _]; done). lra.
    - apply SE_bind_Ok in Hprol as (M & s2 & H1 & Hprol).
      apply mesh_at_Ok in H1 as [_ ->].
      apply SE_bind_Ok in Hprol as (uc & s2 & H1 & Hprol).
      apply load_Ok in H1 as [_ ->].
      apply SE_bind_Ok in Hprol as (pu & s2 & H1 & Hprol).
      apply lift_Ok in H1 as [_ ->].
      apply alloc_Ok in Hprol as [-> ->]. cbn [store wu].
      split; [done|]. split; [done|]. split; [intros; lra|].
      split; [rewrite length_app; simpl; lia|].
      intros x Hx. by apply lookup_app_old. }
  cbv zeta in Hrun.
  apply SE_bind_Ok in Hrun as ([] & st3 & Hloop & Hrun).
  apply SE_bind_Ok in Hrun as ([] & st4 & Hs & Hrun).
  apply lift_Ok in Hs as [_ ->].
  apply SE_ret_Ok in Hrun as [Heq ->]. injection Heq as -> _.
  apply vcycles_loop_Ok in Hloop
    as (Hwl3 & Hw3 & Hl3 & Hf3 & Hu3).
  - rewrite length_range0 in Hw3.
    split; [by rewrite Hwl3, Hwl2, Hw1|]. split; [|split; [lia|split; [|split; [done|lia]]]].
    + intros i. rewrite Hw3, Hw2, Hw1. lra.
    + intros x Hx. rewrite Hf3, Hf2, Hf1 by lia. done.
  - lia.
  - apply lookup_lt_is_Some_2. lia.
  - rewrite Hf2 by lia. by eexists.
Qed.

(** The levels [a, a+1, ..., a+n-1] of the F-cycle, one after the other. *)
Lemma fcycle_levels_Ok cycles ep n :
  ∀ a u s st u' s' st',
  is_Some (store st !! u) →
  for_acc (seq a n) (fcycle_level cycles ep) (u, s) st = Ok ((u', s'), st') →
  length (wu st') = length (wu st)
  ∧ (∀ i, nth i (wu st') 0
          = nth i (wu st) 0
            + sum_below (fun t =>
                (if ep then if decide (i = (a + t)%nat) then 0.5 else 0
                 else 0)
                + INR (Z.to_nat (if decide ((a + t)%nat = kfine self)
                                 then cycles else 1%Z))
                  * wu_gain self (a + t) i) n)
  ∧ (∀ x, (x < length (store st))%nat → store st' !! x = store st !! x)
  ∧ is_Some (store st' !! u')
  ∧ (∀ b, (b ≤ u)%nat → (b ≤ length (store st))%nat → (b ≤ u')%nat)
  ∧ ((0 < n)%nat → (length (store st) ≤ u')%nat).
Proof.
  induction n as [|n IH]; intros a u s st u' s' st' Hu Hrun.
  - apply SE_ret_Ok in Hrun as [Heq ->]. injection Heq as -> ->.
    split; [done|]. split; [intros; simpl; lra|].
    split; [done|]. split; [done|]. split; [done|lia].
  - cbn [seq for_acc] in Hrun.
    apply SE_bind_Ok in Hrun as ([u1 s1] & st1 & Hlev & Hrun).
    apply fcycle_level_Ok in Hlev as (Hwl1 & Hw1 & Hl1 & Hf1 & Hu1 & Hge1);
      [|done].
    apply IH in Hrun as (Hwl2 & Hw2 & Hf2 & Hu2 & Hmon & _); [|done].
    split; [lia|]. split; [|split; [|split; [done|split]]].
    + intros i. rewrite Hw2, Hw1, sum_below_shift. cbv beta.
      replace (a + 0)%nat with a by lia.
      match goal with
      | |- _ + _ + ?A = _ + (_ + ?B) => assert (A = B) as ->; [|lra]
      end.
      apply sum_below_ext. intros t _.
      replace (a + S t)%nat with (S a + t)%nat by lia. done.
    + intros x Hx. rewrite Hf2, Hf1 by lia. done.
    + intros b Hb1 Hb2. apply Hmon; lia.
    + intros _. apply Hmon; lia.
Qed.

(** The sum of what the levels [a..kfine] of the F-cycle add to the counter
    of level [i]. *)
Lemma fcycle_gain_sum (cycles : Z) (ep : bool) n :
  ∀ a i, (kcoarse self < a)%nat → (a + n = kfine self + 1)%nat →
  (0 < n)%nat →
  sum_below (fun t =>
      (if ep then if decide (i = (a + t)%nat) then 0.5 else 0 else 0)
      + INR (Z.to_nat (if decide ((a + t)%nat = kfine self)
                       then cycles else 1%Z))
        * wu_gain self (a + t) i) n
  = (if ep then if decide (a ≤ i ≤ kfine self)%nat then 0.5 else 0 else 0)
    + (if decide (i = kcoarse self) then
         IZR (coarse self) * INR (n - 1 + Z.to_nat cycles)
       else if decide (kcoarse self < i ≤ kfine self)%nat then
         (IZR (down self) + IZR (up self))
         * INR (kfine self - (if decide (i ≤ a)%nat then a else i)
                + Z.to_nat cycles)
       else 0).
Proof.
  induction n as [|n IH]; intros a i Ha Han Hn; [lia|].
  destruct n as [|n].
  - cbn [sum_below]. replace (a + 0)%nat with a by lia.
    assert (a = kfine self) as -> by lia.
    rewrite (decide_True (P := kfine self = kfine self)) by done.
    rewrite (wu_gain_closed self) by lia.
    replace (1 - 1 + Z.to_nat cycles)%nat with (Z.to_nat cycles) by lia.
    destruct ep; repeat case_decide; try lia;
      rewrite ?Nat.sub_diag; cbn [Nat.add]; lra.
  - rewrite sum_below_shift. cbv beta.
    rewrite (sum_below_ext _
      (fun t =>
         (if ep then if decide (i = (S a + t)%nat) then 0.5 else 0 else 0)
         + INR (Z.to_nat (if decide ((S a + t)%nat = kfine self)
                          then cycles else 1%Z))
           * wu_gain self (S a + t) i)).
    2:{ intros t _. replace (a + S t)%nat with (S a + t)%nat by lia. done. }
    rewrite (IH (S a) i) by lia.
    replace (a + 0)%nat with a by lia.
    rewrite (decide_False (P := a = kfine self)) by lia.
    change (Z.to_nat 1) with 1%nat. cbn [INR].
    rewrite (wu_gain_closed self) by lia.
    replace (S (S n) - 1 + Z.to_nat cycles)%nat
      with (S (S n - 1 + Z.to_nat cycles)) by lia.
    destruct (decide (i = kcoarse self)) as [->|Hi].
    + rewrite S_INR.
      destruct ep; repeat case_decide; try lia; lra.
    + destruct (decide (kcoarse self < i ≤ kfine self)%nat) as [Hin|Hout].
      * destruct (decide (i ≤ a)%nat) as [Hia|Hia].
        -- rewrite (decide_True (P := (i ≤ S a)%nat)) by lia.
           rewrite (decide_True (P := (kcoarse self < i ≤ a)%nat)) by lia.
           replace (kfine self - a + Z.to_nat cycles)%nat
             with (S (kfine self - S a + Z.to_nat cycles)) by lia.
           rewrite S_INR.
           destruct ep; repeat case_decide; try lia; lra.
        -- rewrite (decide_False (P := (kcoarse self < i ≤ a)%nat)) by lia.
           destruct (decide (i ≤ S a)%nat) as [His|His].
           ++ assert (i = S a) as -> by lia.
              destruct ep; repeat case_decide; try lia; lra.
           ++ destruct ep; repeat case_decide; try lia; lra.
      * rewrite (decide_False (P := (kcoarse self < i ≤ a)%nat)) by lia.
        destruct ep; repeat case_decide; try lia; lra.
Qed.

(** What an F-cycle that returns has done to the state. *)
Lemma fcycle_Ok cycles ep st u st' :
  (kcoarse self < kfine self)%nat →
  fcycle cycles ep st = Ok (u, st') →
  length (wu st') = length (wu st)
  ∧ (∀ i, nth i (wu st') 0
          = nth i (wu st) 0
            + (if decide (i = kcoarse self) then
                 IZR (coarse self)
                 * INR (kfine self - kcoarse self + Z.to_nat cycles)
               else if decide (kcoarse self < i ≤ kfine self)%nat then
                 (if ep then 0.5 else 0)
                 + (IZR (down self) + IZR (up self))
                   * INR (kfine self - i + Z.to_nat cycles)
               else 0))
  ∧ (∀ x, (x < length (store st))%nat → store st' !! x = store st !! x)
  ∧ is_Some (store st' !! u)
  ∧ (length (store st) ≤ u)%nat.
Proof.
  intros Hk Hrun. unfold Cycles.fcycle in Hrun.
  apply SE_bind_Ok in Hrun as (Mc & s1 & H1 & Hrun).
  apply mesh_at_Ok in H1 as [_ ->].
  apply SE_bind_Ok in Hrun as (u0 & st1 & H1 & Hrun).
  apply alloc_Ok in H1 as [-> ->].
  apply SE_bind_Ok in Hrun as (ellg & st2 & Hrhs & Hrun).
  apply rhs_Ok in Hrhs as (-> & Hw2 & Hl2 & Hf2). cbn [store wu] in *.
  pose proof (length_app (store st) [zeros Mc]) as Hla. cbn [length] in Hla.
  apply SE_bind_Ok in Hrun as ([] & st3 & Hcs & Hrun).
  assert (vcycle self (kcoarse self) (length (store st))
            (length (store st ++ [zeros Mc])) st2 = Ok (tt, st3)) as Hcyc.
  { rewrite (vcycle_unfold_fas self). by rewrite decide_True by done. }
  assert (is_Some (store st2 !! length (store st))) as [u0 Hu0]
    by (apply lookup_lt_is_Some_2; lia).
  assert (is_Some (store st2 !! length (store st ++ [zeros Mc])))
    as [l0 Hl0].
  { apply lookup_lt_is_Some_2. lia. }
  assert (length (store st) ≠ length (store st ++ [zeros Mc])) as Hne
    by lia.
  destruct (vcycle_sound self (kcoarse self) _ _ st2 st3 u0 l0
              Hne Hu0 Hl0 Hcyc)
    as (u' & _ & (Hlen3 & Hu3 & Hf3) & _ & Hwl3 & Hw3).
  apply SE_bind_Ok in Hrun as ([u1 s1] & st4 & Hloop & Hrun).
  apply SE_ret_Ok in Hrun as [-> ->].
  unfold range in Hloop.
  replace (kfine self + 1 - (kcoarse self + 1))%nat
    with (kfine self - kcoarse self)%nat in Hloop by lia.
  apply fcycle_levels_Ok in Hloop as (Hwl4 & Hw4 & Hf4 & Hu4 & _ & Hge4);
    [|by eexists].
  specialize (Hge4 ltac:(lia)).
  split; [by rewrite Hwl4, Hwl3, Hw2|].
  split; [|split; [|split; [done|lia]]].
  - intros i. rewrite Hw4, Hw3, Hw2.
    rewrite fcycle_gain_sum by lia.
    rewrite (wu_gain_closed self) by lia.
    destruct (decide (i = kcoarse self)) as [->|Hi].
    + replace (kfine self - kcoarse self + Z.to_nat cycles)%nat
        with (S (kfine self - kcoarse self - 1 + Z.to_nat cycles)) by lia.
      rewrite S_INR.
      destruct ep; repeat case_decide; try lia; lra.
    + destruct (decide (kcoarse self < i ≤ kfine self)%nat) as [Hin|Hout].
      * rewrite (decide_False (P := (kcoarse self < i ≤ kcoarse self)%nat))
          by lia.
        destruct (decide (i ≤ kcoarse self + 1)%nat) as [Hle|Hgt].
        -- assert (i = kcoarse self + 1)%nat as -> by lia.
           destruct ep; repeat case_decide; try lia; lra.
        -- destruct ep; repeat case_decide; try lia; lra.
      * rewrite (decide_False (P := (kcoarse self < i ≤ kcoarse self)%nat))
          by lia.
        destruct ep; repeat case_decide; try lia; lra.
  - intros x Hx. rewrite Hf4 by lia.
    rewrite Hf3 by lia. rewrite Hf2 by lia. by apply lookup_app_old.
Qed.

(** X25.  The work units of an F-cycle: started on a fresh [FAS] object,
    an F-cycle that returns has counted [coarse] units on the coarsest
    level once for the initial solve and once for every V-cycle, and on
    each level [i] above it [down + up] units for every V-cycle that
    reaches the level ([kfine - i] of them from the levels below the
    finest, [cycles] from the finest), plus [0.5] units when the enhanced
    prolongation is on. *)
Theorem fcycle_work_units cycles ep arrays u st' :
  (kcoarse self < kfine self)%nat →
  fcycle cycles ep (init_state self arrays) = Ok (u, st') →
  ∀ i, nth i (wu st') 0
       = if decide (i = kcoarse self) then
           IZR (coarse self)
           * INR (kfine self - kcoarse self + Z.to_nat cycles)
         else if decide (kcoarse self < i ≤ kfine self)%nat then
           (if ep then 0.5 else 0)
           + (IZR (down self) + IZR (up self))
             * INR (kfine self - i + Z.to_nat cycles)
         else 0.
Proof.
  intros Hk Hrun i.
  destruct (fcycle_Ok cycles ep _ _ _ Hk Hrun) as (_ & Hw & _).
  rewrite Hw. cbn [init_state wu]. rewrite nth_np_zeros. lra.
Qed.

(** X26.  An F-cycle works on arrays of its own: the array it returns did
    not exist before the call, and every array that did is left as it
    was. *)
Theorem fcycle_returns_fresh_array cycles ep st u st' :
  (kcoarse self < kfine self)%nat →
  fcycle cycles ep st = Ok (u, st') →
  (length (store st) ≤ u)%nat
  ∧ is_Some (store st' !! u)
  ∧ ∀ x, (x < length (store st))%nat → store st' !! x = store st !! x.
Proof.
  intros Hk Hrun.
  destruct (fcycle_Ok cycles ep _ _ _ Hk Hrun) as (_ & _ & Hf & Hu & Hge).
  done.
Qed.

(** X27.  On a two-level scheme ([kfine = kcoarse + 1]) an F-cycle asked
    for no cycle on the finest level ([cycles <= 0]) never returns: after
    the work of the level its last statement evaluates [s + 1] with the
    loop variable [s] still unbound. *)
Theorem fcycle_without_cycles_never_returns cycles ep st :
  kfine self = S (kcoarse self) → (cycles ≤ 0)%Z →
  ∀ r, fcycle cycles ep st ≠ Ok r.
Proof.
  intros Hk Hc [u st'] Hrun. unfold Cycles.fcycle in Hrun.
  apply SE_bind_Ok in Hrun as (Mc & s1 & _ & Hrun).
  apply SE_bind_Ok in Hrun as (u0 & s2 & _ & Hrun).
  apply SE_bind_Ok in Hrun as (ellg & s3 & _ & Hrun).
  apply SE_bind_Ok in Hrun as ([] & s4 & _ & Hrun).
  apply SE_bind_Ok in Hrun as ([u1 s'] & s5 & Hloop & _).
  unfold range in Hloop.
  replace (kfine self + 1 - (kcoarse self + 1))%nat with 1%nat in Hloop
    by lia.
  cbn [seq for_acc] in Hloop.
  apply SE_bind_Ok in Hloop as ([u2 s2'] & s6 & Hlev & _).
  unfold Cycles.fcycle_level in Hlev.
  apply SE_bind_Ok in Hlev as (e1 & s7 & _ & Hlev).
  apply SE_bind_Ok in Hlev as (u3 & s8 & _ & Hlev).
  cbv zeta in Hlev.
  apply SE_bind_Ok in Hlev as ([] & s9 & _ & Hlev).
  apply SE_bind_Ok in Hlev as ([] & s10 & Hs & _).
  rewrite decide_True in Hs by lia.
  destruct (Z.ltb_spec 0 cycles); [lia|]. done.
Qed.

(** X28.  The enhanced prolongation relaxes the odd interior points of the
    interpolated vector and nothing else: [Phat] leaves its argument [w]
    as it was and returns a new array which, when the pointwise relaxation
    changes no entry but the one of its point, agrees with [P(w)] at every
    even node (the nodes of the coarser mesh) and from node [m] on. *)
Theorem Phat_keeps_coarse_values k w ell st w' st' (wc lc : vec) M :
  (∀ h w ell p n,
     length (ngspoint (prob self) h w ell p n) = length w
     ∧ ∀ q, q ≠ p → nth q (ngspoint (prob self) h w ell p n) 0 = nth q w 0) →
  meshes self !! k = Some M →
  store st !! w = Some wc → store st !! ell = Some lc →
  Phat self k w ell st = Ok (w', st') →
  ∃ pw y : vec,
    P M wc = Ok pw
    ∧ w' = length (store st)
    ∧ store st' !! w' = Some y
    ∧ store st' !! w = Some wc
    ∧ length y = length pw
    ∧ ∀ q, Nat.even q = true ∨ (m M ≤ q)%nat → nth q y 0 = nth q pw 0.
Proof.
  intros Hloc HM Hw Hl Hrun. unfold Phat in Hrun.
  assert (ell < length (store st))%nat as Hlt by (by eapply lookup_lt_Some).
  assert (w < length (store st))%nat as Hltw by (by eapply lookup_lt_Some).
  apply SE_bind_Ok in Hrun as (M0 & s1 & H1 & Hrun).
  apply mesh_at_Ok in H1 as [HM0 ->].
  assert (M0 = M) as -> by congruence.
  apply SE_bind_Ok in Hrun as (wc0 & s1 & H1 & Hrun).
  apply load_Ok in H1 as [Hw0 ->].
  assert (wc0 = wc) as -> by congruence.
  apply SE_bind_Ok in Hrun as (pw & s1 & H1 & Hrun).
  apply lift_Ok in H1 as [HP ->].
  apply SE_bind_Ok in Hrun as (l0 & s1 & H1 & Hrun).
  apply alloc_Ok in H1 as [-> ->].
  apply SE_bind_Ok in Hrun as (M1 & s1 & H1 & Hrun).
  apply mesh_at_Ok in H1 as [HM1 ->].
  assert (M1 = M) as -> by congruence.
  apply SE_bind_Ok in Hrun as ([] & s1 & Hloop & Hrun).
  apply SE_ret_Ok in Hrun as [-> ->].
  eapply (points_loop_Ok self k M (length (store st)) ell lc) in Hloop;
    [|done|lia| |]; cbn [store].
  2:{ by rewrite lookup_app_r, Nat.sub_diag. }
  2:{ by rewrite lookup_app_old. }
  rewrite Hloop. cbn [store].
  exists pw, (relax_points self M lc (range2 1 (m M)) pw).
  split; [done|]. split; [done|].
  split; [apply list_lookup_insert_eq; rewrite length_app; simpl; lia|].
  split; [rewrite list_lookup_insert_ne by lia; by rewrite lookup_app_old|].
  split; [apply (relax_points_length self); intros; apply Hloc|].
  intros q Hq. apply (relax_points_frame self); [intros; by apply Hloc|].
  intros Hin. unfold range2 in Hin.
  apply list_elem_of_fmap in Hin as (i & -> & Hi).
  apply elem_of_seq in Hi.
  destruct Hq as [Hev|Hge].
  - replace (1 + 2 * i)%nat with (2 * i + 1)%nat in Hev by lia.
    by rewrite even_double_S in Hev.
  - pose proof (Nat.div_mod_eq (m M - 1 + 1) 2) as Hdiv.
    pose proof (Nat.mod_upper_bound (m M - 1 + 1) 2 ltac:(lia)). lia.
Qed.

End FullCycleFacts.

Lemma demo_fcycle_runs :
  ∃ u st', Cycles.fcycle demo_fas true demo_zeros demo_xx demo_mms 1 true
             (Cycles.init_state demo_fas demo_arrays) = Ok (u, st').
Proof.
  eexists _, _. lazy -[Rplus Rminus Rmult Rdiv Rinv Ropp IZR INR].
  reflexivity.
Qed.

Lemma fcycle_work_units_witness :
  ∃ u st',
    Cycles.fcycle demo_fas true demo_zeros demo_xx demo_mms 1 true
      (Cycles.init_state demo_fas demo_arrays) = Ok (u, st')
    ∧ nth 0 (Cycles.wu st') 0 = 1 * INR 2
    ∧ nth 1 (Cycles.wu st') 0 = 0.5 + (1 + 0) * INR 1.
Proof.
  destruct demo_fcycle_runs as (u & st' & Hrun).
  exists u, st'. split; [exact Hrun|].
  pose proof (fcycle_work_units demo_fas true demo_zeros demo_xx demo_mms
                1 true demo_arrays u st' ltac:(simpl; lia) Hrun) as Hwu.
  split; [exact (Hwu 0%nat)|exact (Hwu 1%nat)].
Defined.

Lemma fcycle_returns_fresh_array_witness :
  ∃ u st',
    Cycles.fcycle demo_fas true demo_zeros demo_xx demo_mms 1 true
      (Cycles.init_state demo_fas demo_arrays) = Ok (u, st')
    ∧ (2 ≤ u)%nat
    ∧ is_Some (Cycles.store st' !! u)
    ∧ Cycles.store st' !! 0%nat = Some [0; 0; 0; 0; 0]
    ∧ Cycles.store st' !! 1%nat = Some [0; 1; 2; 1; 0].
Proof.
  destruct demo_fcycle_runs as (u & st' & Hrun).
  exists u, st'. split; [exact Hrun|].
  destruct (fcycle_returns_fresh_array demo_fas true demo_zeros demo_xx
              demo_mms 1 true (Cycles.init_state demo_fas demo_arrays) u st'
              ltac:(simpl; lia) Hrun) as (Hge & Hu & Hframe).
  split; [exact Hge|]. split; [exact Hu|].
  split; apply Hframe; simpl; lia.
Defined.

Lemma fcycle_without_cycles_never_returns_witness :
  (∀ r, Cycles.fcycle demo_fas false demo_zeros demo_xx demo_mms 0 true
          (Cycles.init_state demo_fas demo_arrays) ≠ Ok r)
  ∧ Cycles.fcycle demo_fas false demo_zeros demo_xx demo_mms 0 true
      (Cycles.init_state demo_fas demo_arrays) = Err (NameError "s").
Proof.
  split.
  - apply (fcycle_without_cycles_never_returns demo_fas false demo_zeros
             demo_xx demo_mms 0 true); [reflexivity|lia].
  - lazy -[Rplus Rminus Rmult Rdiv Rinv Ropp IZR INR]. reflexivity.
Defined.

Lemma demo_Phat_runs :
  ∃ w' st', Cycles.Phat demo_fas 1 2%nat 1%nat
              {| Cycles.store := demo_arrays ++ [[0; 6; 0]];
                 Cycles.wu := [0; 0]; Cycles.sweeps := [] |}
            = Ok (w', st').
Proof.
  eexists _, _. lazy -[Rplus Rminus Rmult Rdiv Rinv Ropp IZR INR].
  reflexivity.
Qed.

Lemma Phat_keeps_coarse_values_witness :
  ∃ (w' : nat) (st' : Cycles.state) (pw y : vec),
    Cycles.Phat demo_fas 1 2%nat 1%nat
      {| Cycles.store := demo_arrays ++ [[0; 6; 0]];
         Cycles.wu := [0; 0]; Cycles.sweeps := [] |} = Ok (w', st')
    ∧ PyMesh.prolong (PyMesh.init 1) [0; 6; 0] = Ok pw
    ∧ w' = 3%nat
    ∧ Cycles.store st' !! w' = Some y
    ∧ Cycles.store st' !! 2%nat = Some [0; 6; 0]
    ∧ length y = length pw
    ∧ ∀ q, Nat.even q = true ∨ (4 ≤ q)%nat → nth q y 0 = nth q pw 0.
Proof.
  destruct demo_Phat_runs as (w' & st' & Hrun).
  destruct (Phat_keeps_coarse_values demo_fas 1 2%nat 1%nat
              {| Cycles.store := demo_arrays ++ [[0; 6; 0]];
                 Cycles.wu := [0; 0]; Cycles.sweeps := [] |} w' st'
              [0; 6; 0] [0; 1; 2; 1; 0] (Cycles.of_pymesh (PyMesh.init 1))
              demo_ngspoint_local eq_refl eq_refl eq_refl Hrun)
    as (pw & y & H).
  exists w', st', pw, y. split; [exact Hrun|exact H].
Defined.

(* ================================================================= *)
(** ** The obstacle and the exact solution of [src/py/obs1.py] *)

Lemma nth_map_bool (g : R → bool) (x : vec) p :
  (p < length x)%nat → nth p (map g x) false = g (nth p x 0).
Proof.
  intros Hp. rewrite (nth_indep _ false (g 0)) by (by rewrite length_map).
  apply map_nth.
Qed.

Lemma nth_zip_andb (a b : list bool) p :
  (p < length a)%nat → (p < length b)%nat →
  nth p (zip_with andb a b) false = nth p a false && nth p b false.
Proof.
  revert a b. induction p as [|p IH]; intros [|x a] [|y b] Ha Hb;
    simpl in *; try lia; [done|]. apply IH; lia.
Qed.

(** An assignment [u[mask] = g(x[mask])] entry by entry. *)
Lemma mask_fill_from (g : R → R) :
  ∀ (u x : vec) (mask : list bool),
  length mask = length u → length x = length u →
  ∃ y : vec,
    mask_fill u mask (map g (mask_select x mask)) = Ok y
    ∧ length y = length u
    ∧ ∀ p, (p < length u)%nat →
        nth p y 0 = if nth p mask false then g (nth p x 0) else nth p u 0.
Proof.
  induction u as [|a u IH]; intros [|b x] [|c mask] Hm Hx; try done.
  - exists []. repeat split; try done. intros p Hp. simpl in Hp. lia.
  - injection Hm as Hm. injection Hx as Hx.
    destruct (IH x mask Hm Hx) as (y & Hy & Hl & Hp).
    destruct c; cbn [mask_select map mask_fill]; rewrite Hy, bind_Ok.
    + exists (g b :: y). split; [done|]. split; [simpl; lia|].
      intros [|p] Hlt; [done|]. simpl. apply Hp. simpl in Hlt. lia.
    + exists (a :: y). split; [done|]. split; [simpl; lia|].
      intros [|p] Hlt; [done|]. simpl. apply Hp. simpl in Hlt. lia.
Qed.

Lemma mask_assign (g : R → R) (u x : vec) (mask : list bool) :
  length mask = length u → length x = length u →
  ∃ xs y : vec,
    mask_get x mask = Ok xs
    ∧ mask_set u mask (map g xs) = Ok y
    ∧ length y = length u
    ∧ ∀ p, (p < length u)%nat →
        nth p y 0 = if nth p mask false then g (nth p x 0) else nth p u 0.
Proof.
  intros Hm Hx.
  destruct (mask_fill_from g u x mask Hm Hx) as (y & Hy & Hl & Hp).
  exists (mask_select x mask), y. unfold mask_get, mask_set.
  rewrite !decide_True by congruence. done.
Qed.

Lemma Rltb_true x y : x < y → Rltb x y = true.
Proof. intros. unfold Rltb. by destruct (Rlt_dec x y). Qed.

Lemma Rltb_false x y : ¬ x < y → Rltb x y = false.
Proof. intros. unfold Rltb. by destruct (Rlt_dec x y). Qed.

Lemma square_nonneg (x : R) : 0 <= x * x.
Proof. pose proof (Rle_0_sqr x) as H. unfold Rsqr in H. exact H. Qed.

Section Obs1Facts.

Import Obs1.

Context (args : Args) (draws : nat → R).

Lemma phi_plain (x : vec) (g : R → R) :
  random args = false →
  (if String.eqb (problem args) "parabola" then
     Ok (map (fun t => 8 * t * (1 - t) - 1) x)
   else if String.eqb (problem args) "low" then
     Ok (map (fun t => 8 * t * (1 - t) - 3) x)
   else if String.eqb (problem args) "icelike" then
     Ok (map (fun t => t * (1 - t)) x)
   else Err ValueError) = Ok (map g x) →
  phi args draws x = Ok (map g x).
Proof. intros Hr Hg. unfold phi. by rewrite Hg, bind_Ok, Hr. Qed.

(** X29.  In exact arithmetic the exact solution lies on or above the
    obstacle: for each of the problems [parabola], [low] and [icelike],
    without [-random] and with [fscale = 1], [uexact(x)] and [phi(x)]
    return for every array of nodes [x], and [uexact(x) >= phi(x)] entry by
    entry.  In float64 the two can be a rounding error apart in the wrong
    order at a node next to a free boundary, where they touch. *)
Theorem uexact_is_feasible (x : vec) :
  random args = false → fscale args = 1 →
  problem args = "parabola"%string ∨ problem args = "low"%string
  ∨ problem args = "icelike"%string →
  ∃ u ph : vec,
    uexact args draws x = Ok u
    ∧ phi args draws x = Ok ph
    ∧ length u = length x ∧ length ph = length x
    ∧ ∀ p, nth p ph 0 <= nth p u 0.
Proof.
  intros Hr Hf Hprob.
  assert (exactavailable args = true) as Hex.
  { unfold exactavailable. rewrite Hr, Hf. by destruct (Req_dec_T 1 1). }
  assert (∀ u ph : vec, length u = length x → length ph = length x →
            (∀ p, (p < length x)%nat → nth p ph 0 <= nth p u 0) →
            ∀ p, nth p ph 0 <= nth p u 0) as Hall.
  { intros u ph Hu Hph Hp p. destruct (decide (p < length x)%nat).
    - by apply Hp.
    - rewrite !nth_overflow by lia. lra. }
  unfold uexact. rewrite Hex. cbn [py_assert]. rewrite bind_Ok.
  destruct Hprob as [Hp|[Hp|Hp]].
  - (* parabola *)
    rewrite (phi_plain x (fun t => 8 * t * (1 - t) - 1)) by (by rewrite ?Hp).
    rewrite Hp. cbn [String.eqb Ascii.eqb Bool.eqb]. rewrite bind_Ok. cbv zeta.
    set (ph := map (fun t => 8 * t * (1 - t) - 1) x).
    assert (length ph = length x) as Hlph by (unfold ph; by rewrite length_map).
    destruct (mask_assign (fun t => t * (t - 18 * (1 / 3) + 8)) ph x
                (map (fun t => Rltb t (1 / 3)) x))
      as (xs1 & u1 & Hg1 & Hs1 & Hl1 & Hn1);
      [by rewrite length_map|done|].
    rewrite Hg1, bind_Ok, Hs1, bind_Ok.
    destruct (mask_assign (fun t => (1 - t) * (1 - t - 18 * (1 / 3) + 8)) u1 x
                (map (fun t => Rltb (1 - 1 / 3) t) x))
      as (xs2 & u2 & Hg2 & Hs2 & Hl2 & Hn2);
      [rewrite length_map; lia|lia|].
    rewrite Hg2, bind_Ok, Hs2.
    exists u2, ph. split; [done|]. split; [done|].
    split; [lia|]. split; [done|].
    apply Hall; [lia|done|]. intros p Hlt.
    rewrite Hn2, Hn1 by lia. rewrite !nth_map_bool by done.
    unfold ph. rewrite nth_map_in by done.
    set (t := nth p x 0).
    pose proof (square_nonneg (3 * t - 1)).
    pose proof (square_nonneg (3 * t - 2)).
    unfold Rltb. destruct (Rlt_dec (1 - 1 / 3) t), (Rlt_dec t (1 / 3)); lra.
  - (* low *)
    rewrite (phi_plain x (fun t => 8 * t * (1 - t) - 3)) by (by rewrite ?Hp).
    rewrite Hp. cbn [String.eqb Ascii.eqb Bool.eqb].
    eexists _, _. split; [done|]. split; [done|].
    rewrite !length_map. split; [done|]. split; [done|].
    apply Hall; [by rewrite length_map|by rewrite length_map|].
    intros p Hlt. rewrite !nth_map_in by done.
    set (t := nth p x 0). pose proof (square_nonneg (2 * t - 1)). lra.
  - (* icelike *)
    rewrite (phi_plain x (fun t => t * (1 - t))) by (by rewrite ?Hp).
    rewrite Hp. cbn [String.eqb Ascii.eqb Bool.eqb]. rewrite bind_Ok. cbv zeta.
    set (ph := map (fun t => t * (1 - t)) x).
    assert (length ph = length x) as Hlph by (unfold ph; by rewrite length_map).
    set (mid := zip_with andb (map (fun t => Rltb 0.2 t) x)
                  (map (fun t => Rltb t 0.8) x)).
    set (left := zip_with andb (map (fun t => Rltb 0.1 t) x)
                   (map (fun t => Rltb t 0.2) x)).
    set (right := zip_with andb (map (fun t => Rltb 0.8 t) x)
                    (map (fun t => Rltb t (1 - 0.1)) x)).
    assert (length mid = length x) as Hlm
      by (unfold mid; rewrite length_zip_with, !length_map; lia).
    assert (length left = length x) as Hll
      by (unfold left; rewrite length_zip_with, !length_map; lia).
    assert (length right = length x) as Hlr
      by (unfold right; rewrite length_zip_with, !length_map; lia).
    destruct (mask_assign (fun t => - 4 * t ^ 2 + 4 * t + - 0.39) ph x mid)
      as (xs1 & u1 & Hg1 & Hs1 & Hl1 & Hn1); [lia|lia|].
    rewrite Hg1, bind_Ok, Hs1, bind_Ok.
    destruct (mask_assign (fun t => 8 * t ^ 2 + - 0.8 * t + 0.09) u1 x left)
      as (xs2 & u2 & Hg2 & Hs2 & Hl2 & Hn2); [lia|lia|].
    rewrite Hg2, bind_Ok, Hs2, bind_Ok.
    destruct (mask_assign
                (fun t => 8 * (1 - t) ^ 2 + - 0.8 * (1 - t) + 0.09) u2 x right)
      as (xs3 & u3 & Hg3 & Hs3 & Hl3 & Hn3); [lia|lia|].
    rewrite Hg3, bind_Ok, Hs3.
    exists u3, ph. split; [done|]. split; [done|].
    split; [lia|]. split; [done|].
    apply Hall; [lia|done|]. intros p Hlt.
    rewrite Hn3, Hn2, Hn1 by lia.
    unfold mid, left, right.
    rewrite !nth_zip_andb by (rewrite length_map; lia).
    rewrite !nth_map_bool by done.
    unfold ph. rewrite nth_map_in by done.
    set (t := nth p x 0).
    pose proof (square_nonneg (3 * t - 0.3)).
    pose proof (square_nonneg (3 * (1 - t) - 0.3)).
    unfold Rltb.
    destruct (Rlt_dec 0.8 t), (Rlt_dec t (1 - 0.1)), (Rlt_dec 0.1 t),
      (Rlt_dec t 0.2), (Rlt_dec 0.2 t), (Rlt_dec t 0.8);
      cbn [andb]; try lra.
    all: assert (0 <= (t - 0.2) * (0.8 - t)) by (apply Rmult_le_pos; lra);
      lra.
Qed.

Lemma phi_base (x : vec) :
  problem args = "parabola"%string ∨ problem args = "low"%string
  ∨ problem args = "icelike"%string →
  ∃ g : R → R,
    (if String.eqb (problem args) "parabola" then
       Ok (map (fun t => 8 * t * (1 - t) - 1) x)
     else if String.eqb (problem args) "low" then
       Ok (map (fun t => 8 * t * (1 - t) - 3) x)
     else if String.eqb (problem args) "icelike" then
       Ok (map (fun t => t * (1 - t)) x)
     else Err ValueError) = Ok (map g x).
Proof.
  intros [Hp|[Hp|Hp]]; rewrite Hp; cbn [String.eqb Ascii.eqb Bool.eqb];
    by eexists.
Qed.

(** X30.  A random perturbation of the obstacle never moves its two end
    values: with [-random], [phi(x)] differs from the unperturbed obstacle
    by [randommag] times the draw of the node at the interior nodes and
    agrees with it at the first and at the last node; on an empty array of
    nodes it fails with [IndexError]. *)
Theorem phi_random_keeps_ends (x : vec) :
  random args = true →
  problem args = "parabola"%string ∨ problem args = "low"%string
  ∨ problem args = "icelike"%string →
  (x = [] → phi args draws x = Err IndexError)
  ∧ ((1 ≤ length x)%nat →
     ∃ ph ph0 : vec,
       phi args draws x = Ok ph
       ∧ phi {| problem := problem args; random := false;
                randommag := randommag args; fscale := fscale args |}
           draws x = Ok ph0
       ∧ length ph = length x
       ∧ nth 0 ph 0 = nth 0 ph0 0
       ∧ nth (length x - 1) ph 0 = nth (length x - 1) ph0 0
       ∧ ∀ p, (0 < p < length x - 1)%nat →
           nth p ph 0 = nth p ph0 0 + randommag args * draws p).
Proof.
  intros Hr Hprob.
  destruct (phi_base x Hprob) as (g & Hg).
  split.
  - intros ->. unfold phi. rewrite Hg, bind_Ok, Hr. reflexivity.
  - intros Hlen. unfold phi. cbn [problem random]. rewrite Hg, !bind_Ok, Hr.
    cbv zeta.
    set (n := length x) in *.
    set (pert := np_smul (randommag args) (randn draws n)).
    assert (length pert = n) as Hlp.
    { unfold pert, np_smul, randn. by rewrite !length_map, length_seq. }
    rewrite setitem_0, bind_Ok by lia.
    rewrite setitem_m1, bind_Ok by (rewrite length_insert; lia).
    rewrite length_insert, Hlp.
    set (pert' := <[(n - 1)%nat:=0]> (<[0%nat:=0]> pert)).
    assert (length pert' = n) as Hlp'
      by (unfold pert'; by rewrite !length_insert).
    unfold np_iadd, np_iop. rewrite length_map. fold n.
    rewrite decide_True by lia.
    eexists _, _. split; [done|]. split; [done|].
    split; [rewrite length_zip_with, length_map; fold n; lia|].
    assert (∀ p, (p < n)%nat →
              nth p (zip_with Rplus (map g x) pert') 0
              = nth p (map g x) 0 + nth p pert' 0) as Hsum.
    { intros p Hp.
      rewrite (nth_lookup (zip_with _ _ _)), lookup_zip_with.
      rewrite (lookup_nth (map g x) p) by (rewrite length_map; fold n; lia).
      rewrite (lookup_nth pert' p) by lia. done. }
    assert (∀ p, (p < n)%nat →
              nth p pert' 0
              = if decide (p = 0 ∨ p = n - 1)%nat then 0
                else randommag args * draws p) as Hpert.
    { intros p Hp. unfold pert'. rewrite !nth_insert, !length_insert, Hlp.
      repeat case_decide; try lia; try done; try tauto.
      unfold pert, np_smul, randn.
      rewrite nth_map_in by (by rewrite length_map, length_seq).
      f_equal. rewrite nth_lookup, list_lookup_fmap, lookup_seq_lt by done.
      done. }
    split; [|split].
    + rewrite Hsum, Hpert by lia. rewrite decide_True by lia. lra.
    + rewrite Hsum, Hpert by lia. rewrite decide_True by lia. lra.
    + intros p Hp. rewrite Hsum, Hpert by lia.
      rewrite decide_False by lia. done.
Qed.

End Obs1Facts.


Lemma uexact_is_feasible_witness :
  ∃ u ph : vec,
    Obs1.uexact demo_args (fun _ => 1) [0; 0.25; 0.5; 0.75; 1] = Ok u
    ∧ Obs1.phi demo_args (fun _ => 1) [0; 0.25; 0.5; 0.75; 1] = Ok ph
    ∧ length u = length [0; 0.25; 0.5; 0.75; 1]
    ∧ length ph = length [0; 0.25; 0.5; 0.75; 1]
    ∧ ∀ p, nth p ph 0 <= nth p u 0.
Proof.
  apply (uexact_is_feasible demo_args (fun _ => 1) [0; 0.25; 0.5; 0.75; 1]);
    [reflexivity|reflexivity|by left].
Defined.

Lemma phi_random_keeps_ends_witness :
  Obs1.phi demo_args_random (fun _ => 1) [] = Err IndexError
  ∧ ∃ ph ph0 : vec,
      Obs1.phi demo_args_random (fun _ => 1) [0; 0.5; 1] = Ok ph
      ∧ Obs1.phi demo_args (fun _ => 1) [0; 0.5; 1] = Ok ph0
      ∧ length ph = 3%nat
      ∧ nth 0 ph 0 = nth 0 ph0 0
      ∧ nth 2 ph 0 = nth 2 ph0 0
      ∧ ∀ p, (0 < p < 2)%nat → nth p ph 0 = nth p ph0 0 + 0.2 * 1.
Proof.
  split.
  - apply (proj1 (phi_random_keeps_ends demo_args_random (fun _ => 1) []
                    eq_refl (or_introl eq_refl))). reflexivity.
  - apply (proj2 (phi_random_keeps_ends demo_args_random (fun _ => 1)
                    [0; 0.5; 1] eq_refl (or_introl eq_refl))).
    simpl. lia.
Defined.
